(** * bf8: the Brainfuck virtual machine and the bs assembler

    A shallow embedding of the two Go programs of the repository:

    - the virtual machine ([Module VM], from the [vm] package: [Op],
      [Program], [NewProgram], [Run], ...), and
    - the [bs] assembler: its code generator ([Module BS]: [gen],
      [point], [pushLoopStart], [popLoopStart], [instr], [generate]) and
      its parser ([Module Parser]: [tokens], [parseExpr], [parseStmt],
      [parse]).  The lexer is the scanner of Go's library and is not
      modelled; the parser starts from the tokens.

    Conventions.  A Go [byte] is a [Z] in [0, 256); every conversion
    [byte(x)] is written out as [x mod 256], [uint16(x)] as [x mod 2^16]
    and [uint32(x)] as [x mod 2^32].  A Go run-time panic (index or slice
    out of range, explicit [panic(...)]) is the [Panic] case of the
    [result] type.  The unbuffered/bounded channel the machine sends its
    [Op]s to is modelled by the list of values sent so far, oldest first;
    blocking of a send is not modelled. *)

From Stdlib Require Import ZArith Ascii String Lia.
From stdpp Require Import base option list strings gmap.

Local Open Scope Z_scope.

(** ** Results of fallible code *)

Inductive panic : Type :=
  | IndexOutOfRange            (* run-time error: index out of range *)
  | SliceBoundsOutOfRange      (* run-time error: slice bounds out of range *)
  | StackOverflow              (* unbounded recursion *)
  | PanicMsg (msg : string)    (* panic("...") *)
  | PanicVarNotDefined (id : string)
      (* panic(err), err = fmt.Errorf("%q %w", id, errVarNotDefined) *)
  | PanicSecondArg (id : string).
      (* panic("second argument must be an integer: " + err.Error()) *)

Inductive result (A : Type) : Type :=
  | Ok (a : A)
  | Panic (e : panic).
Arguments Ok {A} a.
Arguments Panic {A} e.

#[global] Instance result_ret : MRet result := @Ok.
#[global] Instance result_bind : MBind result := fun A B f m =>
  match m with
  | Ok a => f a
  | Panic e => Panic e
  end.
#[global] Instance result_fmap : FMap result := fun A B f m =>
  match m with
  | Ok a => Ok (f a)
  | Panic e => Panic e
  end.

Definition is_Ok {A} (r : result A) : Prop := exists a, r = Ok a.
Definition is_Panic {A} (r : result A) : Prop := exists e, r = Panic e.

(** The code point of a character, as a byte. *)
Definition chr (c : ascii) : Z := Z.of_N (N_of_ascii c).

Definition bytes_of_string (s : string) : list Z :=
  chr <$> list_ascii_of_string s.

Definition is_byte (b : Z) : Prop := 0 <= b < 256.

(** [m[i]] on a slice or array: [None] when Go would panic. *)
Definition index (m : list Z) (i : Z) : option Z :=
  if 0 <=? i then m !! Z.to_nat i else None.

(** ** The virtual machine *)

Module VM.

(** *** Opcodes *)

Definition Opcode := Z.

Definition OpNop : Opcode := 0.
Definition OpRelJmpFwd : Opcode := 1.
Definition OpRelJmpBwd : Opcode := 2.

Definition OpR8AStore : Opcode := 20.
Definition OpR8BStore : Opcode := 21.
Definition OpR16AStore : Opcode := 22.
Definition OpR16BStore : Opcode := 23.
Definition OpR32AStore : Opcode := 24.
Definition OpR32BStore : Opcode := 25.
Definition OpR8ALoad : Opcode := 26.
Definition OpR8BLoad : Opcode := 27.
Definition OpR16ALoad : Opcode := 28.
Definition OpR16BLoad : Opcode := 29.
Definition OpR32ALoad : Opcode := 30.
Definition OpR32BLoad : Opcode := 31.

Definition OpClearCanvas : Opcode := 40.
Definition OpSetColor : Opcode := 41.
Definition OpSetPixel : Opcode := 42.
Definition OpDrawLine : Opcode := 43.

(** [type Op struct { code Opcode; args [8]byte }].  The array is a list;
    [Op_wf] says that it has its eight byte-valued elements. *)
Record Op : Type := mkOp { code : Opcode; args : list Z }.

Definition Op_wf (op : Op) : Prop :=
  is_byte (code op) /\ length (args op) = 8%nat /\ Forall is_byte (args op).

#[global] Instance Op_eq_dec : EqDecision Op.
Proof. solve_decision. Defined.

(** [op.args[len(op.args)-i-1]], with [len(op.args)] the constant 8. *)
Definition Op_Byte (op : Op) (i : Z) : result Z :=
  match index (args op) (8 - i - 1) with
  | Some b => Ok b
  | None => Panic IndexOutOfRange
  end.

Definition Op_Word (op : Op) (i : Z) : result Z :=
  b1 ← Op_Byte op 1;
  b0 ← Op_Byte op 0;
  Ok (Z.lor (Z.shiftl (b1 mod 2^16) 8 mod 2^16) (b0 mod 2^16)).

Definition Op_QWord (op : Op) (i : Z) : result Z :=
  b3 ← Op_Byte op 3;
  b2 ← Op_Byte op 2;
  b1 ← Op_Byte op 1;
  b0 ← Op_Byte op 0;
  Ok (Z.lor (Z.lor (Z.lor (Z.shiftl (b3 mod 2^32) 24 mod 2^32)
                          (Z.shiftl (b2 mod 2^32) 16 mod 2^32))
                   (Z.shiftl (b1 mod 2^32) 8 mod 2^32))
            (b0 mod 2^32)).

(** *** Loading *)

Inductive error : Type :=
  | ErrProgramNoMemory
  | ErrCodeBracketImbalance.

(** The loop of [ValidateBrainfuck]: [depth] after the bytes of [code]. *)
Fixpoint bracket_depth (code : list Z) (depth : Z) : Z :=
  match code with
  | [] => depth
  | c :: code' =>
      bracket_depth code'
        (if c =? chr "[" then depth + 1
         else if c =? chr "]" then depth - 1
         else depth)
  end.

Definition ValidateBrainfuck (code : list Z) : option error :=
  if negb (bracket_depth code 0 =? 0) then Some ErrCodeBracketImbalance
  else None.

Record Program : Type := mkProgram {
  memory : list Z;
  dataStart : Z;
  clockRate : Z;
  pc : Z;
  r8a : Z;
  r8b : Z;
  r16a : Z;
  r16b : Z;
  r32a : Z;
  r32b : Z;
  memPtr : Z
}.

Definition set_memory (p : Program) (m : list Z) : Program :=
  mkProgram m (dataStart p) (clockRate p) (pc p)
            (r8a p) (r8b p) (r16a p) (r16b p) (r32a p) (r32b p) (memPtr p).
Definition set_pc (p : Program) (v : Z) : Program :=
  mkProgram (memory p) (dataStart p) (clockRate p) v
            (r8a p) (r8b p) (r16a p) (r16b p) (r32a p) (r32b p) (memPtr p).
Definition set_memPtr (p : Program) (v : Z) : Program :=
  mkProgram (memory p) (dataStart p) (clockRate p) (pc p)
            (r8a p) (r8b p) (r16a p) (r16b p) (r32a p) (r32b p) v.
Definition set_r8a (p : Program) (v : Z) : Program :=
  mkProgram (memory p) (dataStart p) (clockRate p) (pc p)
            v (r8b p) (r16a p) (r16b p) (r32a p) (r32b p) (memPtr p).
Definition set_r8b (p : Program) (v : Z) : Program :=
  mkProgram (memory p) (dataStart p) (clockRate p) (pc p)
            (r8a p) v (r16a p) (r16b p) (r32a p) (r32b p) (memPtr p).
Definition set_r16a (p : Program) (v : Z) : Program :=
  mkProgram (memory p) (dataStart p) (clockRate p) (pc p)
            (r8a p) (r8b p) v (r16b p) (r32a p) (r32b p) (memPtr p).
Definition set_r16b (p : Program) (v : Z) : Program :=
  mkProgram (memory p) (dataStart p) (clockRate p) (pc p)
            (r8a p) (r8b p) (r16a p) v (r32a p) (r32b p) (memPtr p).
Definition set_r32a (p : Program) (v : Z) : Program :=
  mkProgram (memory p) (dataStart p) (clockRate p) (pc p)
            (r8a p) (r8b p) (r16a p) (r16b p) v (r32b p) (memPtr p).
Definition set_r32b (p : Program) (v : Z) : Program :=
  mkProgram (memory p) (dataStart p) (clockRate p) (pc p)
            (r8a p) (r8b p) (r16a p) (r16b p) (r32a p) v (memPtr p).

(** [len(p.memory)] *)
Definition memLen (p : Program) : Z := Z.of_nat (length (memory p)).

(** The bytes [bytes.Map] keeps.  It decodes [code] as UTF-8 and maps rune
    by rune; the eight instructions are ASCII, a byte below 128 is always a
    rune of its own, and every other rune (an invalid byte included) is
    mapped to -1 and dropped, so the call is a filter on bytes. *)
Definition is_instruction (r : Z) : bool :=
  (r =? chr ".") || (r =? chr ",") || (r =? chr "+") || (r =? chr "-")
  || (r =? chr ">") || (r =? chr "<") || (r =? chr "[") || (r =? chr "]").

Definition tapeSize : Z := 30000.

Definition NewProgram (code : list Z) : error + Program :=
  match ValidateBrainfuck code with
  | Some err => inl err
  | None =>
      let code := filter (fun r => is_instruction r = true) code in
      let dataStart := Z.of_nat (length code) + 10 in
      (* make([]byte, dataStart+30_000), then copy(p.memory, code) *)
      inr {| memory := code ++ replicate (Z.to_nat (10 + tapeSize)) 0;
             dataStart := dataStart;
             clockRate := 0;
             pc := 0;
             r8a := 0; r8b := 0; r16a := 0; r16b := 0; r32a := 0; r32b := 0;
             memPtr := dataStart |}
  end.

Definition CodeSection (p : Program) : list Z :=
  take (Z.to_nat (dataStart p)) (memory p).

Definition DataSection (p : Program) : list Z :=
  drop (Z.to_nat (dataStart p)) (memory p).

(** *** The tape pointer *)

Definition Right (p : Program) : Program :=
  let p := set_memPtr p (memPtr p + 1) in
  if memLen p <=? memPtr p then set_memPtr p 0 else p.

Definition Left (p : Program) : Program :=
  let p := set_memPtr p (memPtr p - 1) in
  if memPtr p <? 0 then set_memPtr p (memLen p - 1) else p.

(** *** Memory access *)

Definition Byte (p : Program) (idx : Z) : result Z :=
  match index (memory p) idx with
  | Some b => Ok b
  | None => Panic IndexOutOfRange
  end.

Definition SetByte (p : Program) (idx : Z) (value : Z) : result Program :=
  if (0 <=? idx) && (idx <? memLen p)
  then Ok (set_memory p (<[Z.to_nat idx := value]> (memory p)))
  else Panic IndexOutOfRange.

Definition Word (p : Program) (idx : Z) : result Z :=
  h ← Byte p (idx - 1);
  l ← Byte p idx;
  Ok (Z.lor (Z.shiftl (h mod 2^16) 8 mod 2^16) (l mod 2^16)).

Definition SetWord (p : Program) (idx : Z) (value : Z) : result Program :=
  p ← SetByte p (idx - 1) (Z.shiftr value 8 mod 256);
  SetByte p idx (value mod 256).

Definition QWord (p : Program) (idx : Z) : result Z :=
  b3 ← Byte p (idx - 3);
  b2 ← Byte p (idx - 2);
  b1 ← Byte p (idx - 1);
  b0 ← Byte p idx;
  Ok (Z.lor (Z.lor (Z.lor (Z.shiftl (b3 mod 2^32) 24 mod 2^32)
                          (Z.shiftl (b2 mod 2^32) 16 mod 2^32))
                   (Z.shiftl (b1 mod 2^32) 8 mod 2^32))
            (b0 mod 2^32)).

Definition SetQWord (p : Program) (idx : Z) (value : Z) : result Program :=
  p ← SetByte p (idx - 3) (Z.shiftr value 24 mod 256);
  p ← SetByte p (idx - 2) (Z.shiftr value 16 mod 256);
  p ← SetByte p (idx - 1) (Z.shiftr value 8 mod 256);
  SetByte p idx (value mod 256).

(** *** Loop jumps *)

(** The loop of [JumpToCloseLoop], over [l = memory[pc:]]: the value of
    [p.pc] on return.  Reading past the end of the memory panics. *)
Fixpoint close_scan (l : list Z) (depth : Z) (pc : Z) : result Z :=
  match l with
  | [] => Panic IndexOutOfRange
  | instr :: l' =>
      if instr =? 0 then Ok pc
      else if instr =? chr "[" then close_scan l' (depth + 1) (pc + 1)
      else if instr =? chr "]" then
        if depth - 1 <=? 0 then Ok pc else close_scan l' (depth - 1) (pc + 1)
      else close_scan l' depth (pc + 1)
  end.

Definition JumpToCloseLoop (p : Program) : result Program :=
  if (0 <=? pc p) then
    pc' ← close_scan (drop (Z.to_nat (pc p)) (memory p)) 0 (pc p);
    Ok (set_pc p pc')
  else Panic IndexOutOfRange.

(** The loop of [JumpToOpenLoop], over
    [l = memory[pc], memory[pc-1], ..., memory[0]]: the value of [p.pc] on
    return.  Stepping below index 0 sets [p.pc] to 0 and returns. *)
Fixpoint open_scan (l : list Z) (depth : Z) (pc : Z) : Z :=
  match l with
  | [] => 0
  | instr :: l' =>
      if instr =? 0 then pc
      else if instr =? chr "]" then open_scan l' (depth + 1) (pc - 1)
      else if instr =? chr "[" then
        if depth - 1 <=? 0 then pc else open_scan l' (depth - 1) (pc - 1)
      else open_scan l' depth (pc - 1)
  end.

Definition JumpToOpenLoop (p : Program) : result Program :=
  if (0 <=? pc p) && (pc p <? memLen p) then
    Ok (set_pc p (open_scan (reverse (take (S (Z.to_nat (pc p))) (memory p)))
                            0 (pc p)))
  else Panic IndexOutOfRange.

(** *** Dispatch of an [Op] *)

(** [p.Op(op, opChan)]; [ch] is what has been sent on [opChan] so far. *)
Definition Program_Op (p : Program) (op : Op) (ch : list Op)
  : result (Program * list Op) :=
  if code op =? OpNop then Ok (p, ch)
  else if code op =? OpRelJmpFwd then
    b ← Op_Byte op 0;
    let p := set_pc p (pc p + b) in
    Ok (if memLen p <=? pc p then set_pc p (memLen p - 1) else p, ch)
  else if code op =? OpRelJmpBwd then
    b ← Op_Byte op 0;
    let p := set_pc p (pc p - b) in
    Ok (if pc p <? 0 then set_pc p 0 else p, ch)
  else if code op =? OpR8AStore then
    b ← Op_Byte op 0; Ok (set_r8a p b, ch)
  else if code op =? OpR8BStore then
    b ← Op_Byte op 0; Ok (set_r8b p b, ch)
  else if code op =? OpR16AStore then
    w ← Op_Word op 0; Ok (set_r16a p w, ch)
  else if code op =? OpR16BStore then
    w ← Op_Word op 0; Ok (set_r16b p w, ch)
  else if code op =? OpR32AStore then
    q ← Op_QWord op 0; Ok (set_r32a p q, ch)
  else if code op =? OpR32BStore then
    q ← Op_QWord op 0; Ok (set_r32b p q, ch)
  else if code op =? OpR8ALoad then
    p ← SetByte p (memPtr p - 1) (r8a p); Ok (p, ch)
  else if code op =? OpR8BLoad then
    p ← SetByte p (memPtr p - 1) (r8b p); Ok (p, ch)
  else if code op =? OpR16ALoad then
    p ← SetWord p (memPtr p - 1) (r16a p); Ok (p, ch)
  else if code op =? OpR16BLoad then
    p ← SetWord p (memPtr p - 1) (r16b p); Ok (p, ch)
  else if code op =? OpR32ALoad then
    p ← SetQWord p (memPtr p - 1) (r32a p); Ok (p, ch)
  else if code op =? OpR32BLoad then
    p ← SetQWord p (memPtr p - 1) (r32b p); Ok (p, ch)
  else Ok (p, ch ++ [op]).

(** The opcodes [Program_Op] serves itself. *)
Definition internal (c : Opcode) : bool :=
  (c =? 0) || (c =? 1) || (c =? 2) || ((20 <=? c) && (c <=? 31)).

(** *** Execution *)

Definition AddRolling (n amt max : Z) : Z := Z.rem (n + amt) max.
Definition SubRolling (n amt max : Z) : Z := Z.rem (n - amt) max.

(** [for i = p.pc; p.memory[i] == c; i++ { ... }] over [l = memory[pc:]]:
    the number of iterations.  The loop only stops at a byte that
    differs from [c]; running off the end of the memory panics. *)
Fixpoint run_length (c : Z) (l : list Z) : result nat :=
  match l with
  | [] => Panic IndexOutOfRange
  | b :: l' => if b =? c then S <$> run_length c l' else Ok 0%nat
  end.

(** [memory[pc:]], for a program counter at which an instruction was
    just read. *)
Definition ahead (p : Program) : list Z := drop (Z.to_nat (pc p)) (memory p).

(** The [.] case of [Run]: the [Op] built from the tape. *)
Definition invoke_op (p : Program) : result Op :=
  c ← Byte p (memPtr p);
  let argsStart := if memPtr p - 8 <? 0 then 0 else memPtr p - 8 in
  (* copy(op.args[:], p.memory[argsStart:p.memPtr]) into a zeroed array *)
  let src := take (Z.to_nat (memPtr p - argsStart))
                  (drop (Z.to_nat argsStart) (memory p)) in
  Ok {| code := c; args := take 8 (src ++ replicate 8 0) |}.

(** The [switch instr] of the loop of [Run]. *)
Definition exec (instr : Z) (p : Program) (ch : list Op)
  : result (Program * list Op) :=
  if instr =? chr ">" then
    k ← run_length (chr ">") (ahead p);
    Ok (set_pc (Nat.iter k Right p) (pc p + Z.of_nat k - 1), ch)
  else if instr =? chr "<" then
    k ← run_length (chr "<") (ahead p);
    Ok (set_pc (Nat.iter k Left p) (pc p + Z.of_nat k - 1), ch)
  else if instr =? chr "+" then
    amt ← run_length (chr "+") (ahead p);
    let p := set_pc p (pc p + Z.of_nat amt - 1) in
    n ← Byte p (memPtr p);
    let newVal := AddRolling n (Z.of_nat amt) 255 in
    p ← SetByte p (memPtr p) (newVal mod 256);
    Ok (p, ch)
  else if instr =? chr "-" then
    amt ← run_length (chr "-") (ahead p);
    let p := set_pc p (pc p + Z.of_nat amt - 1) in
    n ← Byte p (memPtr p);
    let newVal := SubRolling n (Z.of_nat amt) 255 in
    p ← SetByte p (memPtr p) (newVal mod 256);
    Ok (p, ch)
  else if instr =? chr "[" then
    if pc p + 3 <=? memLen p then
      if bool_decide (take 3 (ahead p) = bytes_of_string "[-]") then
        p ← SetByte p (memPtr p) 0;
        Ok (set_pc p (pc p + 2), ch)
      else
        b ← Byte p (memPtr p);
        if b =? 0 then p ← JumpToCloseLoop p; Ok (p, ch) else Ok (p, ch)
    else Panic SliceBoundsOutOfRange
  else if instr =? chr "]" then
    b ← Byte p (memPtr p);
    if negb (b =? 0) then p ← JumpToOpenLoop p; Ok (p, ch) else Ok (p, ch)
  else if instr =? chr "." then
    op ← invoke_op p;
    Program_Op p op ch
  else Ok (p, ch).

(** The loop-open case with the [[-]] shortcut taken out: what executing
    the idiom literally means.  Every other instruction is as in [exec]. *)
Definition exec_literal (instr : Z) (p : Program) (ch : list Op)
  : result (Program * list Op) :=
  if instr =? chr "[" then
    b ← Byte p (memPtr p);
    if b =? 0 then p ← JumpToCloseLoop p; Ok (p, ch) else Ok (p, ch)
  else exec instr p ch.

Inductive outcome : Type :=
  | Halted (p : Program) (ch : list Op)     (* Run returned nil *)
  | Failed (e : error)                      (* Run returned an error *)
  | Panicked (e : panic)
  | OutOfFuel (p : Program) (ch : list Op). (* still running *)

Section Loop.

(** The [switch] the loop runs: [exec] for the machine as it is. *)
Variable ex : Z -> Program -> list Op -> result (Program * list Op).

(** One turn of the loop of [Run], for the instruction [instr] just read
    at [p.pc]: the [switch], then [p.pc++].  The pacing sleep that
    [clockRate] asks for changes no state. *)
Definition step (instr : Z) (p : Program) (ch : list Op)
  : result (Program * list Op) :=
  '(p, ch) ← ex instr p ch;
  Ok (set_pc p (pc p + 1), ch).

(** The loop of [Run]; [fuel] bounds the number of turns. *)
Fixpoint run_loop (fuel : nat) (p : Program) (ch : list Op) : outcome :=
  match Byte p (pc p) with
  | Panic e => Panicked e
  | Ok instr =>
      if instr =? 0 then Halted p ch
      else match fuel with
           | O => OutOfFuel p ch
           | S fuel =>
               match step instr p ch with
               | Panic e => Panicked e
               | Ok (p, ch) => run_loop fuel p ch
               end
           end
  end.

(** [n] turns of the loop, none of which halts or panics. *)
Fixpoint turns (n : nat) (p : Program) (ch : list Op)
  : option (Program * list Op) :=
  match n with
  | O => Some (p, ch)
  | S n =>
      match Byte p (pc p) with
      | Panic _ => None
      | Ok instr =>
          if instr =? 0 then None
          else match step instr p ch with
               | Panic _ => None
               | Ok (p, ch) => turns n p ch
               end
      end
  end.

End Loop.

Definition Run (fuel : nat) (p : Program) (ch : list Op) : outcome :=
  if memLen p =? 0 then Failed ErrProgramNoMemory
  else run_loop exec fuel p ch.

(** [Run] on a machine that executes [[-]] literally. *)
Definition RunLiteral (fuel : nat) (p : Program) (ch : list Op) : outcome :=
  if memLen p =? 0 then Failed ErrProgramNoMemory
  else run_loop exec_literal fuel p ch.

(** Loading [code] and running it with nothing sent yet. *)
Definition load_and_run (fuel : nat) (code : string) : outcome :=
  match NewProgram (bytes_of_string code) with
  | inl e => Failed e
  | inr p => Run fuel p []
  end.

Definition load_and_run_literal (fuel : nat) (code : string) : outcome :=
  match NewProgram (bytes_of_string code) with
  | inl e => Failed e
  | inr p => RunLiteral fuel p []
  end.

(** What a consumer that drains the channel has seen when [Run] is over. *)
Definition sent (o : outcome) : option (list Op) :=
  match o with
  | Halted _ ch => Some ch
  | _ => None
  end.

(** The first [n] cells of the data section when [Run] is over. *)
Definition cells (n : nat) (o : outcome) : option (list Z) :=
  match o with
  | Halted p _ => Some (take n (DataSection p))
  | _ => None
  end.

End VM.

(** ** The code generator of the assembler *)

Module BS.

(** Go's [int] is 64 bits wide; [wrap_int] is the value an arithmetic
    result is stored as. *)
Definition min_int : Z := - 2^63.
Definition max_int : Z := 2^63 - 1.
Definition wrap_int (x : Z) : Z := (x + 2^63) mod 2^64 - 2^63.
Definition in_int (x : Z) : Prop := min_int <= x <= max_int.

(** [expr]: an identifier, an integer, or the address [[e]]. *)
Inductive expr : Type :=
  | exprId (id : string)
  | exprInt (v : Z)
  | exprAddr (e : expr).

(** [stmtInstr]; a [nil] operand is [None]. *)
Record stmtInstr : Type := mkInstr {
  name : string;
  dst : option expr;
  src : option expr
}.

Inductive stmt : Type :=
  | StmtInstr (i : stmtInstr)
  | StmtLabel (l : string).

Record gen : Type := mkGen {
  sb : list ascii;
  ptr : Z;
  label : string;
  labelTable : gmap string expr;
  loopStarts : list Z
}.

Definition write (g : gen) (s : list ascii) : gen :=
  mkGen (sb g ++ s) (ptr g) (label g) (labelTable g) (loopStarts g).
Definition set_ptr (g : gen) (v : Z) : gen :=
  mkGen (sb g) v (label g) (labelTable g) (loopStarts g).
Definition set_label (g : gen) (l : string) : gen :=
  mkGen (sb g) (ptr g) l (labelTable g) (loopStarts g).
Definition set_labelTable (g : gen) (t : gmap string expr) : gen :=
  mkGen (sb g) (ptr g) (label g) t (loopStarts g).
Definition set_loopStarts (g : gen) (l : list Z) : gen :=
  mkGen (sb g) (ptr g) (label g) (labelTable g) l.

(** [for range n { g.sb.WriteRune(c) }]: nothing for [n <= 0]. *)
Definition runes (n : Z) (c : ascii) : list ascii := replicate (Z.to_nat n) c.

Definition point (g : gen) (at_ : Z) : gen :=
  let diff := wrap_int (at_ - ptr g) in
  let g := if diff <? 0 then write g (runes (wrap_int (- diff)) "<")
           else write g (runes diff ">") in
  set_ptr g at_.

Definition pushLoopStart (g : gen) (ptr : Z) : gen :=
  set_loopStarts g (loopStarts g ++ [ptr]).

(** [g.loopStarts[len(g.loopStarts)-1]] panics on the empty stack. *)
Definition popLoopStart (g : gen) : result (gen * Z) :=
  match last (loopStarts g) with
  | None => Panic IndexOutOfRange
  | Some start =>
      Ok (set_loopStarts g (take (Nat.pred (length (loopStarts g)))
                                 (loopStarts g)),
          start)
  end.

Definition loopStart (g : gen) : gen :=
  write (pushLoopStart g (ptr g)) ["["%char].

Definition loopEnd (g : gen) : result gen :=
  '(g, start) ← popLoopStart g;
  Ok (write (point g start) ["]"%char]).

Definition lookup (g : gen) (id : string) : option expr :=
  labelTable g !! id.

(** The method [int(lookup)] of the three kinds of [expr]: [inl v] for
    [(v, nil)], [inr id] for the error that [id] is not defined.  An
    identifier bound to an expression is evaluated through the table; a
    chain of more than [fuel] bound identifiers is cut off.  With [fuel]
    the size of the table such a chain visits some identifier twice, and
    the recursion of the source never ends ([int_fuel_enough] below). *)
Fixpoint int_of (fuel : nat) (lookup : string -> option expr) (e : expr)
  : result (Z + string) :=
  match e with
  | exprInt v => Ok (inl v)
  | exprAddr _ =>
      Panic (PanicMsg "cannot call int() on exprAddr; not an int itself")
  | exprId id =>
      match lookup id with
      | None => Ok (inr id)
      | Some e' =>
          match fuel with
          | O => Panic StackOverflow
          | S fuel => int_of fuel lookup e'
          end
      end
  end.

Definition int (g : gen) (e : expr) : result (Z + string) :=
  int_of (size (labelTable g)) (lookup g) e.

(** [if addr, ok := x.(exprAddr); ok { v, err := addr.expr.int(g.lookup);
    if err != nil { panic(err) }; ... } else { panic(msg) }]: the value
    [v]. *)
Definition addr_of (g : gen) (x : option expr) (msg : string) : result Z :=
  match x with
  | Some (exprAddr e) =>
      r ← int g e;
      match r with
      | inl v => Ok v
      | inr id => Panic (PanicVarNotDefined id)
      end
  | _ => Panic (PanicMsg msg)
  end.

(** [times := 1; if instr.src != nil { ...; times = v }] *)
Definition times_of (g : gen) (x : option expr) : result Z :=
  match x with
  | None => Ok 1
  | Some e =>
      r ← int g e;
      match r with
      | inl v => Ok v
      | inr id => Panic (PanicSecondArg id)
      end
  end.

Definition must_addr : string := "first argument must be an address".

(** The [switch instr.name] of [gen.instr]. *)
Definition instr_body (g : gen) (i : stmtInstr) : result gen :=
  if (name i =? "inc")%string then
    v ← addr_of g (dst i) must_addr;
    let g := point g v in
    times ← times_of g (src i);
    Ok (write g (runes times "+"))
  else if (name i =? "dec")%string then
    v ← addr_of g (dst i) must_addr;
    let g := point g v in
    times ← times_of g (src i);
    Ok (write g (runes times "-"))
  else if (name i =? "while")%string then
    v ← addr_of g (dst i) must_addr;
    Ok (loopStart (point g v))
  else if (name i =? "endwhile")%string then
    match dst i with
    | Some (exprAddr _) =>
        v ← addr_of g (dst i) must_addr;
        '(g, _) ← popLoopStart g;
        Ok (write (point g v) ["]"%char])
    | _ => loopEnd g
    end
  else if (name i =? "call")%string then
    v ← addr_of g (dst i) must_addr;
    Ok (write (point g v) ["."%char])
  else if (name i =? "read")%string then
    v ← addr_of g (dst i) must_addr;
    Ok (write (point g v) [","%char])
  else if (name i =? "clear")%string then
    v ← addr_of g (dst i) must_addr;
    Ok (write (point g v) (list_ascii_of_string "[-]"))
  else if (name i =? "if")%string then
    condPtr ← addr_of g (dst i)
      "first argument must be the address of the conditional cell that will be checked and cleared";
    junkPtr ← addr_of g (src i)
      "second argument must be the address of a cell that can be junked in the process";
    let g := point g junkPtr in
    let g := write g (list_ascii_of_string "[-]+") in
    let g := point g condPtr in
    let g := pushLoopStart g condPtr in
    let g := pushLoopStart g junkPtr in
    let g := write g ["["%char] in
    let g := write g (list_ascii_of_string "[-]") in
    let g := point g junkPtr in
    Ok (write g (list_ascii_of_string "[-]"))
  else if (name i =? "else")%string then
    '(g, junkPtr) ← popLoopStart g;
    '(g, condPtr) ← popLoopStart g;
    let g := point g condPtr in
    let g := write g ["]"%char] in
    let g := point g junkPtr in
    let g := write g ["["%char] in
    let g := pushLoopStart g condPtr in
    Ok (pushLoopStart g junkPtr)
  else if (name i =? "endif")%string then
    '(g, _) ← popLoopStart g;
    '(g, condPtr) ← popLoopStart g;
    let g := point g condPtr in
    Ok (write g ["]"%char])
  else if (name i =? "const")%string then
    match dst i, src i with
    | Some value, None =>
        if (label g =? "")%string then
          Panic (PanicMsg "const must have a label before it")
        else match labelTable g !! label g with
             | Some _ =>
                 Panic (PanicMsg "a const cannot be shadowed by another const with the same name")
             | None => Ok (set_labelTable g (<[label g := value]> (labelTable g)))
             end
    | _, _ => Panic (PanicMsg "const must have one value")
    end
  else Panic (PanicMsg ("not a valid instruction name: " ++ name i)).

Definition instr (g : gen) (i : stmtInstr) : result gen :=
  g ← instr_body g i;
  Ok (set_label g "").

(** [gen := new(gen); gen.labelTable = make(map[string]expr)] *)
Definition new_gen : gen := mkGen [] 0 "" ∅ [].

(** The loop of [generate] over [ast.stmts]. *)
Fixpoint gen_stmts (g : gen) (stmts : list stmt) : result gen :=
  match stmts with
  | [] => Ok g
  | StmtInstr s :: stmts => g ← instr g s; gen_stmts g stmts
  | StmtLabel s :: stmts => gen_stmts (set_label g s) stmts
  end.

Definition generate (stmts : list stmt) : result string :=
  g ← gen_stmts new_gen stmts;
  Ok (string_of_list_ascii (sb g)).

End BS.

(** ** Vocabulary of the properties *)

Module VMSpec.
Import VM.

(** How often the byte [c] occurs in [code]. *)
Definition occurrences (c : Z) (code : list Z) : nat :=
  length (filter (fun b => b = c) code).

(** The tape pointer is inside the data section. *)
Definition in_data (p : Program) : Prop :=
  dataStart p <= memPtr p < dataStart p + tapeSize.

(** The tape pointer is inside the memory. *)
Definition in_memory (p : Program) : Prop :=
  0 <= memPtr p < memLen p.

Inductive move : Type := MRight | MLeft.

Definition do_move (p : Program) (m : move) : Program :=
  match m with
  | MRight => Right p
  | MLeft => Left p
  end.

Definition do_moves (p : Program) (ms : list move) : Program :=
  foldl do_move p ms.

Definition displacement (ms : list move) : Z :=
  foldr (fun m d => match m with MRight => d + 1 | MLeft => d - 1 end) 0 ms.

(** A register-store opcode, its load opcode and the width in bytes. *)
Inductive paired : Opcode -> Opcode -> Z -> Prop :=
  | paired_r8a : paired OpR8AStore OpR8ALoad 1
  | paired_r8b : paired OpR8BStore OpR8BLoad 1
  | paired_r16a : paired OpR16AStore OpR16ALoad 2
  | paired_r16b : paired OpR16BStore OpR16BLoad 2
  | paired_r32a : paired OpR32AStore OpR32ALoad 4
  | paired_r32b : paired OpR32BStore OpR32BLoad 4.

(** Where the tape pointer is when [Run] is over. *)
Definition stays_in_data (o : outcome) : Prop :=
  match o with
  | Halted p _ => in_data p
  | _ => True
  end.

Definition final_pointer (o : outcome) : option (Z * Z) :=
  match o with
  | Halted p _ => Some (dataStart p, memPtr p)
  | _ => None
  end.

(** The machine after [n] turns of [Run] on the loaded [code]: the
    instruction at the program counter, the tape pointer, the byte before
    the tape pointer, and the [Op] an invoke instruction builds there with
    its argument byte 0. *)
Definition invoke_after (n : nat) (code : string)
  : option (result Z * Z * result Z * result (Op * Z)) :=
  match NewProgram (bytes_of_string code) with
  | inl _ => None
  | inr p =>
      '(p, _) ← turns exec n p [];
      Some (Byte p (pc p), memPtr p, Byte p (memPtr p - 1),
            op ← invoke_op p; b ← Op_Byte op 0; Ok (op, b))
  end.

(** The clear idiom [[-]] is in the memory [m] at index [a]. *)
Definition idiom_at (m : list Z) (a : Z) : Prop :=
  index m a = Some (chr "[") /\ index m (a + 1) = Some (chr "-")
  /\ index m (a + 2) = Some (chr "]").

(** The machine after the idiom at its program counter: the current cell
    is zero and the program counter is past the idiom. *)
Definition cleared (p : Program) : Program :=
  set_pc (set_memory p (<[Z.to_nat (memPtr p) := 0]> (memory p))) (pc p + 3).

Definition same_registers (p q : Program) : Prop :=
  r8a p = r8a q /\ r8b p = r8b q /\ r16a p = r16a q /\ r16b p = r16b q
  /\ r32a p = r32a q /\ r32b p = r32b q.

End VMSpec.

Module BSSpec.
Import BS.

(** The step markers that take the cursor from 0 to [addr]: all of one
    direction. *)
Definition movement (addr : Z) : list ascii :=
  if addr <? 0 then replicate (Z.to_nat (Z.abs addr)) "<"%char
  else replicate (Z.to_nat (Z.abs addr)) ">"%char.

Definition has_name (n : string) (s : stmt) : Prop :=
  match s with
  | StmtInstr i => name i = n
  | StmtLabel _ => False
  end.

(** A label, or an instruction that is no part of a control construct. *)
Definition plain (s : stmt) : Prop :=
  match s with
  | StmtLabel _ => True
  | StmtInstr i =>
      name i ∈ ["inc"; "dec"; "call"; "read"; "clear"; "const"]
  end.

(** The instructions that close or continue a control construct. *)
Definition closer (i : stmtInstr) : Prop :=
  name i ∈ ["endwhile"; "else"; "endif"].

(** Statement sequences in which every [while] has its [endwhile] and
    every [if] its [endif], with at most one [else] between them. *)
Inductive matched : list stmt -> Prop :=
  | matched_nil : matched []
  | matched_plain s rest :
      plain s -> matched rest -> matched (s :: rest)
  | matched_while w body e rest :
      has_name "while" w -> has_name "endwhile" e ->
      matched body -> matched rest ->
      matched (w :: body ++ e :: rest)
  | matched_if i body e rest :
      has_name "if" i -> has_name "endif" e ->
      matched body -> matched rest ->
      matched (i :: body ++ e :: rest)
  | matched_if_else i body1 el body2 e rest :
      has_name "if" i -> has_name "else" el -> has_name "endif" e ->
      matched body1 -> matched body2 -> matched rest ->
      matched (i :: body1 ++ el :: body2 ++ e :: rest).

(** The recursion of [int(lookup)] written as a relation: [e] evaluates
    to [r] after [k] identifiers were found in the table. *)
Inductive evaluates (lk : string -> option expr)
  : expr -> nat -> result (Z + string) -> Prop :=
  | evaluates_int v : evaluates lk (exprInt v) 0 (Ok (inl v))
  | evaluates_addr e :
      evaluates lk (exprAddr e) 0
        (Panic (PanicMsg "cannot call int() on exprAddr; not an int itself"))
  | evaluates_undefined id :
      lk id = None -> evaluates lk (exprId id) 0 (Ok (inr id))
  | evaluates_bound id e k r :
      lk id = Some e -> evaluates lk e k r ->
      evaluates lk (exprId id) (S k) r.

(** Operands as the parser gives them for literal source text: addresses
    [[a]] and counts [n] with [a] and [n] integers. *)
Definition literal_addr (x : option expr) : Prop :=
  exists a, x = Some (exprAddr (exprInt a)).

Definition literal_count (x : option expr) : Prop :=
  x = None \/ exists n, x = Some (exprInt n).

Definition literal_operands (s : stmt) : Prop :=
  match s with
  | StmtLabel _ => True
  | StmtInstr i =>
      (name i ∈ ["inc"; "dec"] /\ literal_addr (dst i) /\ literal_count (src i))
      \/ (name i ∈ ["while"; "call"; "read"; "clear"] /\ literal_addr (dst i))
      \/ (name i = "if" /\ literal_addr (dst i) /\ literal_addr (src i))
      \/ (name i = "endwhile" /\ (dst i = None \/ literal_addr (dst i)))
      \/ name i ∈ ["else"; "endif"]
  end.

End BSSpec.

(** ** Vocabulary of further properties of the virtual machine *)

Module VMInv.
Import VM VMSpec.

(** The machine state the Go types promise: bytes in the memory and in
    the two byte registers, and a tape pointer inside the memory. *)
Definition well_formed (p : Program) : Prop :=
  Forall is_byte (memory p) /\ is_byte (r8a p) /\ is_byte (r8b p)
  /\ in_memory p.

(** What one turn never changes. *)
Definition same_frame (p q : Program) : Prop :=
  memLen q = memLen p /\ dataStart q = dataStart p
  /\ clockRate q = clockRate p.

(** [q] is [p] after some turns: the frame is the same and a well-formed
    machine is still well formed. *)
Definition keeps (p q : Program) : Prop :=
  same_frame p q /\ (well_formed p -> well_formed q).

(** An [Op] the consumer may receive: eight argument bytes and an
    opcode that the machine does not serve itself. *)
Definition external (op : Op) : Prop :=
  Op_wf op /\ internal (code op) = false.

(** The states [Run] can stop in. *)
Definition stopped (o : outcome) (p : Program) (ch : list Op) : Prop :=
  o = Halted p ch \/ o = OutOfFuel p ch.

(** Text whose loops are well nested and which holds no zero byte. *)
Inductive nested : list Z -> Prop :=
  | nested_nil : nested []
  | nested_byte b l :
      b <> 0 -> b <> chr "[" -> b <> chr "]" -> nested l -> nested (b :: l)
  | nested_loop body l :
      nested body -> nested l -> nested (chr "[" :: body ++ chr "]" :: l).

(** From [p] to [q] no byte of the memory was written outside the
    indices [lo] to [hi]. *)
Definition writes_within (p q : Program) (lo hi : Z) : Prop :=
  forall j, ~ (lo <= j <= hi) -> Byte q j = Byte p j.

(** The machine runs from [p] to [q] with the tape pointer in the data
    section, or past its end, at the start of every turn. *)
Inductive runs_in_data : Program -> list Op -> Program -> list Op -> Prop :=
  | runs_here p ch : runs_in_data p ch p ch
  | runs_turn p ch i q c r c' :
      dataStart p <= memPtr p -> Byte p (pc p) = Ok i -> i <> 0 ->
      step exec i p ch = Ok (q, c) -> runs_in_data q c r c' ->
      runs_in_data p ch r c'.

(** A byte of straight-line code: no loop and no invoke. *)
Definition straight (b : Z) : Prop :=
  b ∈ [chr "+"; chr "-"; chr ","; chr ">"; chr "<"].

(** The tape pointer, counted from the start of the data section, after
    the byte [b]. *)
Definition shift (off b : Z) : Z :=
  if b =? chr ">" then off + 1
  else if b =? chr "<" then off - 1
  else off.

Definition offset_after (off : Z) (code : list Z) : Z := foldl shift off code.

(** Through the bytes of [code] the tape pointer stays inside a data
    section of [size] cells. *)
Fixpoint in_tape (size off : Z) (code : list Z) : Prop :=
  match code with
  | [] => True
  | b :: code' =>
      0 <= off < size /\ 0 <= shift off b < size
      /\ in_tape size (shift off b) code'
  end.

(** The machine is at index [length pre] of the code [pre ++ suf], whose
    bytes and the zero byte after them are in place before the data
    section, and the tape pointer is [off] cells into a data section of
    [size] cells. *)
Definition at_code (pre suf : list Z) (size off : Z) (p : Program) : Prop :=
  (exists tail, memory p = (pre ++ suf) ++ 0 :: tail) /\
  pc p = Z.of_nat (length pre) /\
  Z.of_nat (length (pre ++ suf)) < dataStart p /\
  memPtr p = dataStart p + off /\
  memLen p = dataStart p + size.

End VMInv.

(** ** Vocabulary of further properties of the code generator *)

Module BSInv.
Import BS BSSpec.

(** How often the character [c] occurs in a text. *)
Definition count (c : ascii) (l : list ascii) : Z :=
  Z.of_nat (length (filter (fun x => x = c) l)).

(** Steps right minus steps left: where running the text straight
    through leaves the tape pointer. *)
Definition net_moves (l : list ascii) : Z :=
  count ">" l - count "<" l.

(** Loop-open minus loop-close characters. *)
Definition open_loops (l : list ascii) : Z :=
  count "[" l - count "]" l.

(** The eight characters of the machine's instructions. *)
Definition instruction_char (c : ascii) : Prop :=
  c ∈ ["."; ","; "+"; "-"; ">"; "<"; "["; "]"]%char.

(** An operand that leaves the cursor where the text can follow it: no
    operand, an integer or an identifier, or an address [[a]] written as
    a literal that is not negative. *)
Definition small_operand (x : option expr) : Prop :=
  match x with
  | Some (exprAddr (exprInt a)) => 0 <= a <= max_int
  | Some (exprAddr _) => False
  | _ => True
  end.

Definition small_operands (s : stmt) : Prop :=
  match s with
  | StmtLabel _ => True
  | StmtInstr i => small_operand (dst i) /\ small_operand (src i)
  end.

(** The cursor and the saved cursors are addresses that are not
    negative. *)
Definition small_state (g : gen) : Prop :=
  0 <= ptr g <= max_int
  /\ Forall (fun x => 0 <= x <= max_int) (loopStarts g).

(** The text written so far moves the tape pointer as far as the cursor
    says. *)
Definition tracks (g g' : gen) : Prop :=
  exists text, sb g' = sb g ++ text /\ net_moves text = ptr g' - ptr g.

(** [h] is reached from [g] with cursor and saved cursors not negative
    and the cursor tracking the text. *)
Definition good (g h : gen) : Prop := small_state h /\ tracks g h.

(** What a statement adds to the number of loops that are open in the
    text: one for a [while] or an [if], minus one for an [endwhile] or an
    [endif]. *)
Definition opens (s : stmt) : Z :=
  match s with
  | StmtLabel _ => 0
  | StmtInstr i =>
      if ((name i =? "while") || (name i =? "if"))%string then 1
      else if ((name i =? "endwhile") || (name i =? "endif"))%string then -1
      else 0
  end.

Definition opened (stmts : list stmt) : Z :=
  foldr (fun s d => opens s + d) 0 stmts.

(** From [g] to [h] instruction characters were written, and [d] more
    loops opened than closed. *)
Definition emits (g h : gen) (d : Z) : Prop :=
  exists text,
    sb h = sb g ++ text /\ Forall instruction_char text /\ open_loops text = d.

End BSInv.

(** ** The parser of the assembler *)

Module Parser.
Import BS.

Inductive tokenT : Type :=
  | tokNil
  | tokEOL
  | tokId
  | tokInt
  | tokComma
  | tokColon
  | tokLBracket
  | tokRBracket.

#[global] Instance tokenT_eq_dec : EqDecision tokenT.
Proof. solve_decision. Defined.

Record token : Type := mkToken { t : tokenT; v : string }.

Definition tokens : Type := list token.

(** [t[1:]], and [nil] for the empty slice. *)
Definition consume (ts : tokens) : tokens :=
  match ts with
  | [] => []
  | _ :: ts' => ts'
  end.

(** [&t[0]], and [nil] for the empty slice. *)
Definition next (ts : tokens) : option token :=
  match ts with
  | [] => None
  | tok :: _ => Some tok
  end.

(** [&t[1]], and [nil] for a slice of fewer than two tokens. *)
Definition peek (ts : tokens) : option token :=
  match ts with
  | _ :: tok :: _ => Some tok
  | _ => None
  end.

(** Reading a field through a pointer, [p.t] or [p.v]: a run-time panic
    when [p] is [nil]. *)
Definition NilDereference : panic :=
  PanicMsg "runtime error: invalid memory address or nil pointer dereference".

Definition deref (p : option token) : result token :=
  match p with
  | Some tok => Ok tok
  | None => Panic NilDereference
  end.

Section Library.

(** [strconv.Atoi]: the integer, or the text of the error. *)
Variable Atoi : string -> Z + string.

(** [strings.ToLower] *)
Variable ToLower : string -> string.

Definition parseExprId (toks : tokens) : result (tokens * expr) :=
  tok ← deref (next toks);
  if negb (bool_decide (t tok = tokId)) then Panic (PanicMsg "expected exprId")
  else Ok (consume toks, exprId (v tok)).

Definition parseExprInt (toks : tokens) : result (tokens * expr) :=
  tok ← deref (next toks);
  if negb (bool_decide (t tok = tokInt)) then Panic (PanicMsg "expected exprInt")
  else match Atoi (v tok) with
       | inr err => Panic (PanicMsg err)
       | inl n => Ok (consume toks, exprInt n)
       end.

(** The end of [parseExprAddr], after the expression between the
    brackets. *)
Definition closing (r : tokens * expr) : result (tokens * expr) :=
  let '(toks, e) := r in
  tok ← deref (next toks);
  if negb (bool_decide (t tok = tokRBracket))
  then Panic (PanicMsg "exprAddr must have a closing right bracket (])")
  else Ok (consume toks, exprAddr e).

(** [parseExpr] and [parseExprAddr] call each other; the recursion is on
    the tokens that are left, with the call of [parseExprAddr] written
    out in [parseExpr] (its test of the left bracket has just held). *)
Fixpoint parseExpr (toks : tokens) : result (tokens * expr) :=
  match toks with
  | [] => Panic NilDereference
  | tok :: rest =>
      if bool_decide (t tok = tokId) then parseExprId toks
      else if bool_decide (t tok = tokLBracket) then
        parseExpr rest ≫= closing
      else parseExprInt toks
  end.

Definition parseExprAddr (toks : tokens) : result (tokens * expr) :=
  tok ← deref (next toks);
  if negb (bool_decide (t tok = tokLBracket))
  then Panic (PanicMsg "exprAddr must start with left bracket ([)")
  else parseExpr (consume toks) ≫= closing.

(** [tok := toks.next(); tok == nil || tok.t == tokEOL] *)
Definition at_end (toks : tokens) : bool :=
  match next toks with
  | None => true
  | Some tok => bool_decide (t tok = tokEOL)
  end.

Definition parseStmtInstr (toks : tokens) : result (tokens * stmtInstr) :=
  tok ← deref (next toks);
  if negb (bool_decide (t tok = tokId)) then Panic (PanicMsg "expected tokId")
  else
    let name := ToLower (v tok) in
    let toks := consume toks in
    if at_end toks then Ok (toks, mkInstr name None None)
    else
      '(toks, d) ← parseExpr toks;
      if at_end toks then Ok (toks, mkInstr name (Some d) None)
      else
        tok ← deref (next toks);
        if negb (bool_decide (t tok = tokComma))
        then Panic (PanicMsg "expected comma separator")
        else
          '(toks, s) ← parseExpr (consume toks);
          Ok (toks, mkInstr name (Some d) (Some s)).

Definition parseStmt (toks : tokens) : result (tokens * stmt) :=
  tok ← deref (next toks);
  if negb (bool_decide (t tok = tokId)) then Panic (PanicMsg "expected tokId")
  else
    pk ← deref (peek toks);
    if bool_decide (t pk = tokColon)
    then Ok (consume (consume toks), StmtLabel (v tok))
    else '(toks, i) ← parseStmtInstr toks; Ok (toks, StmtInstr i).

(** The loop of [parse], at most [fuel] turns of it: [None] when the loop
    has not ended by then. *)
Fixpoint parse_loop (fuel : nat) (toks : tokens) (stmts : list stmt)
  : option (result (list stmt)) :=
  match next toks with
  | None => Some (Ok stmts)
  | Some tok =>
      match fuel with
      | O => None
      | S fuel =>
          if bool_decide (t tok = tokEOL)
          then parse_loop fuel (consume toks) stmts
          else match parseStmt toks with
               | Panic e => Some (Panic e)
               | Ok (toks, s) => parse_loop fuel toks (stmts ++ [s])
               end
      end
  end.

(** [parse]: a turn of the loop for every token is enough
    ([parse_ends] below). *)
Definition parse (toks : tokens) : option (result (list stmt)) :=
  parse_loop (length toks) toks [].

(** [main], from the tokens to the text: [parse], then [generate]. *)
Definition assemble (toks : tokens) : option (result string) :=
  match parse toks with
  | None => None
  | Some r => Some (r ≫= generate)
  end.

End Library.

End Parser.

(** ** Vocabulary of the properties of the parser *)

Module ParserSpec.
Import BS Parser.

Definition on_line (tok : token) : Prop := t tok <> tokEOL.

(** [used] is what a parser has consumed of [toks], [rest] what it has
    left: it has consumed something, and no end of line. *)
Definition consumed (toks used rest : tokens) : Prop :=
  toks = used ++ rest /\ used <> [] /\ Forall on_line used.

(** The result of parsing with the statements [acc] put before it. *)
Definition onto (acc : list stmt) (r : option (result (list stmt)))
  : option (result (list stmt)) :=
  match r with
  | Some (Ok stmts) => Some (Ok (acc ++ stmts))
  | other => other
  end.

Section Printing.

Variable Atoi : string -> Z + string.
Variable ToLower : string -> string.

(** How integers are written. *)
Variable show : Z -> string.

(** The tokens of an expression. *)
Fixpoint expr_tokens (e : expr) : tokens :=
  match e with
  | exprId id => [mkToken tokId id]
  | exprInt n => [mkToken tokInt (show n)]
  | exprAddr e =>
      mkToken tokLBracket "[" :: expr_tokens e ++ [mkToken tokRBracket "]"]
  end.

(** The tokens of a statement: a label with its colon, an instruction
    with its operands and the end of its line. *)
Definition stmt_tokens (s : stmt) : tokens :=
  match s with
  | StmtLabel l => [mkToken tokId l; mkToken tokColon ":"]
  | StmtInstr i =>
      mkToken tokId (name i)
      :: match dst i, src i with
         | Some d, Some s =>
             expr_tokens d ++ mkToken tokComma "," :: expr_tokens s
         | Some d, None => expr_tokens d
         | None, _ => []
         end
      ++ [mkToken tokEOL (String "010" "")]
  end.

(** Expressions whose integers are read back as they were written. *)
Fixpoint readable (e : expr) : Prop :=
  match e with
  | exprId _ => True
  | exprInt n => Atoi (show n) = inl n
  | exprAddr e => readable e
  end.

Definition readable_operand (x : option expr) : Prop :=
  match x with
  | Some e => readable e
  | None => True
  end.

(** Statements the parser can give: names in lower case, no second
    operand without a first, readable integers. *)
Definition writable (s : stmt) : Prop :=
  match s with
  | StmtLabel _ => True
  | StmtInstr i =>
      ToLower (name i) = name i
      /\ (dst i = None -> src i = None)
      /\ readable_operand (dst i) /\ readable_operand (src i)
  end.

End Printing.

(** Library functions to run the parser with: decimal numerals of digits
    only, as the scanner gives them, and lower case for ASCII letters. *)
Definition digit (c : ascii) : option Z :=
  let n := chr c in
  if (48 <=? n) && (n <=? 57) then Some (n - 48) else None.

Fixpoint decimal_value (acc : Z) (s : string) : option Z :=
  match s with
  | EmptyString => Some acc
  | String c s' =>
      match digit c with
      | Some d => decimal_value (10 * acc + d) s'
      | None => None
      end
  end.

Definition decimal (s : string) : Z + string :=
  match s with
  | EmptyString => inr "invalid syntax"%string
  | _ => match decimal_value 0 s with
         | Some n => inl n
         | None => inr "invalid syntax"%string
         end
  end.

Definition lower_char (c : ascii) : ascii :=
  let n := chr c in
  if (65 <=? n) && (n <=? 90) then ascii_of_N (Z.to_N (n + 32)) else c.

Fixpoint lower (s : string) : string :=
  match s with
  | EmptyString => EmptyString
  | String c s' => String (lower_char c) (lower s')
  end.

(** One decimal digit. *)
Definition show_digit (n : Z) : string :=
  String (ascii_of_N (Z.to_N (48 + n))) EmptyString.

End ParserSpec.

(** ** Properties of the virtual machine *)

Lemma bind_Ok_inv {A B} (m : result A) (f : A -> result B) (b : B) :
  m ≫= f = Ok b -> exists a, m = Ok a /\ f a = Ok b.
Proof. destruct m as [a|e]; simpl; [eauto|discriminate]. Qed.

Module VMProofs.
Import VM VMSpec.

(** *** Indexing *)

Lemma index_Some (m : list Z) (i b : Z) :
  index m i = Some b <-> 0 <= i /\ m !! Z.to_nat i = Some b.
Proof.
  unfold index. destruct (Z.leb_spec 0 i).
  - tauto.
  - split; [discriminate | lia].
Qed.

Lemma index_in_range (m : list Z) (i : Z) :
  0 <= i < Z.of_nat (length m) -> exists b, index m i = Some b.
Proof.
  intros H. destruct (lookup_lt_is_Some_2 m (Z.to_nat i)) as [b Hb]; [lia|].
  exists b. apply index_Some. split; [lia|done].
Qed.

Lemma index_None (m : list Z) (i : Z) :
  index m i = None <-> ~ (0 <= i < Z.of_nat (length m)).
Proof.
  unfold index. destruct (Z.leb_spec 0 i).
  - rewrite lookup_ge_None. lia.
  - split; [lia|done].
Qed.

Lemma index_insert_eq (m : list Z) (i v : Z) :
  0 <= i < Z.of_nat (length m) ->
  index (<[Z.to_nat i := v]> m) i = Some v.
Proof.
  intros H. apply index_Some. split; [lia|].
  apply list_lookup_insert_eq. lia.
Qed.

Lemma index_insert_ne (m : list Z) (i j v : Z) :
  0 <= i -> i <> j -> index (<[Z.to_nat i := v]> m) j = index m j.
Proof.
  intros Hi Hne. unfold index. destruct (Z.leb_spec 0 j); [|done].
  apply list_lookup_insert_ne. lia.
Qed.

Lemma Byte_Ok (p : Program) (i b : Z) :
  Byte p i = Ok b <-> index (memory p) i = Some b.
Proof.
  unfold Byte. destruct (index (memory p) i); split; congruence.
Qed.

(** *** C10 *)

(** C10. [Op.Word(i)] and [Op.QWord(i)] do not look at their index [i]:
    for every [Op] and every [i] they give what they give at [i = 0], and
    on the eight argument bytes [a0 .. a7] of an [Op] that value is the
    big-endian number made of argument bytes 1 and 0 (that is [a6], [a7]),
    respectively of argument bytes 3, 2, 1 and 0 ([a4 .. a7]). *)
Theorem Word_QWord_ignore_index :
  (forall (op : Op) (i : Z),
     Op_Word op i = Op_Word op 0 /\ Op_QWord op i = Op_QWord op 0) /\
  (forall (c a0 a1 a2 a3 a4 a5 a6 a7 i : Z),
     let op := mkOp c [a0; a1; a2; a3; a4; a5; a6; a7] in
     Op_Byte op 0 = Ok a7 /\ Op_Byte op 1 = Ok a6 /\
     Op_Byte op 2 = Ok a5 /\ Op_Byte op 3 = Ok a4 /\
     Op_Word op i =
       Ok (Z.lor (Z.shiftl (a6 mod 2^16) 8 mod 2^16) (a7 mod 2^16)) /\
     Op_QWord op i =
       Ok (Z.lor (Z.lor (Z.lor (Z.shiftl (a4 mod 2^32) 24 mod 2^32)
                               (Z.shiftl (a5 mod 2^32) 16 mod 2^32))
                        (Z.shiftl (a6 mod 2^32) 8 mod 2^32))
                 (a7 mod 2^32))).
Proof.
  split.
  - intros op i. split; reflexivity.
  - intros. repeat split; reflexivity.
Qed.

(** *** C6 *)

Lemma bracket_depth_count (code : list Z) (depth : Z) :
  bracket_depth code depth =
  depth + Z.of_nat (occurrences (chr "[") code)
        - Z.of_nat (occurrences (chr "]") code).
Proof.
  revert depth. induction code as [|c code IH]; intros depth; simpl.
  - unfold occurrences. simpl. lia.
  - rewrite IH. unfold occurrences. rewrite !filter_cons.
    destruct (Z.eqb_spec c (chr "[")) as [->|Hopen].
    + rewrite decide_True by done.
      rewrite (decide_False (P := chr "[" = chr "]")) by (compute; congruence).
      simpl. lia.
    + rewrite (decide_False (P := c = chr "[")) by done.
      destruct (Z.eqb_spec c (chr "]")) as [->|Hclose].
      * rewrite decide_True by done. simpl. lia.
      * rewrite decide_False by done. lia.
Qed.

Lemma ValidateBrainfuck_spec (code : list Z) :
  ValidateBrainfuck code =
  if decide (occurrences (chr "[") code = occurrences (chr "]") code)
  then None else Some ErrCodeBracketImbalance.
Proof.
  unfold ValidateBrainfuck. rewrite bracket_depth_count.
  case_decide as H.
  - rewrite H. replace (_ =? 0) with true; [done|]. symmetry. apply Z.eqb_eq. lia.
  - replace (_ =? 0) with false; [done|]. symmetry. apply Z.eqb_neq. lia.
Qed.

(** C6. [NewProgram] returns [ErrCodeBracketImbalance] exactly when the
    raw input holds different numbers of loop-open and loop-close bytes;
    with equal numbers it returns a program, whatever the nesting: the
    input ["]["] is accepted. *)
Theorem NewProgram_checks_bracket_counts :
  (forall code : list Z,
     NewProgram code = inl ErrCodeBracketImbalance <->
     occurrences (chr "[") code <> occurrences (chr "]") code) /\
  (forall code : list Z,
     occurrences (chr "[") code = occurrences (chr "]") code <->
     exists p, NewProgram code = inr p) /\
  (exists p, NewProgram (bytes_of_string "][") = inr p).
Proof.
  assert (Hacc : forall code : list Z,
     occurrences (chr "[") code = occurrences (chr "]") code <->
     exists p, NewProgram code = inr p); [|split; [|split]]; [| |exact Hacc|].
  - intros code. unfold NewProgram. rewrite ValidateBrainfuck_spec.
    case_decide; split; intros; try done; eauto.
    destruct H0 as [p Hp]. discriminate.
  - intros code. unfold NewProgram. rewrite ValidateBrainfuck_spec.
    case_decide; split; intros; try congruence; try done.
  - apply Hacc. vm_compute. reflexivity.
Qed.

(** *** C2 *)

Lemma Right_memPtr (p : Program) :
  in_memory p -> memPtr (Right p) = (memPtr p + 1) mod memLen p.
Proof.
  unfold in_memory, Right, memLen. intros H. simpl.
  destruct (Z.leb_spec (Z.of_nat (length (memory p))) (memPtr p + 1)); simpl.
  - apply Z.mod_unique_pos with (q := 1); lia.
  - symmetry. apply Z.mod_small. lia.
Qed.

Lemma Left_memPtr (p : Program) :
  in_memory p -> memPtr (Left p) = (memPtr p - 1) mod memLen p.
Proof.
  unfold in_memory, Left, memLen. intros H. simpl.
  destruct (Z.ltb_spec (memPtr p - 1) 0); simpl.
  - apply Z.mod_unique_pos with (q := -1); lia.
  - symmetry. apply Z.mod_small. lia.
Qed.

Lemma do_move_memory (p : Program) (m : move) :
  memory (do_move p m) = memory p.
Proof.
  destruct m; unfold do_move, Right, Left; simpl;
    repeat match goal with |- context [if ?c then _ else _] => destruct c end;
    reflexivity.
Qed.

Lemma do_move_memPtr (p : Program) (m : move) :
  in_memory p ->
  memPtr (do_move p m) =
  (memPtr p + displacement [m]) mod memLen p.
Proof.
  intros H. destruct m; simpl.
  - rewrite Right_memPtr by done. f_equal.
  - rewrite Left_memPtr by done. f_equal.
Qed.

Lemma do_move_in_memory (p : Program) (m : move) :
  in_memory p -> in_memory (do_move p m).
Proof.
  intros H. unfold in_memory.
  rewrite do_move_memPtr by done.
  replace (memLen (do_move p m)) with (memLen p)
    by (unfold memLen; by rewrite do_move_memory).
  apply Z.mod_pos_bound. unfold in_memory in H. lia.
Qed.

Lemma do_moves_spec (ms : list move) (p : Program) :
  in_memory p ->
  in_memory (do_moves p ms) /\
  memory (do_moves p ms) = memory p /\
  memPtr (do_moves p ms) = (memPtr p + displacement ms) mod memLen p.
Proof.
  revert p. induction ms as [|m ms IH]; intros p H.
  - simpl. repeat split; try apply H.
    rewrite Z.add_0_r. symmetry. apply Z.mod_small. apply H.
  - unfold do_moves. simpl foldl. fold (do_moves (do_move p m) ms).
    destruct (IH (do_move p m) (do_move_in_memory p m H)) as (Hin & Hmem & Hptr).
    split; [done|]. split; [by rewrite Hmem, do_move_memory|].
    rewrite Hptr, do_move_memPtr by done.
    unfold memLen. rewrite do_move_memory.
    rewrite Zplus_mod_idemp_l. f_equal.
    destruct m; simpl; lia.
Qed.

Lemma iter_Right_do_moves (k : nat) (p : Program) :
  Nat.iter k Right p = do_moves p (replicate k MRight).
Proof.
  revert p. induction k as [|k IH]; intros p; [done|].
  rewrite Nat.iter_succ_r, IH. reflexivity.
Qed.

Lemma iter_Left_do_moves (k : nat) (p : Program) :
  Nat.iter k Left p = do_moves p (replicate k MLeft).
Proof.
  revert p. induction k as [|k IH]; intros p; [done|].
  rewrite Nat.iter_succ_r, IH. reflexivity.
Qed.

Lemma displacement_right (k : nat) :
  displacement (replicate k MRight) = Z.of_nat k.
Proof. induction k as [|k IH]; simpl; [done|]. rewrite IH. lia. Qed.

Lemma displacement_left (k : nat) :
  displacement (replicate k MLeft) = - Z.of_nat k.
Proof. induction k as [|k IH]; simpl; [done|]. rewrite IH. lia. Qed.

Lemma exec_right (p : Program) (ch : list Op) :
  exec (chr ">") p ch =
  k ← run_length (chr ">") (ahead p);
  Ok (set_pc (Nat.iter k Right p) (pc p + Z.of_nat k - 1), ch).
Proof. reflexivity. Qed.

Lemma exec_left (p : Program) (ch : list Op) :
  exec (chr "<") p ch =
  k ← run_length (chr "<") (ahead p);
  Ok (set_pc (Nat.iter k Left p) (pc p + Z.of_nat k - 1), ch).
Proof. reflexivity. Qed.

Lemma run_length_replicate (c b : Z) (k : nat) (rest : list Z) :
  b <> c -> run_length c (replicate k c ++ b :: rest) = Ok k.
Proof.
  intros Hne. induction k as [|k IH]; simpl.
  - destruct (Z.eqb_spec b c); [done|reflexivity].
  - rewrite Z.eqb_refl, IH. reflexivity.
Qed.

(** C2, as the code has it.  [Right] and [Left] wrap the tape pointer
    modulo the length of the whole memory, code section included: after
    any sequence of them a pointer that was inside the memory is inside
    the memory, at its old place plus the steps right minus the steps
    left, modulo [len(p.memory)]; the memory itself is not touched.  So
    a fused run of [k] step-right bytes moves the pointer to
    [(memPtr + k) mod len(p.memory)] and a fused run of [k] step-left
    bytes to [(memPtr - k) mod len(p.memory)]. *)
Theorem tape_pointer_wraps_over_memory :
  (forall (p : Program) (ms : list move),
     in_memory p ->
     in_memory (do_moves p ms) /\
     memory (do_moves p ms) = memory p /\
     memPtr (do_moves p ms) = (memPtr p + displacement ms) mod memLen p) /\
  (forall (p : Program) (ch : list Op) (k : nat) (b : Z) (rest : list Z),
     in_memory p ->
     ahead p = replicate k (chr ">") ++ b :: rest -> b <> chr ">" ->
     exists p',
       exec (chr ">") p ch = Ok (p', ch) /\ in_memory p' /\
       memory p' = memory p /\
       memPtr p' = (memPtr p + Z.of_nat k) mod memLen p) /\
  (forall (p : Program) (ch : list Op) (k : nat) (b : Z) (rest : list Z),
     in_memory p ->
     ahead p = replicate k (chr "<") ++ b :: rest -> b <> chr "<" ->
     exists p',
       exec (chr "<") p ch = Ok (p', ch) /\ in_memory p' /\
       memory p' = memory p /\
       memPtr p' = (memPtr p - Z.of_nat k) mod memLen p).
Proof.
  split; [|split].
  - intros p ms. apply do_moves_spec.
  - intros p ch k b rest Hin Hrun Hb.
    rewrite exec_right, Hrun, run_length_replicate by done.
    cbn [mbind result_bind]. eexists. split; [reflexivity|].
    rewrite iter_Right_do_moves.
    destruct (do_moves_spec (replicate k MRight) p Hin) as (Hi & Hm & Hp).
    rewrite displacement_right in Hp. done.
  - intros p ch k b rest Hin Hrun Hb.
    rewrite exec_left, Hrun, run_length_replicate by done.
    cbn [mbind result_bind]. eexists. split; [reflexivity|].
    rewrite iter_Left_do_moves.
    destruct (do_moves_spec (replicate k MLeft) p Hin) as (Hi & Hm & Hp).
    rewrite displacement_left in Hp. done.
Qed.

Lemma tape_pointer_wraps_over_memory_witness :
  let p := mkProgram [60; 0; 0; 0] 2 0 0 0 0 0 0 0 0 2 in
  let ms := [MLeft; MLeft; MLeft; MRight] in
  in_memory (do_moves p ms) /\
  memory (do_moves p ms) = memory p /\
  memPtr (do_moves p ms) = (memPtr p + displacement ms) mod memLen p.
Proof.
  apply (proj1 tape_pointer_wraps_over_memory
           (mkProgram [60; 0; 0; 0] 2 0 0 0 0 0 0 0 0 2)
           [MLeft; MLeft; MLeft; MRight]).
  unfold in_memory, memLen. simpl. lia.
Defined.

(** C2 as stated fails: one step left on the program ["<"] takes the tape
    pointer from the first data cell, 11, to cell 10 of the code section. *)
Lemma step_left_leaves_data_section :
  ~ stays_in_data (load_and_run 1 "<").
Proof.
  assert (H : final_pointer (load_and_run 1 "<") = Some (11, 10))
    by (vm_compute; reflexivity).
  destruct (load_and_run 1 "<") as [p ch| | |]; try discriminate.
  simpl in *. injection H as Hd Hm. unfold in_data. lia.
Qed.

(** *** C1 *)

Lemma exec_plus (p : Program) (ch : list Op) :
  exec (chr "+") p ch =
  amt ← run_length (chr "+") (ahead p);
  let p := set_pc p (pc p + Z.of_nat amt - 1) in
  n ← Byte p (memPtr p);
  p ← SetByte p (memPtr p) (AddRolling n (Z.of_nat amt) 255 mod 256);
  Ok (p, ch).
Proof. reflexivity. Qed.

Lemma exec_minus (p : Program) (ch : list Op) :
  exec (chr "-") p ch =
  amt ← run_length (chr "-") (ahead p);
  let p := set_pc p (pc p + Z.of_nat amt - 1) in
  n ← Byte p (memPtr p);
  p ← SetByte p (memPtr p) (SubRolling n (Z.of_nat amt) 255 mod 256);
  Ok (p, ch).
Proof. reflexivity. Qed.

Lemma Byte_in_range (p : Program) (i b : Z) :
  Byte p i = Ok b -> 0 <= i < memLen p.
Proof.
  rewrite Byte_Ok. intros H. unfold memLen.
  destruct (decide (0 <= i < Z.of_nat (length (memory p)))) as [|Hn]; [done|].
  apply index_None in Hn. congruence.
Qed.

Lemma SetByte_Ok (p : Program) (i v : Z) :
  0 <= i < memLen p ->
  SetByte p i v = Ok (set_memory p (<[Z.to_nat i := v]> (memory p))).
Proof.
  intros H. unfold SetByte.
  destruct (Z.leb_spec 0 i); [|lia]. destruct (Z.ltb_spec i (memLen p)); [|lia].
  reflexivity.
Qed.

(** The cell update of a fused run: the new value is stored at the tape
    pointer, every other byte of the memory is as before. *)
Lemma set_cell (p : Program) (k : Z) (old v : Z) (ch : list Op) :
  Byte p (memPtr p) = Ok old ->
  exists p',
    (q ← SetByte (set_pc p k) (memPtr p) v; Ok (q, ch)) = Ok (p', ch) /\
    Byte p' (memPtr p') = Ok v /\ memPtr p' = memPtr p /\ pc p' = k /\
    memory p' = <[Z.to_nat (memPtr p) := v]> (memory p).
Proof.
  intros Hold. pose proof (Byte_in_range _ _ _ Hold) as Hr.
  rewrite SetByte_Ok by done. simpl.
  eexists. split; [reflexivity|]. simpl. repeat split.
  apply Byte_Ok. simpl. apply index_insert_eq. apply Hr.
Qed.

Lemma AddRolling_byte (old k : Z) :
  is_byte old -> 0 <= k ->
  AddRolling old k 255 mod 256 = (old + k) mod 255.
Proof.
  unfold is_byte, AddRolling. intros Ho Hk.
  rewrite Z.rem_mod_nonneg by lia.
  apply Z.mod_small.
  pose proof (Z.mod_pos_bound (old + k) 255). lia.
Qed.

(** C1. A fused run of [k] increment bytes leaves [(old + k) mod 255] in
    the current cell, a fused run of [k] decrement bytes the byte
    truncation of the remainder of [old - k] by 255 (the remainder has the
    sign of [old - k]); the tape pointer stays and the program counter is
    on the last byte of the run.  Run to its end, [">>>>+<-"] leaves
    [0, 0, 0, 255, 1] in the first five data cells and ["+++++"] leaves 5
    in the first. *)
Theorem fused_runs_roll_at_255 :
  (forall (p : Program) (ch : list Op) (k : nat) (b : Z) (rest : list Z)
          (old : Z),
     ahead p = replicate k (chr "+") ++ b :: rest -> b <> chr "+" ->
     Byte p (memPtr p) = Ok old -> is_byte old ->
     exists p',
       exec (chr "+") p ch = Ok (p', ch) /\
       Byte p' (memPtr p') = Ok ((old + Z.of_nat k) mod 255) /\
       memPtr p' = memPtr p /\ pc p' = pc p + Z.of_nat k - 1) /\
  (forall (p : Program) (ch : list Op) (k : nat) (b : Z) (rest : list Z)
          (old : Z),
     ahead p = replicate k (chr "-") ++ b :: rest -> b <> chr "-" ->
     Byte p (memPtr p) = Ok old -> is_byte old ->
     exists p',
       exec (chr "-") p ch = Ok (p', ch) /\
       Byte p' (memPtr p') = Ok (Z.rem (old - Z.of_nat k) 255 mod 256) /\
       memPtr p' = memPtr p /\ pc p' = pc p + Z.of_nat k - 1) /\
  cells 5 (load_and_run 7 ">>>>+<-") = Some [0; 0; 0; 255; 1] /\
  cells 1 (load_and_run 1 "+++++") = Some [5].
Proof.
  split; [|split; [|split]].
  - intros p ch k b rest old Hrun Hb Hold Hbyte.
    rewrite exec_plus, Hrun, run_length_replicate by done.
    simpl mbind at 1. cbv zeta.
    change (Byte (set_pc p _) _) with (Byte p (memPtr p)).
    rewrite Hold. simpl mbind at 1.
    rewrite AddRolling_byte by (done || lia).
    destruct (set_cell p (pc p + Z.of_nat k - 1) old
                ((old + Z.of_nat k) mod 255) ch Hold)
      as (p' & Hex & Hcell & Hptr & Hpc & _).
    exists p'. done.
  - intros p ch k b rest old Hrun Hb Hold Hbyte.
    rewrite exec_minus, Hrun, run_length_replicate by done.
    simpl mbind at 1. cbv zeta.
    change (Byte (set_pc p _) _) with (Byte p (memPtr p)).
    rewrite Hold. simpl mbind at 1.
    destruct (set_cell p (pc p + Z.of_nat k - 1) old
                (SubRolling old (Z.of_nat k) 255 mod 256) ch Hold)
      as (p' & Hex & Hcell & Hptr & Hpc & _).
    exists p'. done.
  - vm_compute. reflexivity.
  - vm_compute. reflexivity.
Qed.

Lemma fused_runs_roll_at_255_witness :
  let p := mkProgram [43; 43; 43; 0; 254] 4 0 0 0 0 0 0 0 0 4 in
  exists p',
    exec (chr "+") p [] = Ok (p', []) /\
    Byte p' (memPtr p') = Ok ((254 + Z.of_nat 3) mod 255) /\
    memPtr p' = memPtr p /\ pc p' = pc p + Z.of_nat 3 - 1.
Proof.
  apply (proj1 fused_runs_roll_at_255
           (mkProgram [43; 43; 43; 0; 254] 4 0 0 0 0 0 0 0 0 4)
           [] 3%nat 0 [254] 254).
  - reflexivity.
  - discriminate.
  - reflexivity.
  - unfold is_byte. lia.
Defined.

(** *** The [Op] of an invoke instruction *)

(** Element [j] of the argument array: the bytes from [argsStart] up to
    the tape pointer, then zeroes. *)
Lemma invoke_op_args (p : Program) (op : Op) (j : Z) :
  invoke_op p = Ok op -> 0 <= j < 8 ->
  let argsStart := if memPtr p - 8 <? 0 then 0 else memPtr p - 8 in
  Byte p (memPtr p) = Ok (code op) /\
  length (args op) = 8%nat /\
  index (args op) j =
    if j <? memPtr p - argsStart then index (memory p) (argsStart + j)
    else Some 0.
Proof.
  unfold invoke_op. intros H Hj.
  destruct (Byte p (memPtr p)) as [c|] eqn:Hc; [|discriminate].
  pose proof (Byte_in_range _ _ _ Hc) as Hr. unfold memLen in Hr.
  cbn [mbind result_bind] in H. injection H as <-. cbv zeta. cbn [code args].
  set (a := if memPtr p - 8 <? 0 then 0 else memPtr p - 8).
  assert (Ha : 0 <= a <= memPtr p /\ memPtr p - a <= 8)
    by (unfold a; destruct (Z.ltb_spec (memPtr p - 8) 0); lia).
  assert (Hlen : length (take (Z.to_nat (memPtr p - a))
                              (drop (Z.to_nat a) (memory p)))
                 = Z.to_nat (memPtr p - a)).
  { rewrite length_take, length_drop. lia. }
  split; [done|]. split.
  { rewrite length_take, length_app. simpl length. lia. }
  unfold index at 1. destruct (Z.leb_spec 0 j); [|lia].
  rewrite lookup_take_lt by lia.
  destruct (Z.ltb_spec j (memPtr p - a)).
  - rewrite lookup_app_l by lia.
    rewrite lookup_take_lt by lia. rewrite lookup_drop.
    unfold index. destruct (Z.leb_spec 0 (a + j)); [|lia].
    f_equal. lia.
  - rewrite lookup_app_r by lia. rewrite Hlen.
    change [0; 0; 0; 0; 0; 0; 0; 0] with (replicate 8 0).
    apply lookup_replicate_2. lia.
Qed.

(** With eight cells or more before the tape pointer, argument byte [i] is
    the byte [i + 1] places before the pointer. *)
Lemma invoke_op_Byte (p : Program) (op : Op) (i : Z) :
  invoke_op p = Ok op -> 8 <= memPtr p -> 0 <= i < 8 ->
  Op_Byte op i = Byte p (memPtr p - 1 - i).
Proof.
  intros H Hp Hi.
  destruct (invoke_op_args p op (8 - i - 1) H) as (_ & _ & Hx); [lia|].
  unfold Op_Byte, Byte. rewrite Hx.
  destruct (Z.ltb_spec (memPtr p - 8) 0); [lia|].
  destruct (Z.ltb_spec (8 - i - 1) (memPtr p - (memPtr p - 8))); [|lia].
  replace (memPtr p - 8 + (8 - i - 1)) with (memPtr p - 1 - i) by lia.
  reflexivity.
Qed.

(** With fewer than eight cells before the tape pointer the bytes are
    copied to the front of the array: argument byte [i] is zero for
    [i < 8 - memPtr], and the byte [i + 1] places before the pointer is
    argument byte [i + 8 - memPtr]. *)
Lemma invoke_op_Byte_near_start (p : Program) (op : Op) (i : Z) :
  invoke_op p = Ok op -> memPtr p < 8 -> 0 <= i < 8 ->
  Op_Byte op i =
  if i <? 8 - memPtr p then Ok 0 else Byte p (8 - i - 1).
Proof.
  intros H Hp Hi.
  destruct (invoke_op_args p op (8 - i - 1) H) as (_ & _ & Hx); [lia|].
  unfold Op_Byte, Byte. rewrite Hx.
  destruct (Z.ltb_spec (memPtr p - 8) 0); [|lia].
  rewrite Z.sub_0_r, Z.add_0_l.
  destruct (Z.ltb_spec (8 - i - 1) (memPtr p));
    destruct (Z.ltb_spec i (8 - memPtr p)); try lia; reflexivity.
Qed.

(** *** C3 *)

Lemma internal_false (c : Opcode) :
  internal c = false ->
  c <> 0 /\ c <> 1 /\ c <> 2 /\ ~ (20 <= c <= 31).
Proof.
  unfold internal. intros H.
  apply orb_false_elim in H as [H H3].
  apply orb_false_elim in H as [H H2].
  apply orb_false_elim in H as [H0 H1].
  apply Z.eqb_neq in H0, H1, H2.
  repeat split; try done.
  intros [Hlo Hhi]. apply Z.leb_le in Hlo, Hhi. rewrite Hlo, Hhi in H3.
  discriminate.
Qed.

Ltac case_opcode tac :=
  match goal with
  | |- context [code ?op =? ?k] =>
      destruct (Z.eqb_spec (code op) k); [tac|]
  end.

Lemma Program_Op_forwards (p : Program) (op : Op) (ch : list Op) :
  internal (code op) = false -> Program_Op p op ch = Ok (p, ch ++ [op]).
Proof.
  intros H. apply internal_false in H as (H0 & H1 & H2 & H3).
  unfold Program_Op, OpNop, OpRelJmpFwd, OpRelJmpBwd, OpR8AStore, OpR8BStore,
    OpR16AStore, OpR16BStore, OpR32AStore, OpR32BStore, OpR8ALoad, OpR8BLoad,
    OpR16ALoad, OpR16BLoad, OpR32ALoad, OpR32BLoad.
  repeat case_opcode lia.
  reflexivity.
Qed.

Lemma Program_Op_internal_silent (p p' : Program) (op : Op) (ch ch' : list Op) :
  internal (code op) = true ->
  Program_Op p op ch = Ok (p', ch') -> ch' = ch.
Proof.
  intros Hint. unfold Program_Op.
  repeat case_opcode
    ltac:(intros H; repeat (apply bind_Ok_inv in H as (? & _ & H));
          congruence).
  unfold internal in Hint.
  unfold OpNop, OpRelJmpFwd, OpRelJmpBwd, OpR8AStore, OpR8BStore,
    OpR16AStore, OpR16BStore, OpR32AStore, OpR32BStore, OpR8ALoad, OpR8BLoad,
    OpR16ALoad, OpR16BLoad, OpR32ALoad, OpR32BLoad in *.
  exfalso. revert Hint.
  repeat case_opcode lia. simpl.
  destruct (Z.leb_spec 20 (code op)), (Z.leb_spec (code op) 31);
    simpl; try discriminate. lia.
Qed.

Lemma exec_invoke (p : Program) (ch : list Op) :
  exec (chr ".") p ch = op ← invoke_op p; Program_Op p op ch.
Proof. reflexivity. Qed.

(** C3. An [Op] whose opcode is outside the internal table (0, 1, 2 and
    20 to 31) is dispatched without a panic: the machine is unchanged and
    exactly that [Op] is added to what was sent on the channel.  An
    invoke instruction on a cell holding 41, with eight cells or more
    before the tape pointer, sends one [Op] with code 41 whose argument
    byte [i] is the byte [i + 1] places before the pointer.  An [Op]
    with an internal opcode sends nothing. *)
Theorem unknown_opcodes_are_forwarded :
  (forall (p : Program) (op : Op) (ch : list Op),
     internal (code op) = false ->
     Program_Op p op ch = Ok (p, ch ++ [op])) /\
  (forall (p : Program) (ch : list Op),
     Byte p (memPtr p) = Ok OpSetColor -> 8 <= memPtr p ->
     exists op,
       exec (chr ".") p ch = Ok (p, ch ++ [op]) /\ code op = 41 /\
       forall i, 0 <= i < 8 -> Op_Byte op i = Byte p (memPtr p - 1 - i)) /\
  (forall (p p' : Program) (op : Op) (ch ch' : list Op),
     internal (code op) = true ->
     Program_Op p op ch = Ok (p', ch') -> ch' = ch).
Proof.
  split; [|split].
  - apply Program_Op_forwards.
  - intros p ch Hc Hp. rewrite exec_invoke.
    destruct (invoke_op p) as [op|] eqn:Hop.
    + destruct (invoke_op_args p op 0 Hop) as (Hcode & _); [lia|].
      assert (code op = 41) as H41 by (rewrite Hc in Hcode; by injection Hcode).
      exists op. split; [|split; [done|]].
      * simpl. apply Program_Op_forwards. rewrite H41. reflexivity.
      * intros i Hi. by apply invoke_op_Byte.
    + unfold invoke_op in Hop. rewrite Hc in Hop. discriminate.
  - apply Program_Op_internal_silent.
Qed.

Lemma unknown_opcodes_are_forwarded_witness :
  let p := mkProgram [46; 0; 1; 2; 3; 4; 5; 6; 7; 8; 41; 0] 2 0 0
                     0 0 0 0 0 0 10 in
  exists op,
    exec (chr ".") p [] = Ok (p, [] ++ [op]) /\ code op = 41 /\
    forall i, 0 <= i < 8 -> Op_Byte op i = Byte p (memPtr p - 1 - i).
Proof.
  apply (proj1 (proj2 unknown_opcodes_are_forwarded)
           (mkProgram [46; 0; 1; 2; 3; 4; 5; 6; 7; 8; 41; 0] 2 0 0
                      0 0 0 0 0 0 10) []).
  - reflexivity.
  - simpl. lia.
Defined.

(** *** C7 *)

(** C7 at its failing input.  The program ["<<<<<<<<<<<[<]>>>>."] walks
    the tape pointer left through the code section, around the end of the
    memory and on to cell 3.  After 41 turns the invoke instruction is
    next, the byte before the tape pointer is 60, and the [Op] it builds
    has the three bytes before the pointer at the front of its array:
    argument byte 0 is the blank 0, not 60.  The [Op] is what the run
    sends. *)
Theorem invoke_near_start_leaves_blank_at_index_0 :
  invoke_after 41 "<<<<<<<<<<<[<]>>>>." =
    Some (Ok (chr "."), 3, Ok 60,
          Ok (mkOp 60 [60; 60; 60; 0; 0; 0; 0; 0], 0)) /\
  sent (load_and_run 42 "<<<<<<<<<<<[<]>>>>.") =
    Some [mkOp 60 [60; 60; 60; 0; 0; 0; 0; 0]].
Proof. split; vm_compute; reflexivity. Qed.

(** *** C4 *)

Lemma lor_disjoint (h n l : Z) :
  0 <= n -> 0 <= l < 2 ^ n -> Z.lor (h * 2 ^ n) l = h * 2 ^ n + l.
Proof.
  intros Hn Hl.
  assert (Hland : Z.land (h * 2 ^ n) l = 0).
  { apply Z.bits_inj'. intros k Hk. rewrite Z.land_spec, Z.bits_0.
    destruct (Z.lt_ge_cases k n) as [Hlt|Hge].
    - rewrite Z.mul_pow2_bits_low by lia. reflexivity.
    - destruct (Z.eq_dec l 0) as [->|Hl0].
      + rewrite Z.bits_0. apply andb_false_r.
      + rewrite (Z.bits_above_log2 l k); [apply andb_false_r|lia|].
        apply Z.lt_le_trans with n; [|lia].
        apply Z.log2_lt_pow2; lia. }
  rewrite <- (Z.add_lor_land (h * 2 ^ n) l), Hland. lia.
Qed.

Lemma word_value (b1 b0 : Z) :
  is_byte b1 -> is_byte b0 ->
  Z.lor (Z.shiftl (b1 mod 2^16) 8 mod 2^16) (b0 mod 2^16) = b1 * 2^8 + b0.
Proof.
  unfold is_byte. intros H1 H0.
  rewrite (Z.mod_small b1), (Z.mod_small b0) by lia.
  rewrite Z.shiftl_mul_pow2 by lia.
  rewrite Z.mod_small by lia.
  apply lor_disjoint; lia.
Qed.

Lemma qword_value (b3 b2 b1 b0 : Z) :
  is_byte b3 -> is_byte b2 -> is_byte b1 -> is_byte b0 ->
  Z.lor (Z.lor (Z.lor (Z.shiftl (b3 mod 2^32) 24 mod 2^32)
                      (Z.shiftl (b2 mod 2^32) 16 mod 2^32))
               (Z.shiftl (b1 mod 2^32) 8 mod 2^32))
        (b0 mod 2^32)
  = ((b3 * 2^8 + b2) * 2^8 + b1) * 2^8 + b0.
Proof.
  unfold is_byte. intros H3 H2 H1 H0.
  rewrite (Z.mod_small b3), (Z.mod_small b2), (Z.mod_small b1),
    (Z.mod_small b0) by lia.
  rewrite !Z.shiftl_mul_pow2 by lia.
  rewrite !Z.mod_small by lia.
  rewrite (lor_disjoint b3 24) by lia.
  replace (b3 * 2 ^ 24 + b2 * 2 ^ 16) with ((b3 * 2^8 + b2) * 2 ^ 16) by lia.
  rewrite (lor_disjoint _ 16) by lia.
  replace ((b3 * 2^8 + b2) * 2 ^ 16 + b1 * 2 ^ 8)
    with (((b3 * 2^8 + b2) * 2^8 + b1) * 2 ^ 8) by lia.
  apply lor_disjoint; lia.
Qed.

Lemma word_bytes (b1 b0 : Z) :
  is_byte b1 -> is_byte b0 ->
  let v := b1 * 2^8 + b0 in
  Z.shiftr v 8 mod 256 = b1 /\ v mod 256 = b0.
Proof.
  intros H1 H0. cbv zeta. unfold is_byte in *.
  rewrite Z.shiftr_div_pow2 by lia.
  change (2 ^ 8) with 256.
  split; Z.div_mod_to_equations; lia.
Qed.

Lemma qword_bytes (b3 b2 b1 b0 : Z) :
  is_byte b3 -> is_byte b2 -> is_byte b1 -> is_byte b0 ->
  let v := ((b3 * 2^8 + b2) * 2^8 + b1) * 2^8 + b0 in
  Z.shiftr v 24 mod 256 = b3 /\ Z.shiftr v 16 mod 256 = b2 /\
  Z.shiftr v 8 mod 256 = b1 /\ v mod 256 = b0.
Proof.
  intros H3 H2 H1 H0. cbv zeta. unfold is_byte in *.
  rewrite !Z.shiftr_div_pow2 by lia.
  change (2 ^ 8) with 256. change (2 ^ 16) with 65536.
  change (2 ^ 24) with 16777216.
  repeat split; Z.div_mod_to_equations; lia.
Qed.

Lemma index_insert (m : list Z) (i j v : Z) :
  0 <= i < Z.of_nat (length m) ->
  index (<[Z.to_nat i := v]> m) j = if decide (i = j) then Some v else index m j.
Proof.
  intros H. case_decide as Hij.
  - subst j. by apply index_insert_eq.
  - apply index_insert_ne; lia.
Qed.

Lemma memLen_set_memory (p : Program) (i : nat) (v : Z) :
  memLen (set_memory p (<[i := v]> (memory p))) = memLen p.
Proof. unfold memLen. simpl. by rewrite length_insert. Qed.

Lemma Byte_is_byte (p : Program) (i b : Z) :
  Forall is_byte (memory p) -> Byte p i = Ok b -> is_byte b.
Proof.
  intros Hall H. apply Byte_Ok, index_Some in H as [_ H].
  eapply Forall_lookup_1; eauto.
Qed.

Lemma Byte_defined (p : Program) (i : Z) :
  0 <= i < memLen p -> exists b, Byte p i = Ok b.
Proof.
  intros H. destruct (index_in_range (memory p) i H) as [b Hb].
  exists b. by apply Byte_Ok.
Qed.

Lemma SetByte_spec (q : Program) (idx v : Z) :
  0 <= idx < memLen q ->
  exists q',
    SetByte q idx v = Ok q' /\ memPtr q' = memPtr q /\ memLen q' = memLen q /\
    forall j, Byte q' j = if decide (j = idx) then Ok v else Byte q j.
Proof.
  intros H. rewrite SetByte_Ok by done. eexists. split; [reflexivity|].
  split; [reflexivity|]. split; [apply memLen_set_memory|].
  intros j. unfold Byte. simpl memory. rewrite index_insert by apply H.
  repeat case_decide; try lia; reflexivity.
Qed.

Lemma SetWord_spec (q : Program) (idx v : Z) :
  1 <= idx < memLen q ->
  exists q',
    SetWord q idx v = Ok q' /\ memPtr q' = memPtr q /\
    forall j, Byte q' j =
      if decide (j = idx) then Ok (v mod 256)
      else if decide (j = idx - 1) then Ok (Z.shiftr v 8 mod 256)
      else Byte q j.
Proof.
  intros H. unfold SetWord.
  destruct (SetByte_spec q (idx - 1) (Z.shiftr v 8 mod 256))
    as (q1 & -> & Hp1 & Hl1 & Hb1); [lia|].
  cbn [mbind result_bind].
  destruct (SetByte_spec q1 idx (v mod 256))
    as (q2 & -> & Hp2 & Hl2 & Hb2); [lia|].
  exists q2. split; [done|]. split; [congruence|].
  intros j. rewrite Hb2, Hb1. reflexivity.
Qed.

Lemma SetQWord_spec (q : Program) (idx v : Z) :
  3 <= idx < memLen q ->
  exists q',
    SetQWord q idx v = Ok q' /\ memPtr q' = memPtr q /\
    forall j, Byte q' j =
      if decide (j = idx) then Ok (v mod 256)
      else if decide (j = idx - 1) then Ok (Z.shiftr v 8 mod 256)
      else if decide (j = idx - 2) then Ok (Z.shiftr v 16 mod 256)
      else if decide (j = idx - 3) then Ok (Z.shiftr v 24 mod 256)
      else Byte q j.
Proof.
  intros H. unfold SetQWord.
  destruct (SetByte_spec q (idx - 3) (Z.shiftr v 24 mod 256))
    as (q1 & -> & Hp1 & Hl1 & Hb1); [lia|].
  cbn [mbind result_bind].
  destruct (SetByte_spec q1 (idx - 2) (Z.shiftr v 16 mod 256))
    as (q2 & -> & Hp2 & Hl2 & Hb2); [lia|].
  cbn [mbind result_bind].
  destruct (SetByte_spec q2 (idx - 1) (Z.shiftr v 8 mod 256))
    as (q3 & -> & Hp3 & Hl3 & Hb3); [lia|].
  cbn [mbind result_bind].
  destruct (SetByte_spec q3 idx (v mod 256))
    as (q4 & -> & Hp4 & Hl4 & Hb4); [lia|].
  exists q4. split; [done|]. split; [congruence|].
  intros j. rewrite Hb4, Hb3, Hb2, Hb1. reflexivity.
Qed.

(** The bytes an invoke instruction gathers, eight cells or more from the
    start of the memory. *)
Lemma bytes_before (p : Program) (op : Op) (i : Z) :
  invoke_op p = Ok op -> 8 <= memPtr p -> Forall is_byte (memory p) ->
  0 <= i < 8 ->
  exists b, Op_Byte op i = Ok b /\ Byte p (memPtr p - 1 - i) = Ok b /\ is_byte b.
Proof.
  intros Hop Hp Hall Hi.
  destruct (invoke_op_args p op 0 Hop) as (Hc & _); [lia|].
  apply Byte_in_range in Hc.
  destruct (Byte_defined p (memPtr p - 1 - i)) as [b Hb]; [lia|].
  exists b. rewrite (invoke_op_Byte p op i) by done.
  eauto using Byte_is_byte.
Qed.

Lemma Op_Word_invoke (p : Program) (op : Op) :
  invoke_op p = Ok op -> 8 <= memPtr p -> Forall is_byte (memory p) ->
  exists b1 b0,
    Byte p (memPtr p - 2) = Ok b1 /\ Byte p (memPtr p - 1) = Ok b0 /\
    is_byte b1 /\ is_byte b0 /\ Op_Word op 0 = Ok (b1 * 2^8 + b0).
Proof.
  intros Hop Hp Hall.
  destruct (bytes_before p op 0 Hop Hp Hall) as (b0 & Ho0 & Hb0 & ?); [lia|].
  destruct (bytes_before p op 1 Hop Hp Hall) as (b1 & Ho1 & Hb1 & ?); [lia|].
  exists b1, b0. unfold Op_Word. rewrite Ho1, Ho0. cbn [mbind result_bind].
  rewrite word_value by done.
  replace (memPtr p - 2) with (memPtr p - 1 - 1) by lia.
  replace (memPtr p - 1) with (memPtr p - 1 - 0) at 2 by lia. done.
Qed.

Lemma Op_QWord_invoke (p : Program) (op : Op) :
  invoke_op p = Ok op -> 8 <= memPtr p -> Forall is_byte (memory p) ->
  exists b3 b2 b1 b0,
    Byte p (memPtr p - 4) = Ok b3 /\ Byte p (memPtr p - 3) = Ok b2 /\
    Byte p (memPtr p - 2) = Ok b1 /\ Byte p (memPtr p - 1) = Ok b0 /\
    is_byte b3 /\ is_byte b2 /\ is_byte b1 /\ is_byte b0 /\
    Op_QWord op 0 = Ok (((b3 * 2^8 + b2) * 2^8 + b1) * 2^8 + b0).
Proof.
  intros Hop Hp Hall.
  destruct (bytes_before p op 0 Hop Hp Hall) as (b0 & Ho0 & Hb0 & ?); [lia|].
  destruct (bytes_before p op 1 Hop Hp Hall) as (b1 & Ho1 & Hb1 & ?); [lia|].
  destruct (bytes_before p op 2 Hop Hp Hall) as (b2 & Ho2 & Hb2 & ?); [lia|].
  destruct (bytes_before p op 3 Hop Hp Hall) as (b3 & Ho3 & Hb3 & ?); [lia|].
  exists b3, b2, b1, b0. unfold Op_QWord. rewrite Ho3, Ho2, Ho1, Ho0.
  cbn [mbind result_bind]. rewrite qword_value by done.
  replace (memPtr p - 4) with (memPtr p - 1 - 3) by lia.
  replace (memPtr p - 3) with (memPtr p - 1 - 2) by lia.
  replace (memPtr p - 2) with (memPtr p - 1 - 1) by lia.
  replace (memPtr p - 1) with (memPtr p - 1 - 0) at 4 by lia. done.
Qed.

Ltac unfold_opcodes :=
  unfold OpNop, OpRelJmpFwd, OpRelJmpBwd, OpR8AStore, OpR8BStore,
    OpR16AStore, OpR16BStore, OpR32AStore, OpR32BStore, OpR8ALoad, OpR8BLoad,
    OpR16ALoad, OpR16BLoad, OpR32ALoad, OpR32BLoad in *.

(** Dispatch of an [Op] whose opcode is known. *)
Ltac dispatch H :=
  unfold Program_Op; unfold_opcodes; rewrite H;
  cbn [Z.eqb Pos.eqb]; cbv iota.

Ltac decide_cells := repeat case_decide; try lia; try reflexivity.

(** C4. An invoke instruction on a register-store opcode, with eight
    cells or more before the tape pointer, sends nothing and changes
    neither memory nor tape pointer.  When afterwards, with the
    registers as the store left them and the tape pointer where it was,
    the paired register-load opcode is dispatched, it sends nothing and
    the [w] cells before the tape pointer (1, 2 or 4 for the 8, 16 and 32
    bit registers) hold the bytes they held at the store, whatever was
    written to the memory in between; every other cell is left as the
    load found it. *)
Theorem register_store_load_round_trip
  (p : Program) (op : Op) (ch : list Op) (st ld w : Z) :
  paired st ld w ->
  invoke_op p = Ok op -> code op = st ->
  8 <= memPtr p -> Forall is_byte (memory p) ->
  exists p1,
    Program_Op p op ch = Ok (p1, ch) /\
    memory p1 = memory p /\ memPtr p1 = memPtr p /\
    forall (q : Program) (op' : Op) (ch' : list Op),
      same_registers p1 q -> memPtr q = memPtr p -> memPtr q <= memLen q ->
      code op' = ld ->
      exists q',
        Program_Op q op' ch' = Ok (q', ch') /\ memPtr q' = memPtr q /\
        (forall i, 0 <= i < w ->
           Byte q' (memPtr p - 1 - i) = Byte p (memPtr p - 1 - i)) /\
        (forall j, ~ (memPtr p - w <= j < memPtr p) -> Byte q' j = Byte q j).
Proof.
  intros Hpair Hop Hst Hp Hall.
  destruct Hpair.
  1, 2:
    destruct (bytes_before p op 0 Hop Hp Hall) as (b0 & Ho0 & Hb0 & Hr0);
      [lia|];
    rewrite Z.sub_0_r in Hb0;
    dispatch Hst; rewrite Ho0; cbn [mbind result_bind];
    eexists; split; [reflexivity|]; split; [reflexivity|];
    split; [reflexivity|];
    intros q op' ch' (R8a & R8b & R16a & R16b & R32a & R32b) Hq Hlen Hld;
    cbn in R8a, R8b;
    dispatch Hld;
    destruct (SetByte_spec q (memPtr q - 1) b0) as (q' & Hset & Hptr & _ & Hb);
      [lia|];
    rewrite <- ?R8a, <- ?R8b, Hset; cbn [mbind result_bind];
    exists q'; split; [reflexivity|]; split; [done|]; split;
    [ intros i Hi; assert (i = 0) as -> by lia;
      rewrite Hb, Hq, Z.sub_0_r, Hb0; decide_cells
    | intros j Hj; rewrite Hb, Hq; decide_cells ].
  1, 2:
    destruct (Op_Word_invoke p op Hop Hp Hall)
      as (b1 & b0 & Hb1 & Hb0 & Hr1 & Hr0 & Hw);
    destruct (word_bytes b1 b0 Hr1 Hr0) as (E1 & E0);
    dispatch Hst; rewrite Hw; cbn [mbind result_bind];
    eexists; split; [reflexivity|]; split; [reflexivity|];
    split; [reflexivity|];
    intros q op' ch' (R8a & R8b & R16a & R16b & R32a & R32b) Hq Hlen Hld;
    cbn in R16a, R16b;
    dispatch Hld;
    destruct (SetWord_spec q (memPtr q - 1) (b1 * 2^8 + b0))
      as (q' & Hset & Hptr & Hb); [lia|];
    rewrite <- ?R16a, <- ?R16b, Hset; cbn [mbind result_bind];
    exists q'; split; [reflexivity|]; split; [done|]; split;
    [ intros i Hi; assert (i = 0 \/ i = 1) as [-> | ->] by lia;
      rewrite Hb, Hq, E1, E0;
      [ rewrite Z.sub_0_r, Hb0
      | replace (memPtr p - 1 - 1) with (memPtr p - 2) by lia; rewrite Hb1 ];
      decide_cells
    | intros j Hj; rewrite Hb, Hq; decide_cells ].
  1, 2:
    destruct (Op_QWord_invoke p op Hop Hp Hall)
      as (b3 & b2 & b1 & b0 & Hb3 & Hb2 & Hb1 & Hb0 & Hr3 & Hr2 & Hr1 & Hr0
          & Hw);
    destruct (qword_bytes b3 b2 b1 b0 Hr3 Hr2 Hr1 Hr0) as (E3 & E2 & E1 & E0);
    dispatch Hst; rewrite Hw; cbn [mbind result_bind];
    eexists; split; [reflexivity|]; split; [reflexivity|];
    split; [reflexivity|];
    intros q op' ch' (R8a & R8b & R16a & R16b & R32a & R32b) Hq Hlen Hld;
    cbn in R32a, R32b;
    dispatch Hld;
    destruct (SetQWord_spec q (memPtr q - 1)
                (((b3 * 2^8 + b2) * 2^8 + b1) * 2^8 + b0))
      as (q' & Hset & Hptr & Hb); [lia|];
    rewrite <- ?R32a, <- ?R32b, Hset; cbn [mbind result_bind];
    exists q'; split; [reflexivity|]; split; [done|]; split;
    [ intros i Hi;
      assert (i = 0 \/ i = 1 \/ i = 2 \/ i = 3) as [-> | [-> | [-> | ->]]]
        by lia;
      rewrite Hb, Hq, E3, E2, E1, E0;
      [ rewrite Z.sub_0_r, Hb0
      | replace (memPtr p - 1 - 1) with (memPtr p - 2) by lia; rewrite Hb1
      | replace (memPtr p - 1 - 2) with (memPtr p - 3) by lia; rewrite Hb2
      | replace (memPtr p - 1 - 3) with (memPtr p - 4) by lia; rewrite Hb3 ];
      decide_cells
    | intros j Hj; rewrite Hb, Hq; decide_cells ].
Qed.

Lemma register_store_load_round_trip_witness :
  let p := mkProgram [46; 0; 1; 2; 3; 4; 5; 6; 7; 8; 22; 0] 2 0 0
                     0 0 0 0 0 0 10 in
  let op := mkOp 22 [1; 2; 3; 4; 5; 6; 7; 8] in
  exists p1,
    Program_Op p op [] = Ok (p1, []) /\
    memory p1 = memory p /\ memPtr p1 = memPtr p /\
    forall (q : Program) (op' : Op) (ch' : list Op),
      same_registers p1 q -> memPtr q = memPtr p -> memPtr q <= memLen q ->
      code op' = OpR16ALoad ->
      exists q',
        Program_Op q op' ch' = Ok (q', ch') /\ memPtr q' = memPtr q /\
        (forall i, 0 <= i < 2 ->
           Byte q' (memPtr p - 1 - i) = Byte p (memPtr p - 1 - i)) /\
        (forall j, ~ (memPtr p - 2 <= j < memPtr p) -> Byte q' j = Byte q j).
Proof.
  apply (register_store_load_round_trip
           (mkProgram [46; 0; 1; 2; 3; 4; 5; 6; 7; 8; 22; 0] 2 0 0
                      0 0 0 0 0 0 10)
           (mkOp 22 [1; 2; 3; 4; 5; 6; 7; 8]) []
           OpR16AStore OpR16ALoad 2).
  - exact paired_r16a.
  - reflexivity.
  - reflexivity.
  - simpl. lia.
  - simpl. repeat constructor; unfold is_byte; lia.
Defined.

(** The register program of the repository's tests: the word 260 goes
    through [r16a] and comes back as the cells 1, 4; nothing is sent. *)
Example register_program_runs :
  let code := "+>++++>++++++++++ ++++++++++ ++.[>>+<<-]>>++++++." in
  cells 5 (load_and_run 1000 code) = Some [1; 4; 1; 4; 28] /\
  sent (load_and_run 1000 code) = Some [].
Proof. split; vm_compute; reflexivity. Qed.

(** *** C5 *)

Lemma index_drop (m : list Z) (a x : Z) :
  index m a = Some x ->
  drop (Z.to_nat a) m = x :: drop (S (Z.to_nat a)) m.
Proof. intros H. apply index_Some in H as [_ H]. by apply drop_S. Qed.

Lemma index_take (m : list Z) (a x : Z) :
  index m a = Some x ->
  reverse (take (S (Z.to_nat a)) m) = x :: reverse (take (Z.to_nat a) m).
Proof.
  intros H. apply index_Some in H as [_ H].
  by rewrite (take_S_r _ _ _ H), reverse_snoc.
Qed.

Lemma idiom_ahead (m : list Z) (a : Z) :
  idiom_at m a ->
  0 <= a /\ a + 3 <= Z.of_nat (length m) /\
  drop (Z.to_nat a) m =
    chr "[" :: chr "-" :: chr "]" :: drop (S (S (S (Z.to_nat a)))) m.
Proof.
  intros (H0 & H1 & H2).
  assert (0 <= a) by (apply index_Some in H0; lia).
  split; [done|]. split.
  - destruct (decide (a + 2 < Z.of_nat (length m))) as [|Hn]; [lia|].
    assert (index m (a + 2) = None) by (apply index_None; lia). congruence.
  - rewrite (index_drop _ _ _ H0).
    replace (S (Z.to_nat a)) with (Z.to_nat (a + 1)) by lia.
    rewrite (index_drop _ _ _ H1).
    replace (S (Z.to_nat (a + 1))) with (Z.to_nat (a + 2)) by lia.
    rewrite (index_drop _ _ _ H2).
    do 4 f_equal.
Qed.

Lemma idiom_behind (m : list Z) (a : Z) :
  idiom_at m a ->
  reverse (take (S (Z.to_nat (a + 2))) m) =
    chr "]" :: chr "-" :: chr "[" :: reverse (take (Z.to_nat a) m).
Proof.
  intros (H0 & H1 & H2).
  assert (0 <= a) by (apply index_Some in H0; lia).
  rewrite (index_take _ _ _ H2).
  replace (Z.to_nat (a + 2)) with (S (Z.to_nat (a + 1))) by lia.
  rewrite (index_take _ _ _ H1).
  replace (Z.to_nat (a + 1)) with (S (Z.to_nat a)) by lia.
  by rewrite (index_take _ _ _ H0).
Qed.

Lemma idiom_at_insert (m : list Z) (a i v : Z) :
  idiom_at m a -> 0 <= i -> ~ (a <= i < a + 3) ->
  idiom_at (<[Z.to_nat i := v]> m) a.
Proof.
  intros (H0 & H1 & H2) Hi Hout.
  repeat split; rewrite index_insert_ne by lia; done.
Qed.

Lemma turns_S (ex : Z -> Program -> list Op -> result (Program * list Op))
    (n : nat) (p p' : Program) (ch ch' : list Op) (instr : Z) :
  Byte p (pc p) = Ok instr -> instr <> 0 ->
  step ex instr p ch = Ok (p', ch') ->
  turns ex (S n) p ch = turns ex n p' ch'.
Proof.
  intros Hi Hnz Hs. simpl. rewrite Hi.
  destruct (Z.eqb_spec instr 0); [done|]. by rewrite Hs.
Qed.

(** [n] turns that neither halt nor panic are the first [n] turns of the
    loop of [Run]. *)
Lemma turns_run_loop (ex : Z -> Program -> list Op -> result (Program * list Op))
    (n fuel : nat) (p p' : Program) (ch ch' : list Op) :
  turns ex n p ch = Some (p', ch') ->
  run_loop ex (n + fuel) p ch = run_loop ex fuel p' ch'.
Proof.
  revert p ch. induction n as [|n IH]; intros p ch H.
  - simpl in H. by injection H as -> ->.
  - simpl in H. rewrite Nat.add_succ_l. simpl.
    destruct (Byte p (pc p)) as [instr|]; [|done].
    destruct (instr =? 0); [done|].
    destruct (step ex instr p ch) as [[p1 ch1]|]; [|done].
    by apply IH.
Qed.

Lemma exec_open (p : Program) (ch : list Op) :
  exec (chr "[") p ch =
  if pc p + 3 <=? memLen p then
    if bool_decide (take 3 (ahead p) = bytes_of_string "[-]") then
      p ← SetByte p (memPtr p) 0;
      Ok (set_pc p (pc p + 2), ch)
    else
      b ← Byte p (memPtr p);
      if b =? 0 then p ← JumpToCloseLoop p; Ok (p, ch) else Ok (p, ch)
  else Panic SliceBoundsOutOfRange.
Proof. reflexivity. Qed.

Lemma exec_literal_open (p : Program) (ch : list Op) :
  exec_literal (chr "[") p ch =
  b ← Byte p (memPtr p);
  if b =? 0 then p ← JumpToCloseLoop p; Ok (p, ch) else Ok (p, ch).
Proof. reflexivity. Qed.

Lemma exec_literal_minus (p : Program) (ch : list Op) :
  exec_literal (chr "-") p ch = exec (chr "-") p ch.
Proof. reflexivity. Qed.

Lemma exec_literal_close (p : Program) (ch : list Op) :
  exec_literal (chr "]") p ch =
  b ← Byte p (memPtr p);
  if negb (b =? 0) then p ← JumpToOpenLoop p; Ok (p, ch) else Ok (p, ch).
Proof. reflexivity. Qed.

(** The shortcut: one turn. *)
Lemma shortcut_turn (p : Program) (ch : list Op) (v : Z) :
  idiom_at (memory p) (pc p) -> Byte p (memPtr p) = Ok v ->
  turns exec 1 p ch = Some (cleared p, ch).
Proof.
  intros Hid Hv.
  destruct (idiom_ahead _ _ Hid) as (Hpc & Hlen & Hdrop).
  pose proof (Byte_in_range _ _ _ Hv) as Hr.
  destruct Hid as (H0 & _).
  rewrite (turns_S exec 0 p (cleared p) ch ch (chr "[")); try done.
  - by apply Byte_Ok.
  - unfold step. rewrite exec_open.
    destruct (Z.leb_spec (pc p + 3) (memLen p)); [|unfold memLen in *; lia].
    rewrite bool_decide_eq_true_2
      by (unfold ahead; rewrite Hdrop; reflexivity).
    rewrite SetByte_Ok by done. cbn [mbind result_bind].
    unfold cleared. destruct p; simpl. do 2 f_equal. f_equal. lia.
Qed.

(** The idiom executed literally, turn by turn. *)
Lemma literal_open_zero (p : Program) (ch : list Op) :
  idiom_at (memory p) (pc p) -> Byte p (memPtr p) = Ok 0 ->
  step exec_literal (chr "[") p ch = Ok (cleared p, ch).
Proof.
  intros Hid Hv.
  destruct (idiom_ahead _ _ Hid) as (Hpc & Hlen & Hdrop).
  unfold step. rewrite exec_literal_open, Hv. cbn [mbind result_bind].
  change (0 =? 0) with true. cbv iota.
  unfold JumpToCloseLoop.
  destruct (Z.leb_spec 0 (pc p)); [|lia].
  rewrite Hdrop. simpl close_scan. cbn [mbind result_bind].
  unfold cleared.
  rewrite list_insert_id by (apply Byte_Ok, index_Some in Hv; apply Hv).
  destruct p; simpl. do 2 f_equal. f_equal. lia.
Qed.

Lemma literal_open_nonzero (p : Program) (ch : list Op) (v : Z) :
  Byte p (memPtr p) = Ok v -> v <> 0 ->
  step exec_literal (chr "[") p ch = Ok (set_pc p (pc p + 1), ch).
Proof.
  intros Hv Hnz. unfold step. rewrite exec_literal_open, Hv.
  cbn [mbind result_bind].
  destruct (Z.eqb_spec v 0); [done|]. reflexivity.
Qed.

Lemma literal_minus (p : Program) (ch : list Op) (a : Z) (k : nat) :
  idiom_at (memory p) a -> pc p = a + 1 ->
  Byte p (memPtr p) = Ok (Z.of_nat (S k)) -> Z.of_nat (S k) <= 255 ->
  step exec_literal (chr "-") p ch =
  Ok (set_pc (set_memory p (<[Z.to_nat (memPtr p) := Z.of_nat k]> (memory p)))
             (a + 2), ch).
Proof.
  intros Hid Hpc Hv Hk.
  pose proof (Byte_in_range _ _ _ Hv) as Hr.
  destruct Hid as (H0 & H1 & H2).
  assert (0 <= a) by (apply index_Some in H0; lia).
  unfold step. rewrite exec_literal_minus, exec_minus.
  unfold ahead. rewrite Hpc, (index_drop _ _ _ H1).
  replace (S (Z.to_nat (a + 1))) with (Z.to_nat (a + 2)) by lia.
  rewrite (index_drop _ _ _ H2).
  simpl run_length. cbn [fmap result_fmap mbind result_bind]. cbv zeta.
  change (Byte (set_pc p _) _) with (Byte p (memPtr p)). rewrite Hv.
  cbn [mbind result_bind].
  change (memPtr (set_pc p _)) with (memPtr p).
  rewrite SetByte_Ok by done. cbn [mbind result_bind].
  replace (SubRolling (Z.of_nat (S k)) (Z.of_nat 1) 255 mod 256)
    with (Z.of_nat k).
  - destruct p; simpl. do 2 f_equal. f_equal. lia.
  - unfold SubRolling.
    replace (Z.of_nat (S k) - Z.of_nat 1) with (Z.of_nat k) by lia.
    rewrite Z.rem_small by lia. rewrite Z.mod_small by lia. reflexivity.
Qed.

Lemma literal_close_zero (p : Program) (ch : list Op) :
  Byte p (memPtr p) = Ok 0 ->
  step exec_literal (chr "]") p ch = Ok (set_pc p (pc p + 1), ch).
Proof.
  intros Hv. unfold step. rewrite exec_literal_close, Hv. reflexivity.
Qed.

Lemma literal_close_nonzero (p : Program) (ch : list Op) (a v : Z) :
  idiom_at (memory p) a -> pc p = a + 2 ->
  Byte p (memPtr p) = Ok v -> v <> 0 ->
  step exec_literal (chr "]") p ch = Ok (set_pc p (a + 1), ch).
Proof.
  intros Hid Hpc Hv Hnz.
  destruct (idiom_ahead _ _ Hid) as (Ha & Hlen & _).
  unfold step. rewrite exec_literal_close, Hv. cbn [mbind result_bind].
  destruct (Z.eqb_spec v 0); [done|]. cbn [negb].
  unfold JumpToOpenLoop, memLen. rewrite Hpc.
  destruct (Z.leb_spec 0 (a + 2)); [|lia].
  destruct (Z.ltb_spec (a + 2) (Z.of_nat (length (memory p)))); [|lia].
  cbn [andb]. rewrite (idiom_behind _ _ Hid). simpl open_scan.
  cbn [mbind result_bind].
  destruct p; simpl. do 2 f_equal. f_equal. lia.
Qed.

(** Once round the body of the loop, run literally from a cell holding
    [k + 1]: the decrement, then the loop-close, which goes back to the
    body unless the cell is now zero. *)
Lemma literal_body (ch : list Op) (a : Z) (n k : nat) (p : Program) :
  idiom_at (memory p) a -> pc p = a + 1 ->
  Byte p (memPtr p) = Ok (Z.of_nat (S k)) -> Z.of_nat (S k) <= 255 ->
  ~ (a <= memPtr p < a + 3) ->
  turns exec_literal (S (S n)) p ch =
  turns exec_literal n
    (set_pc (set_memory p (<[Z.to_nat (memPtr p) := Z.of_nat k]> (memory p)))
            (match k with O => a + 3 | S _ => a + 1 end)) ch.
Proof.
  intros Hid Hpc Hv Hk Hout.
  pose proof (Byte_in_range _ _ _ Hv) as Hr.
  pose proof Hid as (H0 & H1 & H2).
  set (p1 := set_pc (set_memory p (<[Z.to_nat (memPtr p) := Z.of_nat k]>
                                     (memory p))) (a + 2)).
  assert (Hid1 : idiom_at (memory p1) a)
    by (apply idiom_at_insert; [done|lia|done]).
  assert (Hv1 : Byte p1 (memPtr p1) = Ok (Z.of_nat k))
    by (apply Byte_Ok; simpl; by apply index_insert_eq).
  rewrite (turns_S exec_literal _ p p1 ch ch (chr "-"));
    [ | apply Byte_Ok; by rewrite Hpc | done | by apply literal_minus ].
  destruct k as [|k].
  - rewrite (turns_S exec_literal _ p1 (set_pc p1 (pc p1 + 1)) ch ch (chr "]")).
    + f_equal. destruct p; simpl. f_equal. lia.
    + apply Byte_Ok. apply Hid1.
    + done.
    + by apply literal_close_zero.
  - rewrite (turns_S exec_literal _ p1 (set_pc p1 (a + 1)) ch ch (chr "]")).
    + reflexivity.
    + apply Byte_Ok. apply Hid1.
    + done.
    + apply (literal_close_nonzero p1 ch a (Z.of_nat (S k))); done || lia.
Qed.

Lemma literal_loop (ch : list Op) (a : Z) (k : nat) (p : Program) :
  idiom_at (memory p) a -> pc p = a + 1 ->
  Byte p (memPtr p) = Ok (Z.of_nat (S k)) -> Z.of_nat (S k) <= 255 ->
  ~ (a <= memPtr p < a + 3) ->
  turns exec_literal (2 * S k) p ch =
  Some (set_pc (set_memory p (<[Z.to_nat (memPtr p) := 0]> (memory p)))
               (a + 3), ch).
Proof.
  revert p. induction k as [|k IH]; intros p Hid Hpc Hv Hk Hout;
    pose proof (Byte_in_range _ _ _ Hv) as Hr.
  - change (2 * 1)%nat with 2%nat.
    by rewrite (literal_body ch a 0 0 p).
  - replace (2 * S (S k))%nat with (S (S (2 * S k))) by lia.
    rewrite (literal_body ch a _ (S k) p) by done.
    rewrite IH.
    + simpl. by rewrite list_insert_insert_eq.
    + apply idiom_at_insert; [done|lia|done].
    + reflexivity.
    + apply Byte_Ok. simpl. by apply index_insert_eq.
    + lia.
    + done.
Qed.

(** The idiom run literally from a cell holding [v]: [2 v + 1] turns. *)
Lemma literal_turns (p : Program) (ch : list Op) (v : Z) :
  idiom_at (memory p) (pc p) -> Byte p (memPtr p) = Ok v -> is_byte v ->
  ~ (pc p <= memPtr p < pc p + 3) ->
  turns exec_literal (Z.to_nat (2 * v + 1)) p ch = Some (cleared p, ch).
Proof.
  intros Hid Hv Hb Hout. unfold is_byte in Hb.
  pose proof Hid as (H0 & _).
  destruct (Z.eq_dec v 0) as [->|Hnz].
  - change (Z.to_nat (2 * 0 + 1)) with 1%nat.
    rewrite (turns_S exec_literal 0 p (cleared p) ch ch (chr "[")); try done.
    + by apply Byte_Ok.
    + by apply literal_open_zero.
  - replace (Z.to_nat (2 * v + 1)) with (S (2 * S (Z.to_nat (v - 1)))) by lia.
    rewrite (turns_S exec_literal _ p (set_pc p (pc p + 1)) ch ch (chr "["));
      try done.
    + rewrite (literal_loop ch (pc p)); try done.
      * change (Byte (set_pc p _) _) with (Byte p (memPtr p)).
        rewrite Hv. f_equal. lia.
      * lia.
    + by apply Byte_Ok.
    + by apply (literal_open_nonzero p ch v).
Qed.

(** C5, as the code has it.  A loop-open byte whose next two bytes
    complete [[-]] zeroes the current cell and moves the program counter
    past the idiom in one turn.  Provided the tape pointer is not on one
    of the three bytes of the idiom itself, the machine that executes the
    idiom literally reaches the very same state (memory, tape pointer,
    registers, program counter) after [2 v + 1] turns from a cell holding
    [v], for every byte [v], and neither sends anything; from there on
    the loop of [Run] goes on alike. *)
Theorem clear_idiom_shortcut (p : Program) (ch : list Op) (v : Z) :
  idiom_at (memory p) (pc p) ->
  Byte p (memPtr p) = Ok v -> is_byte v ->
  ~ (pc p <= memPtr p < pc p + 3) ->
  turns exec 1 p ch = Some (cleared p, ch) /\
  turns exec_literal (Z.to_nat (2 * v + 1)) p ch = Some (cleared p, ch) /\
  Byte (cleared p) (memPtr (cleared p)) = Ok 0 /\
  pc (cleared p) = pc p + 3 /\
  (forall fuel : nat,
     run_loop exec (1 + fuel) p ch = run_loop exec fuel (cleared p) ch /\
     run_loop exec_literal (Z.to_nat (2 * v + 1) + fuel) p ch =
       run_loop exec_literal fuel (cleared p) ch).
Proof.
  intros Hid Hv Hb Hout.
  pose proof (shortcut_turn p ch v Hid Hv) as Hs.
  pose proof (literal_turns p ch v Hid Hv Hb Hout) as Hl.
  pose proof (Byte_in_range _ _ _ Hv) as Hr.
  split; [done|]. split; [done|]. split; [|split; [reflexivity|]].
  - apply Byte_Ok. simpl. by apply index_insert_eq.
  - intros fuel. split; by apply turns_run_loop.
Qed.

Lemma clear_idiom_shortcut_witness :
  let p := mkProgram [91; 45; 93; 0; 5] 4 0 0 0 0 0 0 0 0 4 in
  turns exec 1 p [] = Some (cleared p, []) /\
  turns exec_literal (Z.to_nat (2 * 5 + 1)) p [] = Some (cleared p, []) /\
  Byte (cleared p) (memPtr (cleared p)) = Ok 0 /\
  pc (cleared p) = pc p + 3 /\
  (forall fuel : nat,
     run_loop exec (1 + fuel) p [] = run_loop exec fuel (cleared p) [] /\
     run_loop exec_literal (Z.to_nat (2 * 5 + 1) + fuel) p [] =
       run_loop exec_literal fuel (cleared p) []).
Proof.
  apply (clear_idiom_shortcut
           (mkProgram [91; 45; 93; 0; 5] 4 0 0 0 0 0 0 0 0 4) [] 5).
  - repeat split; reflexivity.
  - reflexivity.
  - unfold is_byte. lia.
  - simpl. lia.
Defined.

(** C5 as stated fails.  The program ["<<<<<<<<<<<<[-]."] puts the tape
    pointer on the loop-close byte of its own idiom.  The shortcut zeroes
    that byte, the invoke that follows finds opcode 0 and nothing is sent.
    Executed literally, the byte is decremented once to 92, the loop is
    left, and the invoke sends an [Op] with code 92. *)
Lemma clear_idiom_shortcut_differs_on_own_bytes :
  sent (load_and_run 10 "<<<<<<<<<<<<[-].") = Some [] /\
  sent (load_and_run_literal 10 "<<<<<<<<<<<<[-].") =
    Some [mkOp 92 [60; 60; 60; 60; 60; 60; 91; 45]].
Proof. split; vm_compute; reflexivity. Qed.

End VMProofs.

(** ** Properties of the code generator *)

Module BSProofs.
Import BS BSSpec.

(** *** The fuel of [int] *)

Lemma int_of_evaluates (lk : string -> option expr) (n : nat) (e : expr)
    (r : result (Z + string)) :
  int_of n lk e = r -> r <> Panic StackOverflow ->
  exists k, (k <= n)%nat /\ evaluates lk e k r.
Proof.
  revert e. induction n as [|n IH]; intros [id|v|e] H Hr; simpl in H;
    try (subst r; exists 0%nat; split; [lia|constructor]).
  - destruct (lk id) as [e'|] eqn:Hid; [congruence|].
    subst r. exists 0%nat. split; [lia|by constructor].
  - destruct (lk id) as [e'|] eqn:Hid.
    + destruct (IH e' H Hr) as (k & Hk & Hev).
      exists (S k). split; [lia|]. by econstructor.
    + subst r. exists 0%nat. split; [lia|by constructor].
Qed.

Lemma evaluates_int_of (lk : string -> option expr) (e : expr) (k : nat)
    (r : result (Z + string)) :
  evaluates lk e k r -> forall n, (k <= n)%nat -> int_of n lk e = r.
Proof.
  induction 1 as [v|e|id Hid|id e k r Hid _ IH]; intros n Hn.
  - by destruct n.
  - by destruct n.
  - destruct n; simpl; by rewrite Hid.
  - destruct n as [|n]; [lia|]. simpl. rewrite Hid. apply IH. lia.
Qed.

Lemma evaluates_functional (lk : string -> option expr) (e : expr)
    (k k' : nat) (r r' : result (Z + string)) :
  evaluates lk e k r -> evaluates lk e k' r' -> k = k' /\ r = r'.
Proof.
  intros H. revert k' r'.
  induction H as [v|e|id Hid|id e k r Hid _ IH]; intros k' r' H';
    inversion H' as [v'|e'|id' Hid'|id' e0 k0 r0 Hid' Hev'];
    subst; try done; try congruence.
  assert (e0 = e) as -> by congruence.
  destruct (IH _ _ Hev') as [-> ->]. done.
Qed.

(** An evaluation that ends never comes back to an identifier it has
    left, so it goes through without that identifier in the table. *)
Lemma evaluates_delete (m : gmap string expr) (id : string) (e : expr)
    (k : nat) (r : result (Z + string)) :
  evaluates (fun i => m !! i) e k r ->
  (forall k' r', evaluates (fun i => m !! i) (exprId id) k' r' -> (k < k')%nat) ->
  evaluates (fun i => delete id m !! i) e k r.
Proof.
  induction 1 as [v|e|id0 Hid|id0 e k r Hid Hev IH]; intros Hlater.
  - constructor.
  - constructor.
  - constructor. destruct (decide (id = id0)) as [->|Hne].
    + apply lookup_delete_eq.
    + by rewrite lookup_delete_ne.
  - assert (id <> id0) as Hne.
    { intros ->. assert (S k < S k)%nat; [|lia].
      apply (Hlater (S k) r). by econstructor. }
    econstructor.
    + by rewrite lookup_delete_ne.
    + apply IH. intros k' r' H'. specialize (Hlater k' r' H'). lia.
Qed.

Lemma evaluates_bound_by_size (k : nat) :
  forall (m : gmap string expr) (e : expr) (r : result (Z + string)),
    evaluates (fun i => m !! i) e k r -> (k <= size m)%nat.
Proof.
  induction k as [|k IH]; intros m e r H; [lia|].
  inversion H as [| | |id e' k0 r0 Hid Hev]; subst.
  assert (Hdel : evaluates (fun i => delete id m !! i) e' k r).
  { apply evaluates_delete; [done|]. intros k' r' H'.
    destruct (evaluates_functional _ _ _ _ _ _ H H') as [<- _]. lia. }
  apply IH in Hdel.
  rewrite (map_size_delete_Some id m) in Hdel by (by eexists).
  assert (size m <> 0)%nat; [|lia].
  intros Hz. apply map_size_empty_inv in Hz. subst m.
  by rewrite lookup_empty in Hid.
Qed.

(** The fuel [int] gives the recursion is enough: whenever the recursion
    ends at all, with whatever fuel, [int] has its result. *)
Lemma int_fuel_enough (g : gen) (e : expr) (n : nat) (r : result (Z + string)) :
  int_of n (lookup g) e = r -> r <> Panic StackOverflow -> int g e = r.
Proof.
  intros H Hr. destruct (int_of_evaluates _ _ _ _ H Hr) as (k & _ & Hev).
  unfold int. apply (evaluates_int_of _ _ _ _ Hev).
  by apply (evaluates_bound_by_size k (labelTable g) e r).
Qed.

(** *** What each helper does to the generator state *)

Lemma point_fields (g : gen) (v : Z) :
  ptr (point g v) = v /\ label (point g v) = label g /\
  labelTable (point g v) = labelTable g /\
  loopStarts (point g v) = loopStarts g.
Proof. unfold point. destruct (_ <? 0); repeat split. Qed.

Lemma wrap_int_id (x : Z) : in_int x -> wrap_int x = x.
Proof.
  unfold in_int, wrap_int, min_int, max_int. intros H.
  rewrite Z.mod_small; lia.
Qed.

(** From cursor 0, [point] writes the run of step markers to [addr]. *)
Lemma point_from_0 (g : gen) (addr : Z) :
  ptr g = 0 -> min_int < addr <= max_int ->
  sb (point g addr) = sb g ++ movement addr.
Proof.
  unfold min_int, max_int. intros Hp Ha.
  unfold point, movement, runes. rewrite Hp, Z.sub_0_r.
  rewrite wrap_int_id by (unfold in_int, min_int, max_int; lia).
  destruct (Z.ltb_spec addr 0); simpl.
  - rewrite wrap_int_id by (unfold in_int, min_int, max_int; lia).
    do 2 f_equal. lia.
  - do 2 f_equal. lia.
Qed.

Lemma int_point (g : gen) (v : Z) (e : expr) : int (point g v) e = int g e.
Proof.
  unfold int, lookup. destruct (point_fields g v) as (_ & _ & -> & _).
  reflexivity.
Qed.

Lemma instr_inc (g : gen) (d s : option expr) :
  instr g (mkInstr "inc" d s) =
  g' ← (v ← addr_of g d must_addr;
        let g := point g v in
        times ← times_of g s;
        Ok (write g (runes times "+")));
  Ok (set_label g' "").
Proof. reflexivity. Qed.

Lemma instr_dec (g : gen) (d s : option expr) :
  instr g (mkInstr "dec" d s) =
  g' ← (v ← addr_of g d must_addr;
        let g := point g v in
        times ← times_of g s;
        Ok (write g (runes times "-")));
  Ok (set_label g' "").
Proof. reflexivity. Qed.

(** *** C9 *)

(** C9. From cursor position 0, [inc [addr], n] emits the step markers
    to [addr] (the absolute value of [addr] many, all step-right or all
    step-left) and then [n] increment markers, nothing else, and leaves
    the cursor at [addr]; [dec [addr], n] does the same with decrement
    markers; without the count operand one marker is emitted.  [addr] and
    [n] are the values of the operand expressions, literals or constants
    of the label table; a count below zero emits no marker. *)
Theorem inc_dec_emit_movement_then_markers
  (g : gen) (e : expr) (addr : Z) :
  ptr g = 0 -> int g e = Ok (inl addr) -> min_int < addr <= max_int ->
  (forall (en : expr) (n : Z),
     int g en = Ok (inl n) ->
     (exists g',
        instr g (mkInstr "inc" (Some (exprAddr e)) (Some en)) = Ok g' /\
        sb g' = sb g ++ movement addr ++ replicate (Z.to_nat n) "+"%char /\
        ptr g' = addr) /\
     (exists g',
        instr g (mkInstr "dec" (Some (exprAddr e)) (Some en)) = Ok g' /\
        sb g' = sb g ++ movement addr ++ replicate (Z.to_nat n) "-"%char /\
        ptr g' = addr)) /\
  (exists g',
     instr g (mkInstr "inc" (Some (exprAddr e)) None) = Ok g' /\
     sb g' = sb g ++ movement addr ++ ["+"%char] /\ ptr g' = addr) /\
  (exists g',
     instr g (mkInstr "dec" (Some (exprAddr e)) None) = Ok g' /\
     sb g' = sb g ++ movement addr ++ ["-"%char] /\ ptr g' = addr).
Proof.
  intros Hp He Ha.
  pose proof (point_from_0 g addr Hp Ha) as Hsb.
  destruct (point_fields g addr) as (Hptr & _).
  split; [|split].
  - intros en n Hn. split.
    + rewrite instr_inc. unfold addr_of. rewrite He.
      cbn [mbind result_bind]. unfold times_of. rewrite int_point, Hn.
      cbn [mbind result_bind]. eexists. split; [reflexivity|].
      cbn [sb ptr set_label write]. rewrite Hsb, Hptr.
      by rewrite <- app_assoc.
    + rewrite instr_dec. unfold addr_of. rewrite He.
      cbn [mbind result_bind]. unfold times_of. rewrite int_point, Hn.
      cbn [mbind result_bind]. eexists. split; [reflexivity|].
      cbn [sb ptr set_label write]. rewrite Hsb, Hptr.
      by rewrite <- app_assoc.
  - rewrite instr_inc. unfold addr_of. rewrite He.
    cbn [mbind result_bind times_of]. eexists. split; [reflexivity|].
    cbn [sb ptr set_label write]. rewrite Hsb, Hptr.
    by rewrite <- app_assoc.
  - rewrite instr_dec. unfold addr_of. rewrite He.
    cbn [mbind result_bind times_of]. eexists. split; [reflexivity|].
    cbn [sb ptr set_label write]. rewrite Hsb, Hptr.
    by rewrite <- app_assoc.
Qed.

Lemma inc_dec_emit_movement_then_markers_witness :
  (forall (en : expr) (n : Z),
     int new_gen en = Ok (inl n) ->
     (exists g',
        instr new_gen (mkInstr "inc" (Some (exprAddr (exprInt 3))) (Some en))
          = Ok g' /\
        sb g' = sb new_gen ++ movement 3 ++ replicate (Z.to_nat n) "+"%char /\
        ptr g' = 3) /\
     (exists g',
        instr new_gen (mkInstr "dec" (Some (exprAddr (exprInt 3))) (Some en))
          = Ok g' /\
        sb g' = sb new_gen ++ movement 3 ++ replicate (Z.to_nat n) "-"%char /\
        ptr g' = 3)) /\
  (exists g',
     instr new_gen (mkInstr "inc" (Some (exprAddr (exprInt 3))) None) = Ok g' /\
     sb g' = sb new_gen ++ movement 3 ++ ["+"%char] /\ ptr g' = 3) /\
  (exists g',
     instr new_gen (mkInstr "dec" (Some (exprAddr (exprInt 3))) None) = Ok g' /\
     sb g' = sb new_gen ++ movement 3 ++ ["-"%char] /\ ptr g' = 3).
Proof.
  apply (inc_dec_emit_movement_then_markers new_gen (exprInt 3) 3).
  - reflexivity.
  - reflexivity.
  - unfold min_int, max_int. lia.
Defined.

Example inc_dec_text :
  generate [StmtInstr (mkInstr "inc" (Some (exprAddr (exprInt 3)))
                               (Some (exprInt 5)))] = Ok ">>>+++++"%string /\
  generate [StmtInstr (mkInstr "dec" (Some (exprAddr (exprInt 2))) None)]
    = Ok ">>-"%string.
Proof. split; reflexivity. Qed.

(** *** The loop stack *)

Lemma popLoopStart_Ok (g g' : gen) (x : Z) :
  popLoopStart g = Ok (g', x) -> loopStarts g = loopStarts g' ++ [x].
Proof.
  unfold popLoopStart. destruct (last (loopStarts g)) as [y|] eqn:Hl;
    [|discriminate].
  intros H. injection H as <- <-.
  apply last_Some in Hl as [l Hl]. rewrite Hl. simpl.
  rewrite length_app. simpl.
  replace (Nat.pred (length l + 1)) with (length l) by lia.
  by rewrite take_app_length.
Qed.

Lemma popLoopStart_snoc (g : gen) (l : list Z) (x : Z) :
  loopStarts g = l ++ [x] -> popLoopStart g = Ok (set_loopStarts g l, x).
Proof.
  intros H. unfold popLoopStart. rewrite H, last_snoc, length_app. simpl.
  replace (Nat.pred (length l + 1)) with (length l) by lia.
  by rewrite take_app_length.
Qed.

Lemma popLoopStart_nil (g : gen) :
  loopStarts g = [] -> popLoopStart g = Panic IndexOutOfRange.
Proof. intros H. unfold popLoopStart. by rewrite H. Qed.

Ltac inv_bind :=
  repeat match goal with
    | H : _ ≫= _ = Ok _ |- _ =>
        let a := fresh "a" in
        let Ha := fresh "Ha" in
        apply bind_Ok_inv in H as (a & Ha & H); cbv beta in H
    | H : (let '(_, _) := ?x in _) = Ok _ |- _ => destruct x
    | H : Panic _ = Ok _ |- _ => discriminate H
    | H : Ok _ = Ok _ |- _ => injection H as H
    end.

Lemma loopStarts_point (g : gen) (v : Z) :
  loopStarts (point g v) = loopStarts g.
Proof. apply point_fields. Qed.

Ltac stack_simpl :=
  repeat first
    [ progress cbn [loopStarts set_label write pushLoopStart set_loopStarts
                    loopStart set_labelTable]
    | rewrite loopStarts_point ].

Ltac pop_inv :=
  repeat match goal with
    | H : popLoopStart _ = Ok _ |- _ => apply popLoopStart_Ok in H
    end;
  stack_simpl;
  repeat match goal with
    | H : loopStarts _ = _ |- _ => rewrite H
    end.

(** An instruction that is no part of a control construct leaves the
    loop stack alone. *)
Lemma plain_stack (g g' : gen) (i : stmtInstr) :
  plain (StmtInstr i) -> instr g i = Ok g' -> loopStarts g' = loopStarts g.
Proof.
  destruct i as [n d s]. unfold plain. cbn [name].
  rewrite !elem_of_cons, elem_of_nil.
  intros [->|[->|[->|[->|[->|[->|[]]]]]]] H; unfold instr in H;
    apply bind_Ok_inv in H as (g1 & H & Hg); injection Hg as <-;
    cbn in H.
  1, 2, 3, 4, 5: inv_bind; subst; by stack_simpl.
  destruct d as [value|]; [|discriminate]. destruct s; [discriminate|].
  destruct (label g =? "")%string; [discriminate|].
  destruct (labelTable g !! label g); [discriminate|].
  injection H as <-. reflexivity.
Qed.

Lemma while_stack (g g' : gen) (i : stmtInstr) :
  name i = "while"%string -> instr g i = Ok g' ->
  exists v, loopStarts g' = loopStarts g ++ [v].
Proof.
  destruct i as [n d s]. cbn [name]. intros -> H. unfold instr in H.
  apply bind_Ok_inv in H as (g1 & H & Hg); injection Hg as <-. cbn in H.
  inv_bind; subst. eexists. by stack_simpl.
Qed.

Lemma endwhile_stack (g g' : gen) (i : stmtInstr) :
  name i = "endwhile"%string -> instr g i = Ok g' ->
  exists v, loopStarts g = loopStarts g' ++ [v].
Proof.
  destruct i as [n d s]. cbn [name]. intros -> H. unfold instr in H.
  apply bind_Ok_inv in H as (g1 & H & Hg); injection Hg as <-. cbn in H.
  assert (Hend : forall g2, loopEnd g = Ok g2 ->
                 exists v, loopStarts g = loopStarts g2 ++ [v]).
  { unfold loopEnd. intros g2 H2. inv_bind; subst.
    eexists. pop_inv. reflexivity. }
  destruct d as [[id|v|e]|];
    try (destruct (Hend _ H) as [v' Hv]; exists v'; exact Hv).
  inv_bind; subst. eexists. pop_inv. reflexivity.
Qed.

Lemma if_stack (g g' : gen) (i : stmtInstr) :
  name i = "if"%string -> instr g i = Ok g' ->
  exists c j, loopStarts g' = (loopStarts g ++ [c]) ++ [j].
Proof.
  destruct i as [n d s]. cbn [name]. intros -> H. unfold instr in H.
  apply bind_Ok_inv in H as (g1 & H & Hg); injection Hg as <-. cbn in H.
  inv_bind; subst. do 2 eexists. by stack_simpl.
Qed.

Lemma else_stack (g g' : gen) (i : stmtInstr) :
  name i = "else"%string -> instr g i = Ok g' ->
  loopStarts g' = loopStarts g.
Proof.
  destruct i as [n d s]. cbn [name]. intros -> H. unfold instr in H.
  apply bind_Ok_inv in H as (g1 & H & Hg); injection Hg as <-. cbn in H.
  inv_bind; subst. pop_inv. reflexivity.
Qed.

Lemma endif_stack (g g' : gen) (i : stmtInstr) :
  name i = "endif"%string -> instr g i = Ok g' ->
  exists c j, loopStarts g = (loopStarts g' ++ [c]) ++ [j].
Proof.
  destruct i as [n d s]. cbn [name]. intros -> H. unfold instr in H.
  apply bind_Ok_inv in H as (g1 & H & Hg); injection Hg as <-. cbn in H.
  inv_bind; subst. do 2 eexists. pop_inv. reflexivity.
Qed.

Lemma gen_stmts_app (l1 l2 : list stmt) (g : gen) :
  gen_stmts g (l1 ++ l2) = g1 ← gen_stmts g l1; gen_stmts g1 l2.
Proof.
  revert g. induction l1 as [|[i|l] l1 IH]; intros g; simpl.
  - reflexivity.
  - destruct (instr g i) as [g1|e]; simpl; [apply IH|reflexivity].
  - apply IH.
Qed.

Lemma gen_stmts_instr (g g' : gen) (s : stmt) (rest : list stmt) (n : string) :
  has_name n s -> gen_stmts g (s :: rest) = Ok g' ->
  exists i g1, s = StmtInstr i /\ name i = n /\ instr g i = Ok g1
               /\ gen_stmts g1 rest = Ok g'.
Proof.
  destruct s as [i|l]; [|done]. simpl. intros Hn H.
  apply bind_Ok_inv in H as (g1 & H1 & H2). eauto 6.
Qed.

(** A matched sequence of statements leaves the loop stack as it found
    it. *)
Lemma matched_stack (stmts : list stmt) :
  matched stmts ->
  forall g g', gen_stmts g stmts = Ok g' -> loopStarts g' = loopStarts g.
Proof.
  induction 1 as [ | s rest Hs _ IHrest
                 | w body e rest Hw He _ IHbody _ IHrest
                 | i body e rest Hi He _ IHbody _ IHrest
                 | i body1 el body2 e rest Hi Hel He _ IH1 _ IH2 _ IHrest ];
    intros g g' H.
  - by injection H as <-.
  - destruct s as [i|l]; simpl in H.
    + apply bind_Ok_inv in H as (g1 & H1 & H2).
      rewrite (IHrest _ _ H2). by apply (plain_stack g g1 i).
    + by rewrite (IHrest _ _ H).
  - apply (gen_stmts_instr _ _ _ _ _ Hw) in H as (iw & g1 & _ & Hnw & H1 & H).
    rewrite gen_stmts_app in H. apply bind_Ok_inv in H as (g2 & H2 & H).
    apply (gen_stmts_instr _ _ _ _ _ He) in H as (ie & g3 & _ & Hne & H3 & H).
    rewrite (IHrest _ _ H).
    apply (while_stack _ _ _ Hnw) in H1 as [v Hv].
    apply (endwhile_stack _ _ _ Hne) in H3 as [v' Hv'].
    rewrite (IHbody _ _ H2), Hv in Hv'.
    by apply app_inj_tail in Hv' as [-> _].
  - apply (gen_stmts_instr _ _ _ _ _ Hi) in H as (ii & g1 & _ & Hni & H1 & H).
    rewrite gen_stmts_app in H. apply bind_Ok_inv in H as (g2 & H2 & H).
    apply (gen_stmts_instr _ _ _ _ _ He) in H as (ie & g3 & _ & Hne & H3 & H).
    rewrite (IHrest _ _ H).
    apply (if_stack _ _ _ Hni) in H1 as (c & j & Hv).
    apply (endif_stack _ _ _ Hne) in H3 as (c' & j' & Hv').
    rewrite (IHbody _ _ H2), Hv in Hv'.
    apply app_inj_tail in Hv' as [Hv' _].
    by apply app_inj_tail in Hv' as [-> _].
  - apply (gen_stmts_instr _ _ _ _ _ Hi) in H as (ii & g1 & _ & Hni & H1 & H).
    rewrite gen_stmts_app in H. apply bind_Ok_inv in H as (g2 & H2 & H).
    apply (gen_stmts_instr _ _ _ _ _ Hel) in H as (il & g3 & _ & Hnl & H3 & H).
    rewrite gen_stmts_app in H. apply bind_Ok_inv in H as (g4 & H4 & H).
    apply (gen_stmts_instr _ _ _ _ _ He) in H as (ie & g5 & _ & Hne & H5 & H).
    rewrite (IHrest _ _ H).
    apply (if_stack _ _ _ Hni) in H1 as (c & j & Hv).
    apply (else_stack _ _ _ Hnl) in H3.
    apply (endif_stack _ _ _ Hne) in H5 as (c' & j' & Hv').
    rewrite (IH2 _ _ H4), H3, (IH1 _ _ H2), Hv in Hv'.
    apply app_inj_tail in Hv' as [Hv' _].
    by apply app_inj_tail in Hv' as [-> _].
Qed.

(** On the empty loop stack an instruction that closes or continues a
    construct panics: the pop indexes the stack at -1. *)
Lemma closer_underflow (g : gen) (i : stmtInstr) :
  loopStarts g = [] -> closer i -> is_Panic (instr g i).
Proof.
  intros Hnil. destruct i as [n d s]. unfold closer. cbn [name].
  pose proof (popLoopStart_nil g Hnil) as Hpop.
  rewrite !elem_of_cons, elem_of_nil.
  intros [->|[->|[->|[]]]]; unfold instr; cbn.
  - destruct d as [[id|v|e]|];
      try (unfold loopEnd; rewrite Hpop; by eexists).
    cbn. destruct (int g e) as [[v|id]|err]; cbn; try by eexists.
    rewrite Hpop. by eexists.
  - rewrite Hpop. by eexists.
  - rewrite Hpop. by eexists.
Qed.

Lemma closer_index_panic (g : gen) (n : string) :
  loopStarts g = [] -> n ∈ ["endwhile"; "else"; "endif"] ->
  instr g (mkInstr n None None) = Panic IndexOutOfRange.
Proof.
  intros Hnil. pose proof (popLoopStart_nil g Hnil) as Hpop.
  rewrite !elem_of_cons, elem_of_nil.
  intros [->|[->|[->|[]]]]; unfold instr; cbn;
    unfold loopEnd; by rewrite Hpop.
Qed.

Lemma unmatched_closer_fails (pre rest : list stmt) (i : stmtInstr) :
  matched pre -> closer i ->
  is_Panic (generate (pre ++ StmtInstr i :: rest)).
Proof.
  intros Hm Hc. unfold generate. rewrite gen_stmts_app.
  destruct (gen_stmts new_gen pre) as [g1|e] eqn:Hpre; [|by eexists].
  apply (matched_stack _ Hm) in Hpre. cbn [mbind result_bind gen_stmts].
  destruct (closer_underflow g1 i Hpre Hc) as [e ->]. by eexists.
Qed.

(** *** Generation succeeds on matched constructs with literal operands *)

Lemma int_literal (g : gen) (v : Z) : int g (exprInt v) = Ok (inl v).
Proof. unfold int. by destruct (size (labelTable g)). Qed.

Lemma addr_of_literal (g : gen) (x : option expr) (msg : string) :
  literal_addr x -> exists a, addr_of g x msg = Ok a.
Proof.
  intros [a ->]. exists a. unfold addr_of. by rewrite int_literal.
Qed.

Lemma times_of_literal (g : gen) (x : option expr) :
  literal_count x -> exists n, times_of g x = Ok n.
Proof.
  intros [->|[n ->]]; unfold times_of; [by eexists|].
  rewrite int_literal. by eexists.
Qed.

(** The operands of an instruction whose name is known. *)
Ltac by_name Hn Hlit :=
  cbn [literal_operands name dst src] in Hlit; rewrite Hn in Hlit;
  rewrite ?elem_of_cons, ?elem_of_nil in Hlit;
  intuition (try congruence; eauto).

Lemma plain_succeeds (g : gen) (i : stmtInstr) :
  plain (StmtInstr i) -> literal_operands (StmtInstr i) ->
  exists g', instr g i = Ok g'.
Proof.
  destruct i as [n d s]. unfold plain. cbn [name].
  rewrite !elem_of_cons, elem_of_nil.
  intros [Hn|[Hn|[Hn|[Hn|[Hn|[Hn|[]]]]]]] Hlit.
  1, 2:
    assert (Hd : literal_addr d /\ literal_count s) by by_name Hn Hlit;
    destruct Hd as [[a ->] [->|[t ->]]]; subst n; unfold instr; cbn;
    rewrite ?int_literal; cbn; rewrite ?int_literal; by eexists.
  1, 2, 3:
    assert (Hd : literal_addr d) by by_name Hn Hlit;
    destruct Hd as [a ->]; subst n; unfold instr; cbn;
    rewrite ?int_literal; by eexists.
  exfalso. by_name Hn Hlit.
Qed.

Lemma while_succeeds (g : gen) (i : stmtInstr) :
  name i = "while"%string -> literal_operands (StmtInstr i) ->
  exists g', instr g i = Ok g'.
Proof.
  destruct i as [n d s]. cbn [name]. intros Hn Hlit.
  assert (Hd : literal_addr d)
    by by_name Hn Hlit.
  destruct Hd as [a ->]. subst n. unfold instr. cbn.
  rewrite int_literal. by eexists.
Qed.

Lemma if_succeeds (g : gen) (i : stmtInstr) :
  name i = "if"%string -> literal_operands (StmtInstr i) ->
  exists g', instr g i = Ok g'.
Proof.
  destruct i as [n d s]. cbn [name]. intros Hn Hlit.
  assert (Hd : literal_addr d /\ literal_addr s)
    by by_name Hn Hlit.
  destruct Hd as [[a ->] [b ->]].
  subst n. unfold instr. cbn. rewrite !int_literal. by eexists.
Qed.

Lemma endwhile_succeeds (g : gen) (i : stmtInstr) (l : list Z) (x : Z) :
  name i = "endwhile"%string -> literal_operands (StmtInstr i) ->
  loopStarts g = l ++ [x] -> exists g', instr g i = Ok g'.
Proof.
  destruct i as [n d s]. cbn [name]. intros Hn Hlit Hst.
  assert (Hd : d = None \/ literal_addr d)
    by by_name Hn Hlit.
  pose proof (popLoopStart_snoc g l x Hst) as Hpop.
  subst n. unfold instr. cbn.
  destruct Hd as [->|[a ->]].
  - unfold loopEnd. rewrite Hpop. by eexists.
  - cbn. rewrite int_literal. cbn. rewrite Hpop. by eexists.
Qed.

Lemma else_succeeds (g : gen) (i : stmtInstr) (l : list Z) (c j : Z) :
  name i = "else"%string ->
  loopStarts g = (l ++ [c]) ++ [j] -> exists g', instr g i = Ok g'.
Proof.
  destruct i as [n d s]. cbn [name]. intros -> Hst.
  unfold instr. cbn.
  rewrite (popLoopStart_snoc g _ _ Hst). cbn.
  rewrite (popLoopStart_snoc (set_loopStarts g (l ++ [c])) l c) by done.
  by eexists.
Qed.

Lemma endif_succeeds (g : gen) (i : stmtInstr) (l : list Z) (c j : Z) :
  name i = "endif"%string ->
  loopStarts g = (l ++ [c]) ++ [j] -> exists g', instr g i = Ok g'.
Proof.
  destruct i as [n d s]. cbn [name]. intros -> Hst.
  unfold instr. cbn.
  rewrite (popLoopStart_snoc g _ _ Hst). cbn.
  rewrite (popLoopStart_snoc (set_loopStarts g (l ++ [c])) l c) by done.
  by eexists.
Qed.

Lemma has_name_instr (n : string) (s : stmt) :
  has_name n s -> exists i, s = StmtInstr i /\ name i = n.
Proof. destruct s as [i|l]; [eauto|done]. Qed.

(** Matched constructs with literal operands are generated to the end. *)
Lemma matched_succeeds (stmts : list stmt) :
  matched stmts -> Forall literal_operands stmts ->
  forall g, exists g', gen_stmts g stmts = Ok g'.
Proof.
  induction 1 as [ | s rest Hs _ IHrest
                 | w body e rest Hw He Hbody IHbody _ IHrest
                 | i body e rest Hi He Hbody IHbody _ IHrest
                 | i body1 el body2 e rest Hi Hel He Hb1 IH1 Hb2 IH2 _ IHrest ];
    intros Hlit g.
  - by eexists.
  - apply Forall_cons in Hlit as [Hl Hlit].
    destruct s as [i|l]; simpl.
    + destruct (plain_succeeds g i Hs Hl) as [g1 ->]. by apply IHrest.
    + by apply IHrest.
  - apply Forall_cons in Hlit as [Hlw Hlit].
    apply Forall_app in Hlit as [Hlb Hlit].
    apply Forall_cons in Hlit as [Hle Hlr].
    apply has_name_instr in Hw as (iw & -> & Hnw).
    apply has_name_instr in He as (ie & -> & Hne).
    destruct (while_succeeds g iw Hnw Hlw) as [g1 H1].
    destruct (IHbody Hlb g1) as [g2 H2].
    destruct (while_stack _ _ _ Hnw H1) as [v Hv].
    pose proof (matched_stack _ Hbody _ _ H2) as Hst. rewrite Hv in Hst.
    destruct (endwhile_succeeds g2 ie _ _ Hne Hle Hst) as [g3 H3].
    destruct (IHrest Hlr g3) as [g4 H4].
    exists g4. simpl. rewrite H1. cbn [mbind result_bind].
    rewrite gen_stmts_app, H2. simpl. by rewrite H3.
  - apply Forall_cons in Hlit as [Hli Hlit].
    apply Forall_app in Hlit as [Hlb Hlit].
    apply Forall_cons in Hlit as [Hle Hlr].
    apply has_name_instr in Hi as (ii & -> & Hni).
    apply has_name_instr in He as (ie & -> & Hne).
    destruct (if_succeeds g ii Hni Hli) as [g1 H1].
    destruct (IHbody Hlb g1) as [g2 H2].
    destruct (if_stack _ _ _ Hni H1) as (c & j & Hv).
    pose proof (matched_stack _ Hbody _ _ H2) as Hst. rewrite Hv in Hst.
    destruct (endif_succeeds g2 ie _ _ _ Hne Hst) as [g3 H3].
    destruct (IHrest Hlr g3) as [g4 H4].
    exists g4. simpl. rewrite H1. cbn [mbind result_bind].
    rewrite gen_stmts_app, H2. simpl. by rewrite H3.
  - apply Forall_cons in Hlit as [Hli Hlit].
    apply Forall_app in Hlit as [Hlb1 Hlit].
    apply Forall_cons in Hlit as [Hll Hlit].
    apply Forall_app in Hlit as [Hlb2 Hlit].
    apply Forall_cons in Hlit as [Hle Hlr].
    apply has_name_instr in Hi as (ii & -> & Hni).
    apply has_name_instr in Hel as (il & -> & Hnl).
    apply has_name_instr in He as (ie & -> & Hne).
    destruct (if_succeeds g ii Hni Hli) as [g1 H1].
    destruct (IH1 Hlb1 g1) as [g2 H2].
    destruct (if_stack _ _ _ Hni H1) as (c & j & Hv).
    pose proof (matched_stack _ Hb1 _ _ H2) as Hst. rewrite Hv in Hst.
    destruct (else_succeeds g2 il _ _ _ Hnl Hst) as [g3 H3].
    pose proof (else_stack _ _ _ Hnl H3) as Hst3. rewrite Hst in Hst3.
    destruct (IH2 Hlb2 g3) as [g4 H4].
    pose proof (matched_stack _ Hb2 _ _ H4) as Hst4. rewrite Hst3 in Hst4.
    destruct (endif_succeeds g4 ie _ _ _ Hne Hst4) as [g5 H5].
    destruct (IHrest Hlr g5) as [g6 H6].
    exists g6. simpl. rewrite H1. cbn [mbind result_bind].
    rewrite gen_stmts_app, H2. simpl. rewrite H3. cbn [mbind result_bind].
    rewrite gen_stmts_app, H4. simpl. by rewrite H5.
Qed.

(** *** C8 *)

(** C8. A matched sequence of statements (every [while] with its
    [endwhile], every [if] with its [endif] and at most one [else]
    between, nested at will) leaves the loop stack at the depth it found
    it, indeed with the same entries, and with literal operands it is
    generated to the end.  An [endwhile], [else] or [endif] met on the
    empty loop stack panics, and so does [generate] on a program in which
    one follows matched statements: no text is returned. *)
Theorem loop_stack_depth_is_restored :
  (forall (stmts : list stmt) (g g' : gen),
     matched stmts -> gen_stmts g stmts = Ok g' ->
     length (loopStarts g') = length (loopStarts g)
     /\ loopStarts g' = loopStarts g) /\
  (forall (stmts : list stmt) (g : gen),
     matched stmts -> Forall literal_operands stmts ->
     exists g', gen_stmts g stmts = Ok g') /\
  (forall (g : gen) (i : stmtInstr),
     loopStarts g = [] -> closer i -> is_Panic (instr g i)) /\
  (forall (g : gen) (n : string),
     loopStarts g = [] -> n ∈ ["endwhile"; "else"; "endif"] ->
     instr g (mkInstr n None None) = Panic IndexOutOfRange) /\
  (forall (pre rest : list stmt) (i : stmtInstr),
     matched pre -> closer i ->
     is_Panic (generate (pre ++ StmtInstr i :: rest))).
Proof.
  split; [|split; [|split; [|split]]].
  - intros stmts g g' Hm H. pose proof (matched_stack _ Hm _ _ H) as Hst.
    split; [by rewrite Hst|done].
  - intros stmts g Hm Hl. by apply matched_succeeds.
  - apply closer_underflow.
  - apply closer_index_panic.
  - intros pre rest i. apply unmatched_closer_fails.
Qed.

Lemma loop_stack_depth_is_restored_witness :
  let w := StmtInstr (mkInstr "while" (Some (exprAddr (exprInt 1))) None) in
  let i := StmtInstr (mkInstr "inc" (Some (exprAddr (exprInt 2))) None) in
  let e := StmtInstr (mkInstr "endwhile" None None) in
  exists g',
    gen_stmts new_gen [w; i; e] = Ok g' /\
    length (loopStarts g') = length (loopStarts new_gen) /\
    loopStarts g' = loopStarts new_gen.
Proof.
  intros w i e. eexists. split; [reflexivity|].
  apply (proj1 loop_stack_depth_is_restored [w; i; e] new_gen).
  - apply (matched_while w [i] e []).
    + reflexivity.
    + reflexivity.
    + apply matched_plain; [|apply matched_nil]. simpl. apply list_elem_of_here.
    + apply matched_nil.
  - reflexivity.
Defined.

Example while_text :
  generate [StmtInstr (mkInstr "while" (Some (exprAddr (exprInt 1))) None);
            StmtInstr (mkInstr "inc" (Some (exprAddr (exprInt 2))) None);
            StmtInstr (mkInstr "endwhile" None None)] = Ok ">[>+<]"%string /\
  generate [StmtInstr (mkInstr "if" (Some (exprAddr (exprInt 0)))
                               (Some (exprAddr (exprInt 1))));
            StmtInstr (mkInstr "inc" (Some (exprAddr (exprInt 2))) None);
            StmtInstr (mkInstr "else" None None);
            StmtInstr (mkInstr "dec" (Some (exprAddr (exprInt 2))) None);
            StmtInstr (mkInstr "endif" None None)]
    = Ok ">[-]+<[[-]>[-]>+<<]>[>-<<]"%string /\
  generate [StmtInstr (mkInstr "inc" (Some (exprAddr (exprInt 2))) None);
            StmtInstr (mkInstr "endwhile" None None)]
    = Panic IndexOutOfRange.
Proof. repeat split. Qed.

End BSProofs.

(** ** Further properties of the virtual machine *)

Module VMMore.
Import VM VMSpec VMInv VMProofs.

(** *** Loading *)

Lemma is_instruction_bracket (b : Z) :
  b = chr "[" \/ b = chr "]" -> is_instruction b = true.
Proof. intros [->| ->]; reflexivity. Qed.

Lemma bracket_depth_filter (code : list Z) (depth : Z) :
  bracket_depth (filter (fun r => is_instruction r = true) code) depth
  = bracket_depth code depth.
Proof.
  revert depth. induction code as [|c code IH]; intros depth; [done|].
  rewrite filter_cons. case_decide as Hc; simpl.
  - apply IH.
  - rewrite IH. destruct (Z.eqb_spec c (chr "[")) as [->|?]; [done|].
    destruct (Z.eqb_spec c (chr "]")) as [->|?]; [done|]. reflexivity.
Qed.

Lemma filter_instruction_idemp (code : list Z) :
  filter (fun r => is_instruction r = true)
         (filter (fun r => is_instruction r = true) code)
  = filter (fun r => is_instruction r = true) code.
Proof. apply list_filter_filter_l. auto. Qed.

(** Bytes that are no instructions are commentary: the program loaded
    from a text is the program loaded from its instruction bytes alone,
    and the error, if any, is the same. *)
Theorem NewProgram_ignores_commentary (code : list Z) :
  NewProgram code = NewProgram (filter (fun r => is_instruction r = true) code).
Proof.
  unfold NewProgram, ValidateBrainfuck.
  rewrite bracket_depth_filter, filter_instruction_idemp. reflexivity.
Qed.

Lemma run_loop_not_Failed
    (ex : Z -> Program -> list Op -> result (Program * list Op))
    (fuel : nat) (p : Program) (ch : list Op) (e : error) :
  run_loop ex fuel p ch <> Failed e.
Proof.
  revert p ch. induction fuel as [|fuel IH]; intros p ch; simpl;
    destruct (Byte p (pc p)) as [i|]; try done;
    destruct (i =? 0); try done.
  destruct (step ex i p ch) as [[p' ch']|]; [apply IH|done].
Qed.

Lemma layout_lists (kept : list Z) (n : nat) :
  let m := kept ++ replicate (10 + n) 0 in
  let ds := Z.to_nat (Z.of_nat (length kept) + 10) in
  take ds m = kept ++ replicate 10 0 /\ drop ds m = replicate n 0 /\
  Z.of_nat (length m) = Z.of_nat (length kept) + 10 + Z.of_nat n.
Proof.
  cbv zeta. rewrite replicate_add, app_assoc.
  split; [|split].
  - apply take_app_length'. rewrite length_app, length_replicate. lia.
  - apply drop_app_length'. rewrite length_app, length_replicate. lia.
  - rewrite !length_app, !length_replicate. lia.
Qed.

Lemma filter_all {A} (P : A -> Prop) `{forall x, Decision (P x)} (l : list A) :
  Forall P l -> filter P l = l.
Proof.
  induction 1 as [|x l Hx _ IH]; [done|].
  by rewrite filter_cons_True, IH.
Qed.

(** A text of instruction bytes whose loops are balanced is loaded as it
    is. *)
Lemma NewProgram_accepts (code : list Z) :
  bracket_depth code 0 = 0 ->
  Forall (fun r => is_instruction r = true) code ->
  exists p, NewProgram code = inr p
            /\ CodeSection p = code ++ replicate 10 0.
Proof.
  intros Hd Hall. unfold NewProgram, ValidateBrainfuck.
  rewrite Hd, (filter_all _ _ Hall). cbn [Z.eqb negb].
  assert (Ht : 0 < tapeSize) by (unfold tapeSize; lia).
  revert Ht. generalize tapeSize. intros t Ht.
  eexists. split; [reflexivity|]. unfold CodeSection. cbn [memory dataStart].
  replace (Z.to_nat (10 + t)) with (10 + Z.to_nat t)%nat by lia.
  destruct (layout_lists code (Z.to_nat t)) as (Htake & _). exact Htake.
Qed.

(** A loaded program: the instruction bytes of the text, ten zero bytes
    that end the code section, and a data section of [tapeSize] zero
    cells; the tape pointer is on the first data cell, the program counter
    on the first byte, the registers are zero.  Its memory is never empty,
    so [Run] does not return [ErrProgramNoMemory] on it. *)
Theorem NewProgram_layout (code : list Z) (p : Program) :
  NewProgram code = inr p ->
  let kept := filter (fun r => is_instruction r = true) code in
  CodeSection p = kept ++ replicate 10 0 /\
  DataSection p = replicate (Z.to_nat tapeSize) 0 /\
  memory p = CodeSection p ++ DataSection p /\
  dataStart p = Z.of_nat (length kept) + 10 /\
  memLen p = dataStart p + tapeSize /\
  memPtr p = dataStart p /\ pc p = 0 /\
  (r8a p = 0 /\ r8b p = 0 /\ r16a p = 0 /\ r16b p = 0 /\ r32a p = 0
   /\ r32b p = 0) /\
  in_data p /\
  (forall fuel ch, Run fuel p ch <> Failed ErrProgramNoMemory).
Proof.
  unfold NewProgram, in_data.
  assert (Ht : 0 < tapeSize) by (unfold tapeSize; lia).
  revert Ht. generalize tapeSize. intros t Ht.
  destruct (ValidateBrainfuck code); [discriminate|].
  intros H. apply (inj inr) in H. subst p. cbv zeta.
  generalize (filter (fun r => is_instruction r = true) code). intros kept.
  unfold CodeSection, DataSection, Run, memLen.
  cbn [memory dataStart memPtr pc r8a r8b r16a r16b r32a r32b].
  replace (Z.to_nat (10 + t)) with (10 + Z.to_nat t)%nat by lia.
  destruct (layout_lists kept (Z.to_nat t)) as (Htake & Hdrop & Hlen).
  rewrite Htake, Hdrop, Hlen.
  split; [done|]. split; [done|]. split.
  { by rewrite replicate_add, app_assoc. }
  split; [done|]. split; [lia|]. do 3 (split; [done|]). split; [lia|].
  intros fuel ch.
  destruct (Z.eqb_spec (Z.of_nat (length kept) + 10 + Z.of_nat (Z.to_nat t)) 0)
    as [E|_]; [lia|].
  apply run_loop_not_Failed.
Qed.

Lemma NewProgram_layout_witness :
  exists p,
    NewProgram (bytes_of_string "a+b") = inr p /\
    CodeSection p = [chr "+"] ++ replicate 10 0 /\ memPtr p = 11 /\ pc p = 0.
Proof.
  assert (Hp : exists p, NewProgram (bytes_of_string "a+b") = inr p).
  { unfold NewProgram. rewrite ValidateBrainfuck_spec.
    rewrite decide_True by (vm_compute; reflexivity). by eexists. }
  destruct Hp as [p Hp]. exists p. split; [exact Hp|].
  destruct (NewProgram_layout (bytes_of_string "a+b") p Hp)
    as (Hc & _ & _ & Hd & _ & Hm & Hpc & _).
  split; [exact Hc|]. split; [|exact Hpc]. rewrite Hm, Hd. reflexivity.
Defined.

(** *** What a turn keeps *)

Lemma keeps_refl (p : Program) : keeps p p.
Proof. split; [by repeat split|auto]. Qed.

Lemma keeps_trans (p q r : Program) : keeps p q -> keeps q r -> keeps p r.
Proof.
  intros ((L1 & D1 & C1) & W1) ((L2 & D2 & C2) & W2).
  split; [repeat split; congruence|auto].
Qed.

Lemma keeps_set_pc (p : Program) (v : Z) : keeps p (set_pc p v).
Proof. split; [by repeat split|auto]. Qed.

Lemma keeps_SetByte (p q : Program) (idx v : Z) :
  (well_formed p -> is_byte v) -> SetByte p idx v = Ok q -> keeps p q.
Proof.
  unfold SetByte. intros Hv H.
  destruct ((0 <=? idx) && (idx <? memLen p)); [|discriminate].
  injection H as <-. split.
  - repeat split. apply memLen_set_memory.
  - intros Hw. specialize (Hv Hw). destruct Hw as (Hm & Ha & Hb & Hin).
    split; [by apply Forall_insert|]. split; [exact Ha|]. split; [exact Hb|].
    unfold in_memory. rewrite memLen_set_memory. exact Hin.
Qed.

Lemma keeps_register (p q : Program) :
  memory q = memory p -> dataStart q = dataStart p ->
  clockRate q = clockRate p -> memPtr q = memPtr p ->
  (well_formed p -> is_byte (r8a q) /\ is_byte (r8b q)) -> keeps p q.
Proof.
  intros Hm Hd Hc Hp Hr. split.
  - repeat split; try done. unfold memLen. by rewrite Hm.
  - intros Hw. destruct (Hr Hw) as [Ha Hb].
    destruct Hw as (Hmem & _ & _ & Hin).
    unfold well_formed, in_memory, memLen in *. rewrite Hm, Hp. done.
Qed.

Lemma byte_mod (x : Z) : is_byte (x mod 256).
Proof. unfold is_byte. apply Z.mod_pos_bound. lia. Qed.

Lemma keeps_SetWord (p q : Program) (idx v : Z) :
  SetWord p idx v = Ok q -> keeps p q.
Proof.
  unfold SetWord. intros H. apply bind_Ok_inv in H as (p1 & H1 & H2).
  eapply keeps_trans; eapply keeps_SetByte; eauto using byte_mod.
Qed.

Lemma keeps_SetQWord (p q : Program) (idx v : Z) :
  SetQWord p idx v = Ok q -> keeps p q.
Proof.
  unfold SetQWord. intros H.
  apply bind_Ok_inv in H as (p1 & H1 & H).
  apply bind_Ok_inv in H as (p2 & H2 & H).
  apply bind_Ok_inv in H as (p3 & H3 & H4).
  eapply keeps_trans; [eapply keeps_SetByte; eauto using byte_mod|].
  eapply keeps_trans; [eapply keeps_SetByte; eauto using byte_mod|].
  eapply keeps_trans; eapply keeps_SetByte; eauto using byte_mod.
Qed.

Lemma do_moves_only_memPtr (ms : list move) (p : Program) :
  do_moves p ms = set_memPtr p (memPtr (do_moves p ms)).
Proof.
  revert p. induction ms as [|m ms IH]; intros p.
  - by destruct p.
  - unfold do_moves in *. simpl foldl. rewrite IH.
    destruct m; unfold do_move, Right, Left; simpl;
      repeat match goal with |- context [if ?c then _ else _] => destruct c end;
      reflexivity.
Qed.

Lemma keeps_do_moves (p : Program) (ms : list move) : keeps p (do_moves p ms).
Proof.
  rewrite do_moves_only_memPtr. split; [by repeat split|].
  intros (Hm & Ha & Hb & Hin).
  destruct (do_moves_spec ms p Hin) as (Hin' & Hmem & _).
  rewrite do_moves_only_memPtr in Hin'.
  split; [exact Hm|]. split; [exact Ha|]. split; [exact Hb|]. exact Hin'.
Qed.

(** The [Op] of an invoke instruction has its eight argument bytes, and
    bytes they are when the memory holds bytes. *)
Lemma invoke_op_wf (p : Program) (op : Op) :
  Forall is_byte (memory p) -> invoke_op p = Ok op -> Op_wf op.
Proof.
  intros Hm H. destruct (invoke_op_args p op 0 H) as (Hc & Hlen & _); [lia|].
  split; [by eapply Byte_is_byte|]. split; [done|].
  unfold invoke_op in H. apply bind_Ok_inv in H as (c & _ & H).
  injection H as <-. cbn [args].
  apply Forall_take, Forall_app. split.
  - by apply Forall_take, Forall_drop.
  - change [0; 0; 0; 0; 0; 0; 0; 0] with (replicate 8 0).
    apply Forall_replicate. unfold is_byte. lia.
Qed.

Lemma Op_Byte_is_byte (op : Op) (i b : Z) :
  Op_wf op -> Op_Byte op i = Ok b -> is_byte b.
Proof.
  intros (_ & _ & Hall). unfold Op_Byte.
  destruct (index (args op) (8 - i - 1)) as [x|] eqn:Hx; [|discriminate].
  intros H. injection H as <-. apply index_Some in Hx as [_ Hx].
  eapply Forall_lookup_1; eauto.
Qed.

Ltac keeps_fields :=
  repeat match goal with
    | |- context [if ?c then _ else _] => destruct c
    end;
  apply keeps_register; try reflexivity;
  intros (_ & Ha & Hb & _); cbn; eauto using Op_Byte_is_byte.

Ltac keeps_case :=
  let H := fresh "H" in
  intros H; repeat (apply bind_Ok_inv in H as (? & ? & H));
  injection H as <- <-; (split; [|by left]);
  first
    [ by (eapply keeps_SetByte; [|eassumption]; intros (_ & Ha & Hb & _))
    | by eapply keeps_SetWord
    | by eapply keeps_SetQWord
    | keeps_fields ].

(** Dispatching a well-formed [Op] keeps the frame and the well-formed
    machine, and the channel either is as before or has this very [Op],
    whose opcode is then not internal, as its new last element. *)
Lemma keeps_Program_Op (p p' : Program) (op : Op) (ch ch' : list Op) :
  Op_wf op -> Program_Op p op ch = Ok (p', ch') ->
  keeps p p' /\
  (ch' = ch \/ (ch' = ch ++ [op] /\ internal (code op) = false /\ p' = p)).
Proof.
  intros Hop. unfold Program_Op. repeat case_opcode keeps_case.
  intros H. injection H as <- <-. split; [apply keeps_refl|]. right.
  split; [done|]. split; [|done].
  unfold internal.
  unfold OpNop, OpRelJmpFwd, OpRelJmpBwd, OpR8AStore, OpR8BStore,
    OpR16AStore, OpR16BStore, OpR32AStore, OpR32BStore, OpR8ALoad, OpR8BLoad,
    OpR16ALoad, OpR16BLoad, OpR32ALoad, OpR32BLoad in *.
  repeat case_opcode lia. simpl.
  destruct (Z.leb_spec 20 (code op)), (Z.leb_spec (code op) 31);
    simpl; try done. lia.
Qed.

Lemma keeps_JumpToCloseLoop (p q : Program) :
  JumpToCloseLoop p = Ok q -> keeps p q.
Proof.
  unfold JumpToCloseLoop. destruct (0 <=? pc p); [|discriminate].
  intros H. apply bind_Ok_inv in H as (pc' & _ & H). injection H as <-.
  apply keeps_set_pc.
Qed.

Lemma keeps_JumpToOpenLoop (p q : Program) :
  JumpToOpenLoop p = Ok q -> keeps p q.
Proof.
  unfold JumpToOpenLoop. destruct (_ && _); [|discriminate].
  intros H. injection H as <-. apply keeps_set_pc.
Qed.

Ltac case_instr :=
  match goal with
  | |- context [?i =? chr ?c] => destruct (i =? chr c)
  end.

(** One [switch] of the loop. *)
Lemma exec_keeps (i : Z) (p p' : Program) (ch ch' : list Op) :
  well_formed p -> exec i p ch = Ok (p', ch') ->
  keeps p p' /\ (ch' = ch \/ exists op, ch' = ch ++ [op] /\ external op).
Proof.
  intros Hw. unfold exec. repeat case_instr.
  - intros H. apply bind_Ok_inv in H as (k & _ & H). injection H as <- <-.
    split; [|by left]. rewrite iter_Right_do_moves.
    eapply keeps_trans; [apply keeps_do_moves|apply keeps_set_pc].
  - intros H. apply bind_Ok_inv in H as (k & _ & H). injection H as <- <-.
    split; [|by left]. rewrite iter_Left_do_moves.
    eapply keeps_trans; [apply keeps_do_moves|apply keeps_set_pc].
  - intros H. apply bind_Ok_inv in H as (k & _ & H). cbv zeta in H.
    apply bind_Ok_inv in H as (n & _ & H).
    apply bind_Ok_inv in H as (q & Hq & H). injection H as <- <-.
    split; [|by left].
    eapply keeps_trans; [apply keeps_set_pc|].
    eapply keeps_SetByte; [|exact Hq]. intros _. apply byte_mod.
  - intros H. apply bind_Ok_inv in H as (k & _ & H). cbv zeta in H.
    apply bind_Ok_inv in H as (n & _ & H).
    apply bind_Ok_inv in H as (q & Hq & H). injection H as <- <-.
    split; [|by left].
    eapply keeps_trans; [apply keeps_set_pc|].
    eapply keeps_SetByte; [|exact Hq]. intros _. apply byte_mod.
  - destruct (pc p + 3 <=? memLen p); [|discriminate].
    destruct (bool_decide _).
    + intros H. apply bind_Ok_inv in H as (q & Hq & H). injection H as <- <-.
      split; [|by left].
      eapply keeps_trans; [|apply keeps_set_pc].
      eapply keeps_SetByte; [|exact Hq]. intros _. unfold is_byte. lia.
    + intros H. apply bind_Ok_inv in H as (b & _ & H).
      destruct (b =? 0).
      * apply bind_Ok_inv in H as (q & Hq & H). injection H as <- <-.
        split; [|by left]. by apply keeps_JumpToCloseLoop.
      * injection H as <- <-. split; [apply keeps_refl|by left].
  - intros H. apply bind_Ok_inv in H as (b & _ & H).
    destruct (negb (b =? 0)).
    + apply bind_Ok_inv in H as (q & Hq & H). injection H as <- <-.
      split; [|by left]. by apply keeps_JumpToOpenLoop.
    + injection H as <- <-. split; [apply keeps_refl|by left].
  - intros H. apply bind_Ok_inv in H as (op & Hop & H).
    assert (Hwf : Op_wf op) by (eapply invoke_op_wf; [apply Hw|exact Hop]).
    destruct (keeps_Program_Op _ _ _ _ _ Hwf H) as [Hk [->|(-> & Hi & _)]].
    + split; [done|by left].
    + split; [done|]. right. exists op. split; [done|]. by split.
  - intros H. injection H as <- <-. split; [apply keeps_refl|by left].
Qed.

Lemma step_keeps (i : Z) (p p' : Program) (ch ch' : list Op) :
  well_formed p -> step exec i p ch = Ok (p', ch') ->
  keeps p p' /\ (ch' = ch \/ exists op, ch' = ch ++ [op] /\ external op).
Proof.
  intros Hw. unfold step. intros H.
  apply bind_Ok_inv in H as ([q c] & Hq & H). injection H as <- <-.
  destruct (exec_keeps _ _ _ _ _ Hw Hq) as [Hk Hc]. split; [|done].
  eapply keeps_trans; [exact Hk|apply keeps_set_pc].
Qed.

(** Where the loop stops, halted or out of fuel. *)
Lemma run_loop_keeps (fuel : nat) (p p' : Program) (ch ch' : list Op) :
  well_formed p -> stopped (run_loop exec fuel p ch) p' ch' ->
  keeps p p' /\ exists new, ch' = ch ++ new /\ Forall external new.
Proof.
  revert p ch. induction fuel as [|fuel IH]; intros p ch Hw; simpl;
    destruct (Byte p (pc p)) as [i|]; try (by intros [|]);
    destruct (i =? 0);
    try (intros [H|H]; try discriminate; injection H as <- <-;
         split; [apply keeps_refl|]; exists []; by rewrite app_nil_r).
  destruct (step exec i p ch) as [[q c]|] eqn:Hs; [|by intros [|]].
  destruct (step_keeps _ _ _ _ _ Hw Hs) as [Hk Hc].
  intros Hstop. destruct (IH q c (proj2 Hk Hw) Hstop) as (Hk' & new & -> & Hnew).
  split; [by eapply keeps_trans|].
  destruct Hc as [->|(op & -> & Hop)].
  - by exists new.
  - exists (op :: new). rewrite <- app_assoc. split; [done|].
    by apply Forall_cons.
Qed.

(** A loaded program is well formed when its text is made of bytes. *)
Lemma NewProgram_well_formed (code : list Z) (p : Program) :
  Forall is_byte code -> NewProgram code = inr p -> well_formed p.
Proof.
  intros Hcode. unfold NewProgram, well_formed, in_memory, memLen.
  assert (Ht : 0 < tapeSize) by (unfold tapeSize; lia).
  revert Ht. generalize tapeSize. intros t Ht.
  destruct (ValidateBrainfuck code); [discriminate|].
  intros H. apply (inj inr) in H. subst p.
  cbn [memory memPtr r8a r8b].
  split; [|split; [|split]].
  - apply Forall_app. split.
    + apply Forall_forall. intros x Hx.
      apply list_elem_of_filter in Hx as [_ Hx].
      rewrite Forall_forall in Hcode. auto.
    + apply Forall_replicate. unfold is_byte. lia.
  - unfold is_byte. lia.
  - unfold is_byte. lia.
  - rewrite length_app, length_replicate. lia.
Qed.

Lemma run_loop_Halted_zero (fuel : nat) (p p' : Program) (ch ch' : list Op) :
  run_loop exec fuel p ch = Halted p' ch' -> Byte p' (pc p') = Ok 0.
Proof.
  revert p ch. induction fuel as [|fuel IH]; intros p ch; simpl;
    destruct (Byte p (pc p)) as [i|] eqn:Hi; try discriminate;
    destruct (Z.eqb_spec i 0) as [->|_];
    try (intros H; injection H as <- <-; exact Hi); try discriminate.
  destruct (step exec i p ch) as [[q c]|]; [apply IH|discriminate].
Qed.

Lemma stopped_Run (fuel : nat) (p p' : Program) (ch ch' : list Op) :
  stopped (Run fuel p ch) p' ch' -> stopped (run_loop exec fuel p ch) p' ch'.
Proof. unfold Run. destruct (memLen p =? 0); [by intros [|]|done]. Qed.

(** Whatever a program does, the machine it runs on stays well formed:
    wherever [Run] stops, the memory has the length it had and holds
    bytes, the data section starts where it did, the tape pointer is
    inside the memory; and when [Run] returns, the program counter is on
    a zero byte.  The machine [NewProgram] makes from a text of bytes is
    well formed. *)
Theorem Run_keeps_machine_well_formed :
  (forall (fuel : nat) (p p' : Program) (ch ch' : list Op),
     well_formed p -> stopped (Run fuel p ch) p' ch' ->
     well_formed p' /\ same_frame p p' /\
     (Run fuel p ch = Halted p' ch' -> Byte p' (pc p') = Ok 0)) /\
  (forall (code : list Z) (p : Program),
     Forall is_byte code -> NewProgram code = inr p -> well_formed p).
Proof.
  split.
  - intros fuel p p' ch ch' Hw Hs.
    destruct (run_loop_keeps fuel p p' ch ch' Hw (stopped_Run _ _ _ _ _ Hs))
      as [[Hf Hk] _].
    split; [auto|]. split; [done|].
    unfold Run. destruct (memLen p =? 0); [discriminate|].
    apply run_loop_Halted_zero.
  - apply NewProgram_well_formed.
Qed.

Lemma Run_keeps_machine_well_formed_witness :
  let p := mkProgram [43; 43; 0; 254] 3 0 0 0 0 0 0 0 0 3 in
  let p' := mkProgram [43; 43; 0; 1] 3 0 2 0 0 0 0 0 0 3 in
  well_formed p' /\ same_frame p p' /\
  (Run 3 p [] = Halted p' [] -> Byte p' (pc p') = Ok 0).
Proof.
  apply (proj1 Run_keeps_machine_well_formed 3%nat
           (mkProgram [43; 43; 0; 254] 3 0 0 0 0 0 0 0 0 3)
           (mkProgram [43; 43; 0; 1] 3 0 2 0 0 0 0 0 0 3) [] []).
  - unfold well_formed, in_memory, memLen, is_byte. simpl.
    repeat split; try lia. repeat constructor; lia.
  - left. reflexivity.
Defined.

(** The consumer only ever receives what it can interpret: whatever a
    program does, [Run] leaves on the channel what was there before,
    followed by [Op]s that each have eight argument bytes and an opcode
    outside the internal table (not 0, 1, 2 or 20 to 31). *)
Theorem Run_sends_only_external_ops
  (fuel : nat) (p p' : Program) (ch ch' : list Op) :
  well_formed p -> stopped (Run fuel p ch) p' ch' ->
  exists new, ch' = ch ++ new /\ Forall external new.
Proof.
  intros Hw Hs.
  by destruct (run_loop_keeps fuel p p' ch ch' Hw (stopped_Run _ _ _ _ _ Hs)).
Qed.

Lemma Run_sends_only_external_ops_witness :
  exists new,
    [mkOp 41 [1; 2; 3; 4; 5; 6; 7; 8]] = [] ++ new /\ Forall external new.
Proof.
  apply (Run_sends_only_external_ops 2%nat
           (mkProgram [46; 0; 1; 2; 3; 4; 5; 6; 7; 8; 41; 0] 2 0 0
                      0 0 0 0 0 0 10)
           (mkProgram [46; 0; 1; 2; 3; 4; 5; 6; 7; 8; 41; 0] 2 0 1
                      0 0 0 0 0 0 10)).
  - unfold well_formed, in_memory, memLen, is_byte. simpl.
    repeat split; try lia. repeat constructor; lia.
  - left. reflexivity.
Defined.

(** *** Loops *)

Lemma close_scan_byte (b : Z) (l : list Z) (d pc : Z) :
  b <> 0 -> b <> chr "[" -> b <> chr "]" ->
  close_scan (b :: l) d pc = close_scan l d (pc + 1).
Proof.
  intros H0 Ho Hc. simpl.
  destruct (Z.eqb_spec b 0); [done|].
  destruct (Z.eqb_spec b (chr "[")); [done|].
  destruct (Z.eqb_spec b (chr "]")); [done|]. reflexivity.
Qed.

Lemma open_scan_byte (b : Z) (l : list Z) (d pc : Z) :
  b <> 0 -> b <> chr "[" -> b <> chr "]" ->
  open_scan (b :: l) d pc = open_scan l d (pc - 1).
Proof.
  intros H0 Ho Hc. simpl.
  destruct (Z.eqb_spec b 0); [done|].
  destruct (Z.eqb_spec b (chr "]")); [done|].
  destruct (Z.eqb_spec b (chr "[")); [done|]. reflexivity.
Qed.

(** Scanning forward at depth 1 or more passes over well-nested text. *)
Lemma close_scan_nested (body : list Z) :
  nested body ->
  forall (rest : list Z) (d pc : Z), 1 <= d ->
    close_scan (body ++ rest) d pc
    = close_scan rest d (pc + Z.of_nat (length body)).
Proof.
  induction 1 as [|b l H0 Ho Hc _ IH|body l _ IHb _ IHl]; intros rest d pc Hd.
  - simpl. f_equal. lia.
  - cbn [app]. rewrite close_scan_byte by done. rewrite IH by done.
    f_equal. simpl length. lia.
  - cbn [app]. rewrite <- app_assoc. cbn [app].
    change (close_scan (chr "[" :: ?x) d pc) with (close_scan x (d + 1) (pc + 1)).
    rewrite IHb by lia.
    change (close_scan (chr "]" :: ?x) ?e ?q)
      with (if e - 1 <=? 0 then Ok q else close_scan x (e - 1) (q + 1)).
    destruct (Z.leb_spec (d + 1 - 1) 0); [lia|].
    rewrite IHl by lia. f_equal; [lia|].
    rewrite length_cons, length_app, length_cons. lia.
Qed.

(** Scanning backward at depth 1 or more passes over well-nested text. *)
Lemma open_scan_nested (body : list Z) :
  nested body ->
  forall (rest : list Z) (d pc : Z), 1 <= d ->
    open_scan (reverse body ++ rest) d pc
    = open_scan rest d (pc - Z.of_nat (length body)).
Proof.
  induction 1 as [|b l H0 Ho Hc _ IH|body l _ IHb _ IHl]; intros rest d pc Hd.
  - simpl. f_equal. lia.
  - rewrite reverse_cons, <- app_assoc. cbn [app]. rewrite IH by done.
    rewrite open_scan_byte by done. f_equal. simpl length. lia.
  - rewrite reverse_cons, reverse_app, reverse_cons, <- !app_assoc.
    cbn [app]. rewrite IHl by done.
    change (open_scan (chr "]" :: ?x) ?e ?q) with (open_scan x (e + 1) (q - 1)).
    rewrite IHb by lia.
    change (open_scan (chr "[" :: ?x) ?e ?q)
      with (if e - 1 <=? 0 then q else open_scan x (e - 1) (q - 1)).
    destruct (Z.leb_spec (d + 1 - 1) 0); [lia|].
    f_equal; [lia|].
    rewrite length_cons, length_app, length_cons. lia.
Qed.

(** From a loop-open byte the forward scan stops on the loop-close byte
    that matches it. *)
Lemma close_scan_loop (body rest : list Z) (pc : Z) :
  nested body ->
  close_scan (chr "[" :: body ++ chr "]" :: rest) 0 pc
  = Ok (pc + 1 + Z.of_nat (length body)).
Proof.
  intros Hn.
  change (close_scan (chr "[" :: ?x) 0 pc) with (close_scan x (0 + 1) (pc + 1)).
  rewrite close_scan_nested by (done || lia). reflexivity.
Qed.

(** From a loop-close byte the backward scan stops on the loop-open byte
    that matches it. *)
Lemma open_scan_loop (body rest : list Z) (pc : Z) :
  nested body ->
  open_scan (chr "]" :: reverse body ++ chr "[" :: rest) 0 pc
  = pc - 1 - Z.of_nat (length body).
Proof.
  intros Hn.
  change (open_scan (chr "]" :: ?x) 0 pc) with (open_scan x (0 + 1) (pc - 1)).
  rewrite open_scan_nested by (done || lia). reflexivity.
Qed.

Lemma nested_not_close (l : list Z) : ~ nested (chr "]" :: l).
Proof. intros H. inversion H as [|b l' H0 Ho Hc|]; subst. done. Qed.

Lemma set_memory_id (p : Program) : set_memory p (memory p) = p.
Proof. by destruct p. Qed.

Lemma exec_close (p : Program) (ch : list Op) :
  exec (chr "]") p ch =
  b ← Byte p (memPtr p);
  if negb (b =? 0) then p ← JumpToOpenLoop p; Ok (p, ch) else Ok (p, ch).
Proof. reflexivity. Qed.

(** Loops over well-nested text.  On a zero cell the loop-open byte takes
    the program counter past the loop-close byte that matches it; on a
    cell that is not zero the loop-close byte takes it back to the first
    byte of the body, after the loop-open byte that matches it.  Neither
    touches memory, tape pointer or channel. *)
Theorem loops_jump_to_their_match
  (p : Program) (ch : list Op) (pre body post : list Z) :
  memory p = pre ++ chr "[" :: body ++ chr "]" :: post -> nested body ->
  let open := Z.of_nat (length pre) in
  let close := open + 1 + Z.of_nat (length body) in
  (pc p = open -> Byte p (memPtr p) = Ok 0 ->
   (1 <= length body + length post)%nat ->
   step exec (chr "[") p ch = Ok (set_pc p (close + 1), ch)) /\
  (forall v, pc p = close -> Byte p (memPtr p) = Ok v -> v <> 0 ->
   step exec (chr "]") p ch = Ok (set_pc p (open + 1), ch)).
Proof.
  intros Hm Hn. cbv zeta. split.
  - intros Hpc Hv Hlen. unfold step. rewrite exec_open.
    assert (Hahead : ahead p = chr "[" :: body ++ chr "]" :: post).
    { unfold ahead. rewrite Hpc, Hm, Nat2Z.id. apply drop_app_length. }
    destruct (Z.leb_spec (pc p + 3) (memLen p)) as [_|Hlt].
    2: { unfold memLen in Hlt. rewrite Hm, length_app, length_cons,
           length_app, length_cons in Hlt. lia. }
    rewrite Hahead. case_bool_decide as Hidiom.
    + assert (body = [chr "-"]) as ->.
      { destruct body as [|b [|b' body]]; cbn in Hidiom.
        - destruct post; discriminate.
        - by injection Hidiom as ->.
        - injection Hidiom as -> ->. inversion Hn as [|? ? _ _ _ Hn'|]; subst.
          by apply nested_not_close in Hn'. }
      pose proof (Byte_in_range _ _ _ Hv) as Hr.
      rewrite SetByte_Ok by done. cbn [mbind result_bind].
      rewrite list_insert_id by (apply Byte_Ok, index_Some in Hv; apply Hv).
      rewrite set_memory_id. destruct p; simpl in *. do 2 f_equal. f_equal. lia.
    + rewrite Hv. cbn [mbind result_bind]. change (0 =? 0) with true. cbv iota.
      unfold JumpToCloseLoop. destruct (Z.leb_spec 0 (pc p)); [|lia].
      fold (ahead p). rewrite Hahead, close_scan_loop by done.
      cbn [mbind result_bind]. destruct p; simpl in *. do 2 f_equal.
      f_equal. lia.
  - intros v Hpc Hv Hnz. unfold step. rewrite exec_close, Hv.
    cbn [mbind result_bind]. destruct (Z.eqb_spec v 0); [done|]. cbn [negb].
    unfold JumpToOpenLoop, memLen.
    assert (Hlen : Z.of_nat (length (memory p))
                   = pc p + 1 + Z.of_nat (length post)).
    { rewrite Hm, length_app, length_cons, length_app, length_cons. lia. }
    destruct (Z.leb_spec 0 (pc p)); [|lia].
    destruct (Z.ltb_spec (pc p) (Z.of_nat (length (memory p)))); [|lia].
    cbn [andb].
    assert (Htake : take (S (Z.to_nat (pc p))) (memory p)
                    = pre ++ chr "[" :: body ++ [chr "]"]).
    { rewrite Hm.
      replace (pre ++ chr "[" :: body ++ chr "]" :: post)
        with ((pre ++ chr "[" :: body ++ [chr "]"]) ++ post)
        by (rewrite <- app_assoc; cbn [app]; by rewrite <- app_assoc).
      apply take_app_length'.
      rewrite length_app, length_cons, length_app, length_cons. simpl. lia. }
    rewrite Htake, reverse_app, reverse_cons, reverse_app, <- !app_assoc.
    change (reverse [chr "]"] ++ reverse body ++ [chr "["] ++ reverse pre)
      with (chr "]" :: reverse body ++ chr "[" :: reverse pre).
    rewrite open_scan_loop by done.
    cbn [mbind result_bind]. destruct p; simpl in *. do 2 f_equal.
    f_equal. lia.
Qed.

Lemma loops_jump_to_their_match_witness :
  let p := mkProgram [43; 91; 62; 43; 93; 0; 0; 0] 5 0 1 0 0 0 0 0 0 6 in
  (pc p = 1 -> Byte p (memPtr p) = Ok 0 ->
   (1 <= length [62; 43] + length [0; 0; 0])%nat ->
   step exec (chr "[") p [] = Ok (set_pc p (1 + 1 + 2 + 1), [])) /\
  (forall v, pc p = 1 + 1 + 2 -> Byte p (memPtr p) = Ok v -> v <> 0 ->
   step exec (chr "]") p [] = Ok (set_pc p (1 + 1), [])).
Proof.
  apply (loops_jump_to_their_match
           (mkProgram [43; 91; 62; 43; 93; 0; 0; 0] 5 0 1 0 0 0 0 0 0 6)
           [] [43] [62; 43] [0; 0; 0]).
  - reflexivity.
  - apply nested_byte; [discriminate..|].
    apply nested_byte; [discriminate..|]. apply nested_nil.
Defined.

(** *** Jumps stay inside the memory *)

Lemma close_scan_bounds (l : list Z) :
  forall (d pc pc' : Z),
    close_scan l d pc = Ok pc' -> pc <= pc' < pc + Z.of_nat (length l).
Proof.
  induction l as [|b l IH]; intros d pc pc'; simpl; [discriminate|].
  destruct (b =? 0); [intros H; injection H as <-; lia|].
  destruct (b =? chr "["); [intros H; apply IH in H; lia|].
  destruct (b =? chr "]"); [|intros H; apply IH in H; lia].
  destruct (d - 1 <=? 0); [intros H; injection H as <-; lia|].
  intros H; apply IH in H; lia.
Qed.

Lemma open_scan_bounds (l : list Z) :
  forall (d pc : Z),
    0 <= pc -> Z.of_nat (length l) <= pc + 1 -> 0 <= open_scan l d pc <= pc.
Proof.
  induction l as [|b l IH]; intros d pc Hpc Hlen; simpl; [lia|].
  simpl in Hlen.
  assert (Hrec : forall d', 0 <= open_scan l d' (pc - 1) <= pc).
  { intros d'. destruct l as [|b' l']; [simpl; lia|].
    simpl length in Hlen.
    destruct (IH d' (pc - 1)); [lia|simpl length; lia|lia]. }
  destruct (b =? 0); [lia|].
  destruct (b =? chr "]"); [apply Hrec|].
  destruct (b =? chr "["); [|apply Hrec].
  destruct (d - 1 <=? 0); [lia|apply Hrec].
Qed.

Lemma rel_jump_clamps (p : Program) (op : Op) (ch : list Op) (b : Z) :
  Op_Byte op 0 = Ok b ->
  (code op = OpRelJmpFwd ->
   Program_Op p op ch
   = Ok (set_pc p (Z.min (pc p + b) (memLen p - 1)), ch)) /\
  (code op = OpRelJmpBwd ->
   Program_Op p op ch = Ok (set_pc p (Z.max (pc p - b) 0), ch)).
Proof.
  intros Hb. split; intros Hc.
  - dispatch Hc. rewrite Hb. cbn [mbind result_bind]. cbn [pc].
    change (pc (set_pc p (pc p + b))) with (pc p + b).
    change (memLen (set_pc p (pc p + b))) with (memLen p).
    destruct (Z.leb_spec (memLen p) (pc p + b)); unfold memLen in *;
      destruct p; simpl in *; do 2 f_equal; f_equal; lia.
  - dispatch Hc. rewrite Hb. cbn [mbind result_bind]. cbn [pc].
    change (pc (set_pc p (pc p - b))) with (pc p - b).
    destruct (Z.ltb_spec (pc p - b) 0); destruct p; simpl in *;
      do 2 f_equal; f_equal; lia.
Qed.

(** No jump leaves the memory.  The scan for a loop-close byte, where it
    does not panic, moves the program counter forward and keeps it inside
    the memory; the scan for a loop-open byte never panics and moves it
    backward, to 0 at the least; a relative jump forward stops at the
    last byte of the memory and a relative jump backward at the first.
    None of them changes anything but the program counter. *)
Theorem jumps_stay_in_memory :
  (forall p q : Program,
     JumpToCloseLoop p = Ok q ->
     pc p <= pc q < memLen p /\ q = set_pc p (pc q)) /\
  (forall p : Program,
     0 <= pc p < memLen p ->
     exists q, JumpToOpenLoop p = Ok q /\ 0 <= pc q <= pc p
               /\ q = set_pc p (pc q)) /\
  (forall (p : Program) (op : Op) (ch : list Op) (b : Z),
     Op_Byte op 0 = Ok b ->
     (code op = OpRelJmpFwd ->
      Program_Op p op ch
      = Ok (set_pc p (Z.min (pc p + b) (memLen p - 1)), ch)) /\
     (code op = OpRelJmpBwd ->
      Program_Op p op ch = Ok (set_pc p (Z.max (pc p - b) 0), ch))).
Proof.
  split; [|split].
  - intros p q. unfold JumpToCloseLoop.
    destruct (Z.leb_spec 0 (pc p)) as [Hpos|]; [|discriminate].
    intros H. apply bind_Ok_inv in H as (pc' & Hs & H). injection H as <-.
    apply close_scan_bounds in Hs. rewrite length_drop in Hs.
    simpl. split; [unfold memLen; lia|done].
  - intros p Hpc. unfold JumpToOpenLoop.
    destruct (Z.leb_spec 0 (pc p)); [|lia].
    destruct (Z.ltb_spec (pc p) (memLen p)); [|lia]. cbn [andb].
    eexists. split; [reflexivity|]. simpl. split; [|done].
    apply open_scan_bounds; [lia|].
    rewrite length_reverse, length_take. lia.
  - apply rel_jump_clamps.
Qed.

Lemma jumps_stay_in_memory_witness :
  let p := mkProgram [91; 43; 93; 0; 0] 4 0 2 0 0 0 0 0 0 4 in
  exists q, JumpToOpenLoop p = Ok q /\ 0 <= pc q <= pc p
            /\ q = set_pc p (pc q).
Proof.
  apply (proj1 (proj2 jumps_stay_in_memory)
           (mkProgram [91; 43; 93; 0; 0] 4 0 2 0 0 0 0 0 0 4)).
  unfold memLen. simpl. lia.
Defined.

Lemma run_loop_S (ex : Z -> Program -> list Op -> result (Program * list Op))
    (fuel : nat) (p q : Program) (ch c : list Op) (i : Z) :
  Byte p (pc p) = Ok i -> i <> 0 -> step ex i p ch = Ok (q, c) ->
  run_loop ex (S fuel) p ch = run_loop ex fuel q c.
Proof.
  intros Hi Hnz Hs. simpl. rewrite Hi.
  destruct (Z.eqb_spec i 0); [done|]. by rewrite Hs.
Qed.

Lemma run_loop_panic (ex : Z -> Program -> list Op -> result (Program * list Op))
    (fuel : nat) (p : Program) (ch : list Op) (e : panic) :
  Byte p (pc p) = Panic e -> run_loop ex fuel p ch = Panicked e.
Proof. intros H. destruct fuel; simpl; by rewrite H. Qed.

(** The forward clamp does not save the run: when an invoke instruction
    dispatches a relative jump forward that reaches or passes the last
    byte of the memory, the program counter is put on the last byte, the
    loop adds one, and the next read of [p.memory[p.pc]] panics. *)
Theorem forward_jump_to_the_end_panics
  (fuel : nat) (p : Program) (ch : list Op) (op : Op) (b : Z) :
  Byte p (pc p) = Ok (chr ".") ->
  invoke_op p = Ok op -> code op = OpRelJmpFwd -> Op_Byte op 0 = Ok b ->
  memLen p - 1 <= pc p + b ->
  run_loop exec (S fuel) p ch = Panicked IndexOutOfRange.
Proof.
  intros Hi Hop Hc Hb Hfar.
  destruct (rel_jump_clamps p op ch b Hb) as [Hj _].
  specialize (Hj Hc). rewrite Z.min_r in Hj by lia.
  rewrite (run_loop_S exec fuel p (set_pc p (memLen p)) ch ch (chr "."));
    try done.
  - apply run_loop_panic. unfold Byte. cbn [pc memory set_pc].
    replace (index (memory p) (memLen p)) with (@None Z); [done|].
    symmetry. apply index_None. unfold memLen. lia.
  - unfold step. rewrite exec_invoke, Hop. cbn [mbind result_bind].
    rewrite Hj. cbn [mbind result_bind]. destruct p; simpl.
    do 2 f_equal; f_equal. lia.
Qed.

Lemma forward_jump_to_the_end_panics_witness :
  run_loop exec 1
    (mkProgram [46; 0; 0; 0; 0; 0; 0; 0; 0; 200; 1; 0] 2 0 0
               0 0 0 0 0 0 10) []
  = Panicked IndexOutOfRange.
Proof.
  apply (forward_jump_to_the_end_panics 0
           (mkProgram [46; 0; 0; 0; 0; 0; 0; 0; 0; 200; 1; 0] 2 0 0
                      0 0 0 0 0 0 10)
           [] (mkOp 1 [0; 0; 0; 0; 0; 0; 0; 200]) 200).
  - reflexivity.
  - reflexivity.
  - reflexivity.
  - reflexivity.
  - unfold memLen. simpl. lia.
Defined.

(** *** Words in the memory *)

Lemma word_split (v : Z) :
  0 <= v < 2^16 ->
  is_byte (Z.shiftr v 8 mod 256) /\ is_byte (v mod 256) /\
  (Z.shiftr v 8 mod 256) * 2^8 + v mod 256 = v.
Proof.
  intros Hv. rewrite Z.shiftr_div_pow2 by lia.
  change (2 ^ 8) with 256. change (2 ^ 16) with 65536 in Hv.
  unfold is_byte. repeat split; Z.div_mod_to_equations; lia.
Qed.

Lemma qword_split (v : Z) :
  0 <= v < 2^32 ->
  is_byte (Z.shiftr v 24 mod 256) /\ is_byte (Z.shiftr v 16 mod 256) /\
  is_byte (Z.shiftr v 8 mod 256) /\ is_byte (v mod 256) /\
  (((Z.shiftr v 24 mod 256) * 2^8 + Z.shiftr v 16 mod 256) * 2^8
   + Z.shiftr v 8 mod 256) * 2^8 + v mod 256 = v.
Proof.
  intros Hv. rewrite !Z.shiftr_div_pow2 by lia.
  change (2 ^ 8) with 256. change (2 ^ 16) with 65536.
  change (2 ^ 24) with 16777216. change (2 ^ 32) with 4294967296 in Hv.
  unfold is_byte. repeat split; Z.div_mod_to_equations; lia.
Qed.

(** A 16-bit value written with [SetWord] is read back by [Word], a
    32-bit value written with [SetQWord] by [QWord], at the same index;
    the write touches the two, respectively four, bytes ending at the
    index and no other. *)
Theorem words_round_trip (p : Program) (idx : Z) :
  (forall v, 1 <= idx < memLen p -> 0 <= v < 2^16 ->
     exists q, SetWord p idx v = Ok q /\ Word q idx = Ok v /\
               forall j, ~ (idx - 1 <= j <= idx) -> Byte q j = Byte p j) /\
  (forall v, 3 <= idx < memLen p -> 0 <= v < 2^32 ->
     exists q, SetQWord p idx v = Ok q /\ QWord q idx = Ok v /\
               forall j, ~ (idx - 3 <= j <= idx) -> Byte q j = Byte p j).
Proof.
  split; intros v Hidx Hv.
  - destruct (SetWord_spec p idx v Hidx) as (q & Hq & _ & Hb).
    destruct (word_split v Hv) as (H1 & H0 & Hsum).
    exists q. split; [done|]. split.
    + unfold Word. rewrite !Hb. repeat case_decide; try lia.
      cbn [mbind result_bind]. by rewrite word_value, Hsum.
    + intros j Hj. rewrite Hb. repeat case_decide; try lia. reflexivity.
  - destruct (SetQWord_spec p idx v Hidx) as (q & Hq & _ & Hb).
    destruct (qword_split v Hv) as (H3 & H2 & H1 & H0 & Hsum).
    exists q. split; [done|]. split.
    + unfold QWord. rewrite !Hb. repeat case_decide; try lia.
      cbn [mbind result_bind]. by rewrite qword_value, Hsum.
    + intros j Hj. rewrite Hb. repeat case_decide; try lia. reflexivity.
Qed.

Lemma words_round_trip_witness :
  let p := mkProgram [0; 0; 0; 0; 0; 0] 0 0 0 0 0 0 0 0 0 0 in
  exists q, SetWord p 2 260 = Ok q /\ Word q 2 = Ok 260 /\
            forall j, ~ (2 - 1 <= j <= 2) -> Byte q j = Byte p j.
Proof.
  apply (proj1 (words_round_trip
                  (mkProgram [0; 0; 0; 0; 0; 0] 0 0 0 0 0 0 0 0 0 0) 2) 260).
  - unfold memLen. simpl. lia.
  - lia.
Defined.

(** The other programs of the repository's test table, with the data
    cells the tests expect. *)
Example test_table_runs :
  cells 1 (load_and_run 100 "add 5 +++++") = Some [5] /\
  cells 5 (load_and_run 100 ">>>>+<-") = Some [0; 0; 0; 255; 1] /\
  cells 2 (load_and_run 1000 "+++++ +++++[>+++++ +++++<-] 100")
  = Some [0; 100] /\
  cells 4 (load_and_run 1000 "+++[[>]+++++[<]>-]") = Some [0; 5; 5; 5] /\
  cells 2 (load_and_run 100 "++>+. ++ +") = Some [2; 2].
Proof. repeat split; vm_compute; reflexivity. Qed.

(** *** What a turn writes *)

Lemma within_memory (p q : Program) (lo hi : Z) :
  memory q = memory p -> writes_within p q lo hi.
Proof. intros H j _. unfold Byte. by rewrite H. Qed.

Lemma within_trans (p q r : Program) (lo hi : Z) :
  writes_within p q lo hi -> writes_within q r lo hi ->
  writes_within p r lo hi.
Proof. intros H1 H2 j Hj. by rewrite H2, H1. Qed.

Lemma within_wider (p q : Program) (lo hi lo' hi' : Z) :
  lo' <= lo -> hi <= hi' -> writes_within p q lo hi ->
  writes_within p q lo' hi'.
Proof. intros Hlo Hhi H j Hj. apply H. lia. Qed.

Lemma within_SetByte (p q : Program) (idx v : Z) :
  SetByte p idx v = Ok q ->
  writes_within p q idx idx /\ memPtr q = memPtr p.
Proof.
  unfold SetByte. destruct (Z.leb_spec 0 idx); [|discriminate].
  destruct (_ <? _); [|discriminate]. cbn [andb]. intros [= <-].
  split; [|done]. intros j Hj. unfold Byte. cbn [memory set_memory].
  rewrite index_insert_ne; [done|lia|lia].
Qed.

Lemma within_SetWord (p q : Program) (idx v : Z) :
  SetWord p idx v = Ok q ->
  writes_within p q (idx - 1) idx /\ memPtr q = memPtr p.
Proof.
  unfold SetWord. intros H. apply bind_Ok_inv in H as (p1 & H1 & H2).
  apply within_SetByte in H1 as [W1 M1]. apply within_SetByte in H2 as [W2 M2].
  split; [|congruence].
  eapply within_trans; eapply within_wider; try eassumption; lia.
Qed.

Lemma within_SetQWord (p q : Program) (idx v : Z) :
  SetQWord p idx v = Ok q ->
  writes_within p q (idx - 3) idx /\ memPtr q = memPtr p.
Proof.
  unfold SetQWord. intros H. apply bind_Ok_inv in H as (p1 & H1 & H).
  apply bind_Ok_inv in H as (p2 & H2 & H).
  apply bind_Ok_inv in H as (p3 & H3 & H4).
  apply within_SetByte in H1 as [W1 M1]. apply within_SetByte in H2 as [W2 M2].
  apply within_SetByte in H3 as [W3 M3]. apply within_SetByte in H4 as [W4 M4].
  split; [|congruence].
  eapply within_trans; [|eapply within_wider; [| |exact W4]; lia].
  eapply within_trans; [|eapply within_wider; [| |exact W3]; lia].
  eapply within_trans; eapply within_wider; try eassumption; lia.
Qed.

Ltac within_case :=
  let H := fresh "H" in
  intros H; repeat (apply bind_Ok_inv in H as (? & ? & H));
  injection H as <- <-;
  first
    [ apply within_memory;
      repeat match goal with
        | |- context [if ?c then _ else _] => destruct c
        end; reflexivity
    | match goal with
      | H : SetByte _ _ _ = Ok _ |- _ => apply within_SetByte in H as [H _]
      | H : SetWord _ _ _ = Ok _ |- _ => apply within_SetWord in H as [H _]
      | H : SetQWord _ _ _ = Ok _ |- _ => apply within_SetQWord in H as [H _]
      end;
      eapply within_wider; [| |eassumption]; lia ].

Lemma within_Program_Op (p q : Program) (op : Op) (ch ch' : list Op) :
  Program_Op p op ch = Ok (q, ch') ->
  writes_within p q (memPtr p - 4) (memPtr p - 1).
Proof.
  unfold Program_Op. repeat case_opcode within_case.
  intros [= <- <-]. by apply within_memory.
Qed.

Lemma iter_move_memory (k : nat) (p : Program) (m : move) :
  memory (do_moves p (replicate k m)) = memory p.
Proof. by rewrite do_moves_only_memPtr. Qed.

(** One [switch] of the loop writes at the tape pointer or in the four
    bytes before it. *)
Lemma within_exec (i : Z) (p q : Program) (ch ch' : list Op) :
  exec i p ch = Ok (q, ch') ->
  writes_within p q (memPtr p - 4) (memPtr p).
Proof.
  unfold exec. repeat case_instr.
  - intros H. apply bind_Ok_inv in H as (k & _ & H). injection H as <- <-.
    apply within_memory. cbn [memory set_pc].
    rewrite iter_Right_do_moves. apply iter_move_memory.
  - intros H. apply bind_Ok_inv in H as (k & _ & H). injection H as <- <-.
    apply within_memory. cbn [memory set_pc].
    rewrite iter_Left_do_moves. apply iter_move_memory.
  - intros H. apply bind_Ok_inv in H as (k & _ & H). cbv zeta in H.
    apply bind_Ok_inv in H as (n & _ & H).
    apply bind_Ok_inv in H as (r & Hr & H). injection H as <- <-.
    apply within_SetByte in Hr as [Hr _]. intros j Hj.
    rewrite Hr by (cbn [memPtr set_pc]; lia). done.
  - intros H. apply bind_Ok_inv in H as (k & _ & H). cbv zeta in H.
    apply bind_Ok_inv in H as (n & _ & H).
    apply bind_Ok_inv in H as (r & Hr & H). injection H as <- <-.
    apply within_SetByte in Hr as [Hr _]. intros j Hj.
    rewrite Hr by (cbn [memPtr set_pc]; lia). done.
  - destruct (pc p + 3 <=? memLen p); [|discriminate].
    destruct (bool_decide _).
    + intros H. apply bind_Ok_inv in H as (r & Hr & H). injection H as <- <-.
      apply within_SetByte in Hr as [Hr _]. intros j Hj.
      unfold Byte. cbn [memory set_pc]. apply Hr. lia.
    + intros H. apply bind_Ok_inv in H as (b & _ & H).
      destruct (b =? 0).
      * apply bind_Ok_inv in H as (r & Hr & H). injection H as <- <-.
        apply within_memory. unfold JumpToCloseLoop in Hr.
        destruct (0 <=? pc p); [|discriminate].
        apply bind_Ok_inv in Hr as (pc' & _ & Hr). by injection Hr as <-.
      * injection H as <- <-. by apply within_memory.
  - intros H. apply bind_Ok_inv in H as (b & _ & H).
    destruct (negb (b =? 0)).
    + apply bind_Ok_inv in H as (r & Hr & H). injection H as <- <-.
      apply within_memory. unfold JumpToOpenLoop in Hr.
      destruct (_ && _); [|discriminate]. by injection Hr as <-.
    + injection H as <- <-. by apply within_memory.
  - intros H. apply bind_Ok_inv in H as (op & _ & H).
    apply within_Program_Op in H.
    eapply within_wider; [| |exact H]; lia.
  - intros [= <- <-]. by apply within_memory.
Qed.

Lemma within_step (i : Z) (p q : Program) (ch ch' : list Op) :
  step exec i p ch = Ok (q, ch') ->
  writes_within p q (memPtr p - 4) (memPtr p).
Proof.
  unfold step. intros H. apply bind_Ok_inv in H as ([r c] & Hr & H).
  injection H as <- <-. apply within_exec in Hr. intros j Hj.
  unfold Byte. cbn [memory set_pc]. by apply Hr.
Qed.

(** The program text is safe while the tape pointer is in the data
    section: one turn of [Run] writes only at the tape pointer or in the
    four bytes before it, so through any number of turns that each begin
    with the tape pointer at or after the start of the data section, no
    byte more than four below that start is changed.  The instruction
    bytes and the zero byte that ends them lie ten and more below it. *)
Theorem code_is_safe_while_pointer_in_data :
  (forall (i : Z) (p q : Program) (ch ch' : list Op),
     step exec i p ch = Ok (q, ch') ->
     forall j, ~ (memPtr p - 4 <= j <= memPtr p) -> Byte q j = Byte p j) /\
  (forall (p q : Program) (ch ch' : list Op),
     well_formed p -> runs_in_data p ch q ch' ->
     dataStart q = dataStart p /\
     forall j, j < dataStart p - 4 -> Byte q j = Byte p j).
Proof.
  split; [apply within_step|].
  intros p q ch ch' Hw Hrun.
  induction Hrun as [p ch|p ch i q c r c' Hptr Hi Hnz Hs _ IH].
  - done.
  - destruct (step_keeps _ _ _ _ _ Hw Hs) as [[(_ & Hds & _) Hwq] _].
    destruct (IH (Hwq Hw)) as [Hds' Hmem]. split; [congruence|].
    intros j Hj. rewrite Hmem by lia.
    apply (within_step _ _ _ _ _ Hs). lia.
Qed.

Lemma code_is_safe_while_pointer_in_data_witness :
  let p := mkProgram [43; 0; 0; 0; 0; 0; 0; 0; 0; 0; 0; 5] 11 0 0
                     0 0 0 0 0 0 11 in
  let q := mkProgram [43; 0; 0; 0; 0; 0; 0; 0; 0; 0; 0; 6] 11 0 1
                     0 0 0 0 0 0 11 in
  dataStart q = dataStart p /\
  forall j, j < dataStart p - 4 -> Byte q j = Byte p j.
Proof.
  intros p q.
  apply (proj2 code_is_safe_while_pointer_in_data p q [] []).
  - unfold well_formed, in_memory, memLen, is_byte. simpl.
    repeat split; try lia. repeat constructor; lia.
  - apply (runs_turn p [] 43 q [] q []).
    + simpl. lia.
    + reflexivity.
    + lia.
    + reflexivity.
    + apply runs_here.
Defined.

(** *** Straight-line code *)

Lemma straight_cases (c : Z) :
  straight c ->
  c = chr "+" \/ c = chr "-" \/ c = chr "," \/ c = chr ">" \/ c = chr "<".
Proof. unfold straight. rewrite !elem_of_cons, elem_of_nil. tauto. Qed.

Lemma straight_nonzero (c : Z) : straight c -> c <> 0.
Proof.
  intros H ->. apply straight_cases in H.
  destruct H as [H|[H|[H|[H|H]]]]; vm_compute in H; discriminate.
Qed.

Lemma at_code_split (pre suf : list Z) (size off : Z) (p : Program) :
  at_code pre suf size off p ->
  exists tail, memory p = pre ++ suf ++ 0 :: tail
               /\ Z.to_nat (pc p) = length pre.
Proof.
  intros ((tail & Hm) & Hpc & _). exists tail.
  split; [by rewrite Hm, <- app_assoc|]. rewrite Hpc. apply Nat2Z.id.
Qed.

Lemma at_code_byte (pre suf : list Z) (size off : Z) (p : Program) (c : Z) :
  at_code pre (c :: suf) size off p -> Byte p (pc p) = Ok c.
Proof.
  intros H. destruct (at_code_split _ _ _ _ _ H) as (tail & Hm & Hn).
  destruct H as (_ & Hpc & _). unfold Byte, index.
  destruct (Z.leb_spec 0 (pc p)); [|lia]. rewrite Hn, Hm.
  change ((c :: suf) ++ 0 :: tail) with (c :: (suf ++ 0 :: tail)).
  by rewrite list_lookup_middle by done.
Qed.

Lemma at_code_end (pre : list Z) (size off : Z) (p : Program) :
  at_code pre [] size off p -> Byte p (pc p) = Ok 0.
Proof.
  intros H. destruct (at_code_split _ _ _ _ _ H) as (tail & Hm & Hn).
  destruct H as (_ & Hpc & _). unfold Byte, index.
  destruct (Z.leb_spec 0 (pc p)); [|lia]. rewrite Hn, Hm.
  change ([] ++ 0 :: tail) with (0 :: tail).
  by rewrite list_lookup_middle by done.
Qed.

Lemma at_code_ahead (pre suf : list Z) (size off : Z) (p : Program) :
  at_code pre suf size off p -> exists tail, ahead p = suf ++ 0 :: tail.
Proof.
  intros H. destruct (at_code_split _ _ _ _ _ H) as (tail & Hm & Hn).
  exists tail. unfold ahead. by rewrite Hn, Hm, drop_app_length.
Qed.

Lemma run_ahead (c : Z) (k : nat) (suf1 tail : list Z) :
  c <> 0 -> (forall b rest, suf1 = b :: rest -> b <> c) ->
  run_length c ((replicate k c ++ suf1) ++ 0 :: tail) = Ok k.
Proof.
  intros Hc Hhead. rewrite <- app_assoc. destruct suf1 as [|b rest].
  - apply run_length_replicate. congruence.
  - apply run_length_replicate. by apply (Hhead b rest).
Qed.

Lemma span_run (c : Z) (l : list Z) :
  exists k suf1, l = replicate k c ++ suf1
                 /\ forall b rest, suf1 = b :: rest -> b <> c.
Proof.
  induction l as [|x l (k & suf1 & -> & Hhead)].
  - exists 0%nat, []. by split.
  - destruct (decide (x = c)) as [->|Hne].
    + by exists (S k), suf1.
    + exists 0%nat, (x :: replicate k c ++ suf1). split; [done|].
      by intros b rest [= <- _].
Qed.

Lemma offset_after_app (off : Z) (l1 l2 : list Z) :
  offset_after off (l1 ++ l2) = offset_after (offset_after off l1) l2.
Proof. apply foldl_app. Qed.

Lemma in_tape_app (size off : Z) (l1 l2 : list Z) :
  in_tape size off (l1 ++ l2) ->
  in_tape size off l1 /\ in_tape size (offset_after off l1) l2.
Proof.
  revert off. induction l1 as [|b l1 IH]; intros off; [done|].
  simpl. intros (H0 & H1 & H). destruct (IH _ H) as [Ha Hb]. done.
Qed.

Lemma in_tape_run (size off : Z) (c : Z) (k : nat) :
  in_tape size off (replicate (S k) c) ->
  0 <= off < size /\
  0 <= offset_after off (replicate (S k) c) < size /\
  offset_after off (replicate (S k) c)
  = off + Z.of_nat (S k) * (shift 0 c).
Proof.
  revert off. induction k as [|k IH]; intros off.
  - simpl. intros (H0 & H1 & _). split; [done|]. split; [done|].
    unfold shift. repeat case_instr; lia.
  - change (replicate (S (S k)) c) with (c :: replicate (S k) c).
    cbn [in_tape]. intros (H0 & H1 & H). destruct (IH _ H) as (_ & Hr & Heq).
    split; [done|]. unfold offset_after in *. cbn [foldl]. split; [done|].
    rewrite Heq. unfold shift. repeat case_instr; lia.
Qed.

Lemma at_code_moved (pre run suf : list Z) (size off off' : Z)
    (p : Program) (ptr pc' : Z) :
  at_code pre (run ++ suf) size off p ->
  ptr = dataStart p + off' -> pc' = pc p + Z.of_nat (length run) ->
  at_code (pre ++ run) suf size off' (set_pc (set_memPtr p ptr) pc').
Proof.
  intros ((tail & Hm) & Hpc & Hlen & Hptr & Hsize) -> ->.
  unfold at_code, memLen in *.
  cbn [memory pc dataStart memPtr set_pc set_memPtr].
  rewrite <- app_assoc. split; [by exists tail|].
  split; [rewrite length_app; lia|]. done.
Qed.

Lemma turn_right (size : Z) (pre suf1 : list Z) (k : nat) (off : Z)
    (p : Program) (ch : list Op) :
  at_code pre (replicate (S k) (chr ">") ++ suf1) size off p ->
  (forall b rest, suf1 = b :: rest -> b <> chr ">") ->
  0 <= off -> off + Z.of_nat (S k) < size ->
  exists q, step exec (chr ">") p ch = Ok (q, ch) /\
            at_code (pre ++ replicate (S k) (chr ">")) suf1 size
                    (off + Z.of_nat (S k)) q.
Proof.
  intros Hat Hhead H0 H1. destruct (at_code_ahead _ _ _ _ _ Hat) as [tail Ha].
  unfold step. rewrite exec_right, Ha, run_ahead by done.
  cbn [mbind result_bind]. eexists. split; [reflexivity|].
  rewrite iter_Right_do_moves.
  assert (Hin : in_memory p).
  { destruct Hat as (_ & _ & Hl & Hp & Hs). unfold in_memory. lia. }
  destruct (do_moves_spec (replicate (S k) MRight) p Hin) as (_ & _ & Hptr).
  rewrite do_moves_only_memPtr, Hptr, displacement_right.
  cbn [pc set_pc set_memPtr].
  apply (at_code_moved pre _ suf1 size off); [done| |].
  - destruct Hat as (_ & _ & Hl & Hp & Hs). rewrite Hp, Hs.
    rewrite Z.mod_small; lia.
  - rewrite length_replicate. lia.
Qed.

Lemma turn_left (size : Z) (pre suf1 : list Z) (k : nat) (off : Z)
    (p : Program) (ch : list Op) :
  at_code pre (replicate (S k) (chr "<") ++ suf1) size off p ->
  (forall b rest, suf1 = b :: rest -> b <> chr "<") ->
  off < size -> 0 <= off - Z.of_nat (S k) ->
  exists q, step exec (chr "<") p ch = Ok (q, ch) /\
            at_code (pre ++ replicate (S k) (chr "<")) suf1 size
                    (off - Z.of_nat (S k)) q.
Proof.
  intros Hat Hhead H0 H1. destruct (at_code_ahead _ _ _ _ _ Hat) as [tail Ha].
  unfold step. rewrite exec_left, Ha, run_ahead by done.
  cbn [mbind result_bind]. eexists. split; [reflexivity|].
  rewrite iter_Left_do_moves.
  assert (Hin : in_memory p).
  { destruct Hat as (_ & _ & Hl & Hp & Hs). unfold in_memory. lia. }
  destruct (do_moves_spec (replicate (S k) MLeft) p Hin) as (_ & _ & Hptr).
  rewrite do_moves_only_memPtr, Hptr, displacement_left.
  cbn [pc set_pc set_memPtr].
  apply (at_code_moved pre _ suf1 size off); [done| |].
  - destruct Hat as (_ & _ & Hl & Hp & Hs). rewrite Hp, Hs.
    rewrite Z.mod_small; lia.
  - rewrite length_replicate. lia.
Qed.

Lemma at_code_written (pre run suf : list Z) (size off : Z)
    (p : Program) (v pc' : Z) :
  at_code pre (run ++ suf) size off p -> 0 <= off < size ->
  pc' = pc p + Z.of_nat (length run) ->
  at_code (pre ++ run) suf size off
    (set_pc (set_memory p (<[Z.to_nat (memPtr p) := v]> (memory p))) pc').
Proof.
  intros ((tail & Hm) & Hpc & Hlen & Hptr & Hsize) Hoff ->.
  unfold at_code, memLen in *.
  cbn [memory pc dataStart memPtr set_pc set_memory].
  rewrite length_insert, <- app_assoc.
  split; [|split; [rewrite length_app; lia|done]].
  rewrite Hm, insert_app_r_alt by lia.
  destruct (Z.to_nat (memPtr p) - length (pre ++ run ++ suf))%nat
    as [|n] eqn:Hn; [lia|].
  by eexists.
Qed.

Lemma turn_plus (size : Z) (pre suf1 : list Z) (k : nat) (off : Z)
    (p : Program) (ch : list Op) :
  at_code pre (replicate (S k) (chr "+") ++ suf1) size off p ->
  (forall b rest, suf1 = b :: rest -> b <> chr "+") ->
  0 <= off < size ->
  exists q, step exec (chr "+") p ch = Ok (q, ch) /\
            at_code (pre ++ replicate (S k) (chr "+")) suf1 size off q.
Proof.
  intros Hat Hhead Hoff. destruct (at_code_ahead _ _ _ _ _ Hat) as [tail Ha].
  assert (Hin : 0 <= memPtr p < memLen p).
  { destruct Hat as (_ & _ & Hl & Hp & Hs). lia. }
  destruct (Byte_defined p (memPtr p) Hin) as [n Hn].
  unfold step. rewrite exec_plus, Ha, run_ahead by done.
  cbn [mbind result_bind]. cbv zeta.
  change (Byte (set_pc p (pc p + Z.of_nat (S k) - 1))
               (memPtr (set_pc p (pc p + Z.of_nat (S k) - 1))))
    with (Byte p (memPtr p)).
  rewrite Hn. cbn [mbind result_bind]. rewrite SetByte_Ok by exact Hin.
  cbn [mbind result_bind]. eexists. split; [reflexivity|].
  apply (at_code_written pre _ suf1 size off p); [done|done|].
  cbn [pc set_pc set_memory]. rewrite length_replicate. lia.
Qed.

Lemma turn_minus (size : Z) (pre suf1 : list Z) (k : nat) (off : Z)
    (p : Program) (ch : list Op) :
  at_code pre (replicate (S k) (chr "-") ++ suf1) size off p ->
  (forall b rest, suf1 = b :: rest -> b <> chr "-") ->
  0 <= off < size ->
  exists q, step exec (chr "-") p ch = Ok (q, ch) /\
            at_code (pre ++ replicate (S k) (chr "-")) suf1 size off q.
Proof.
  intros Hat Hhead Hoff. destruct (at_code_ahead _ _ _ _ _ Hat) as [tail Ha].
  assert (Hin : 0 <= memPtr p < memLen p).
  { destruct Hat as (_ & _ & Hl & Hp & Hs). lia. }
  destruct (Byte_defined p (memPtr p) Hin) as [n Hn].
  unfold step. rewrite exec_minus, Ha, run_ahead by done.
  cbn [mbind result_bind]. cbv zeta.
  change (Byte (set_pc p (pc p + Z.of_nat (S k) - 1))
               (memPtr (set_pc p (pc p + Z.of_nat (S k) - 1))))
    with (Byte p (memPtr p)).
  rewrite Hn. cbn [mbind result_bind]. rewrite SetByte_Ok by exact Hin.
  cbn [mbind result_bind]. eexists. split; [reflexivity|].
  apply (at_code_written pre _ suf1 size off p); [done|done|].
  cbn [pc set_pc set_memory]. rewrite length_replicate. lia.
Qed.

Lemma turn_comma (size : Z) (pre suf : list Z) (off : Z)
    (p : Program) (ch : list Op) :
  at_code pre (chr "," :: suf) size off p ->
  exists q, step exec (chr ",") p ch = Ok (q, ch) /\
            at_code (pre ++ [chr ","]) suf size off q.
Proof.
  intros ((tail & Hm) & Hpc & Hlen & Hptr & Hsize).
  eexists. split; [reflexivity|]. unfold at_code, memLen in *.
  cbn [memory pc dataStart memPtr set_pc]. rewrite <- app_assoc.
  split; [by exists tail|]. split; [rewrite length_app; simpl; lia|].
  done.
Qed.

Lemma shift_0 (c : Z) :
  (c = chr ">" -> shift 0 c = 1) /\ (c = chr "<" -> shift 0 c = -1) /\
  (c <> chr ">" -> c <> chr "<" -> shift 0 c = 0).
Proof.
  split; [by intros ->|]. split; [by intros ->|]. intros H1 H2.
  unfold shift. destruct (Z.eqb_spec c (chr ">")); [done|].
  by destruct (Z.eqb_spec c (chr "<")).
Qed.

(** One turn on straight-line code: the run of bytes it consumes. *)
Lemma straight_turn (size : Z) (pre suf0 : list Z) (c off : Z)
    (p : Program) (ch : list Op) :
  straight c -> in_tape size off (c :: suf0) ->
  at_code pre (c :: suf0) size off p ->
  exists q used rest,
    step exec c p ch = Ok (q, ch) /\ c :: suf0 = used ++ rest /\
    used <> [] /\ at_code (pre ++ used) rest size (offset_after off used) q.
Proof.
  intros Hc Htape Hat.
  destruct (span_run c suf0) as (k & suf1 & -> & Hhead).
  change (c :: replicate k c ++ suf1) with (replicate (S k) c ++ suf1) in *.
  destruct (in_tape_app _ _ _ _ Htape) as [Hrun _].
  destruct (in_tape_run _ _ _ _ Hrun) as (Hoff & Hoff' & Heq).
  destruct (shift_0 c) as (Sr & Sl & So).
  destruct (straight_cases c Hc) as [->|[->|[->|[->| ->]]]].
  - destruct (turn_plus size pre suf1 k off p ch Hat Hhead Hoff)
      as (q & Hq & Hat').
    exists q. exists (replicate (S k) (chr "+")). exists suf1.
    rewrite Heq, So by done. rewrite Z.mul_0_r, Z.add_0_r. split; [done|]. split; [done|]. split; [discriminate|done].
  - destruct (turn_minus size pre suf1 k off p ch Hat Hhead Hoff)
      as (q & Hq & Hat').
    exists q. exists (replicate (S k) (chr "-")). exists suf1.
    rewrite Heq, So by done. rewrite Z.mul_0_r, Z.add_0_r. split; [done|]. split; [done|]. split; [discriminate|done].
  - destruct (turn_comma size pre (replicate k (chr ",") ++ suf1) off p ch Hat)
      as (q & Hq & Hat').
    exists q. exists [chr ","]. exists (replicate k (chr ",") ++ suf1). split; [done|]. split; [done|]. split; [discriminate|done].
  - rewrite (Sr eq_refl) in Heq. rewrite Heq in Hoff'.
    destruct (turn_right size pre suf1 k off p ch Hat Hhead) as (q & Hq & Hat');
      [lia..|].
    exists q. exists (replicate (S k) (chr ">")). exists suf1. rewrite Heq.
    replace (off + Z.of_nat (S k) * 1) with (off + Z.of_nat (S k)) by lia.
    split; [done|]. split; [done|]. split; [discriminate|done].
  - rewrite (Sl eq_refl) in Heq. rewrite Heq in Hoff'.
    destruct (turn_left size pre suf1 k off p ch Hat Hhead) as (q & Hq & Hat');
      [lia..|].
    exists q. exists (replicate (S k) (chr "<")). exists suf1. rewrite Heq.
    replace (off + Z.of_nat (S k) * -1) with (off - Z.of_nat (S k)) by lia.
    split; [done|]. split; [done|]. split; [discriminate|done].
Qed.

Lemma straight_run (size : Z) (n : nat) :
  forall (suf pre : list Z) (off : Z) (p : Program) (ch : list Op)
         (fuel : nat),
    (length suf <= n)%nat -> (n <= fuel)%nat ->
    Forall straight suf -> in_tape size off suf ->
    at_code pre suf size off p ->
    exists q, run_loop exec fuel p ch = Halted q ch /\
              at_code (pre ++ suf) [] size (offset_after off suf) q.
Proof.
  induction n as [|n IH]; intros suf pre off p ch fuel Hlen Hfuel Hst Htape Hat.
  - destruct suf; [|simpl in Hlen; lia]. exists p. split.
    + destruct fuel; simpl; by rewrite (at_code_end _ _ _ _ Hat).
    + by rewrite app_nil_r.
  - destruct suf as [|c suf0].
    { exists p. split.
      + destruct fuel; simpl; by rewrite (at_code_end _ _ _ _ Hat).
      + by rewrite app_nil_r. }
    destruct fuel as [|fuel]; [lia|].
    pose proof (Forall_inv Hst) as Hc.
    destruct (straight_turn size pre suf0 c off p ch Hc Htape Hat)
      as (q & used & rest & Hs & Heq & Hne & Hq).
    rewrite (run_loop_S exec fuel p q ch ch c);
      [|by apply (at_code_byte pre suf0 size off)|by apply straight_nonzero
       |done].
    rewrite Heq in *. apply Forall_app in Hst as [_ Hst].
    apply in_tape_app in Htape as [_ Htape].
    destruct (IH rest (pre ++ used) (offset_after off used) q ch fuel)
      as (r & Hr & Hat'); try done.
    + rewrite length_app in Hlen. destruct used; [done|]. simpl in Hlen. lia.
    + lia.
    + exists r. split; [done|]. by rewrite offset_after_app, app_assoc.
Qed.

Lemma straight_depth (code : list Z) (d : Z) :
  Forall straight code -> bracket_depth code d = d.
Proof.
  intros H. revert d. induction H as [|c code Hc _ IH]; intros d; [done|].
  simpl. rewrite IH.
  destruct (straight_cases c Hc) as [->|[->|[->|[->| ->]]]]; reflexivity.
Qed.

Lemma straight_instruction (c : Z) : straight c -> is_instruction c = true.
Proof.
  intros H.
  destruct (straight_cases c H) as [->|[->|[->|[->| ->]]]]; reflexivity.
Qed.

Lemma NewProgram_at_code (code : list Z) :
  Forall straight code ->
  exists p, NewProgram code = inr p /\ at_code [] code tapeSize 0 p.
Proof.
  intros Hst. unfold NewProgram, ValidateBrainfuck.
  rewrite straight_depth by done. cbn [Z.eqb negb].
  rewrite filter_all
    by (eapply Forall_impl; [exact Hst|apply straight_instruction]).
  assert (Ht : 0 < tapeSize) by (unfold tapeSize; lia).
  revert Ht. generalize tapeSize. intros t Ht.
  eexists. split; [reflexivity|]. unfold at_code, memLen.
  cbn [memory pc dataStart memPtr app length].
  rewrite length_app, length_replicate.
  split; [|lia]. exists (replicate (Z.to_nat (9 + t)) 0).
  replace (Z.to_nat (10 + t)) with (S (Z.to_nat (9 + t))) by lia.
  reflexivity.
Qed.

(** Straight-line programs halt.  A text of increment, decrement, read
    and step bytes through which the tape pointer stays inside the data
    section is loaded, and [Run] returns after at most one turn for every
    byte: the program counter is on the zero byte after the text, the
    text and that zero byte are in the memory as they were loaded,
    nothing was sent, and the tape pointer is where the steps of the text
    lead. *)
Theorem straight_line_programs_halt (code : list Z) :
  Forall straight code -> in_tape tapeSize 0 code ->
  exists p,
    NewProgram code = inr p /\
    forall fuel, (length code <= fuel)%nat ->
      exists q,
        Run fuel p [] = Halted q [] /\
        pc q = Z.of_nat (length code) /\
        take (S (length code)) (memory q) = code ++ [0] /\
        dataStart q = dataStart p /\
        memPtr q = dataStart p + offset_after 0 code.
Proof.
  intros Hst Htape.
  destruct (NewProgram_at_code code Hst) as (p & Hp & Hat).
  exists p. split; [exact Hp|]. intros fuel Hfuel.
  destruct (straight_run tapeSize (length code) code [] 0 p [] fuel)
    as (q & Hq & Hat'); try done.
  exists q. unfold Run.
  assert (Hlen : (memLen p =? 0) = false).
  { destruct Hat as (_ & _ & Hl & _ & Hs). apply Z.eqb_neq.
    unfold tapeSize in Hs. lia. }
  rewrite Hlen. split; [exact Hq|].
  assert (Hk : keeps p q).
  { apply (run_loop_keeps fuel p q [] []); [|left; exact Hq].
    apply (NewProgram_well_formed code); [|exact Hp].
    eapply Forall_impl; [exact Hst|]. intros c Hc.
    destruct (straight_cases c Hc) as [->|[->|[->|[->| ->]]]];
      unfold is_byte; vm_compute; by split. }
  destruct Hk as [(_ & Hds & _) _].
  destruct Hat' as ((tail & Hm) & Hpc & _ & Hptr & _).
  cbn [app] in *. rewrite app_nil_r in Hm. split; [exact Hpc|]. split.
  - rewrite Hm. replace (code ++ 0 :: tail) with ((code ++ [0]) ++ tail)
      by (by rewrite <- app_assoc).
    apply take_app_length'. rewrite length_app. simpl. lia.
  - split; [exact Hds|]. rewrite Hptr, Hds. reflexivity.
Qed.

Lemma straight_line_programs_halt_witness :
  exists p,
    NewProgram (bytes_of_string ">>+++<-,") = inr p /\
    forall fuel, (length (bytes_of_string ">>+++<-,") <= fuel)%nat ->
      exists q,
        Run fuel p [] = Halted q [] /\
        pc q = Z.of_nat (length (bytes_of_string ">>+++<-,")) /\
        take (S (length (bytes_of_string ">>+++<-,"))) (memory q)
        = bytes_of_string ">>+++<-," ++ [0] /\
        dataStart q = dataStart p /\
        memPtr q = dataStart p + offset_after 0 (bytes_of_string ">>+++<-,").
Proof.
  apply (straight_line_programs_halt (bytes_of_string ">>+++<-,")).
  - repeat apply Forall_cons_2; try apply Forall_nil_2;
      unfold straight; rewrite !elem_of_cons; vm_compute; tauto.
  - cbn [in_tape bytes_of_string list_ascii_of_string fmap list_fmap].
    repeat split; vm_compute; first [reflexivity | intro; discriminate].
Defined.

(** *** A move, an addition and an invoke *)

Lemma at_code_next (pre suf : list Z) (c size off : Z) (p : Program) :
  at_code pre (c :: suf) size off p ->
  at_code (pre ++ [c]) suf size off (set_pc p (pc p + 1)).
Proof.
  intros ((tail & Hm) & Hpc & Hlen & Hptr & Hsize).
  unfold at_code, memLen in *.
  cbn [memory pc dataStart memPtr set_pc]. rewrite <- app_assoc.
  split; [by exists tail|]. split; [rewrite length_app; simpl; lia|].
  done.
Qed.

Lemma step_right_fields (p q : Program) (ch ch' : list Op) :
  step exec (chr ">") p ch = Ok (q, ch') ->
  memory q = memory p /\ dataStart q = dataStart p.
Proof.
  unfold step. rewrite exec_right. intros H.
  apply bind_Ok_inv in H as ([r c] & Hr & H). injection H as <- <-.
  apply bind_Ok_inv in Hr as (k & _ & Hr). injection Hr as <- <-.
  rewrite iter_Right_do_moves, do_moves_only_memPtr. done.
Qed.

Lemma step_plus_fields (p q : Program) (ch ch' : list Op) (n : Z) (k : nat) :
  step exec (chr "+") p ch = Ok (q, ch') ->
  Byte p (memPtr p) = Ok n -> run_length (chr "+") (ahead p) = Ok k ->
  memory q
  = <[Z.to_nat (memPtr p) := AddRolling n (Z.of_nat k) 255 mod 256]> (memory p)
  /\ dataStart q = dataStart p /\ memPtr q = memPtr p.
Proof.
  unfold step. rewrite exec_plus. intros H Hn Hk. rewrite Hk in H.
  cbn [mbind result_bind] in H. cbv zeta in H.
  change (Byte (set_pc p (pc p + Z.of_nat k - 1))
               (memPtr (set_pc p (pc p + Z.of_nat k - 1))))
    with (Byte p (memPtr p)) in H.
  rewrite Hn in H. cbn [mbind result_bind] in H. unfold SetByte in H.
  destruct (_ && _); [|discriminate]. cbn [mbind result_bind] in H.
  by injection H as <- <-.
Qed.

Lemma Byte_zero (p : Program) (text : list Z) (n : nat) (i : Z) :
  memory p = text ++ replicate n 0 ->
  Z.of_nat (length text) <= i < Z.of_nat (length text) + Z.of_nat n ->
  Byte p i = Ok 0.
Proof.
  intros Hm Hi. unfold Byte, index. destruct (Z.leb_spec 0 i); [|lia].
  rewrite Hm, lookup_app_r by lia. by rewrite lookup_replicate_2 by lia.
Qed.

Lemma eight_zeros (l : list Z) :
  length l = 8%nat -> (forall j, 0 <= j < 8 -> index l j = Some 0) ->
  l = replicate 8 0.
Proof.
  intros Hlen H.
  destruct l as [|x0 [|x1 [|x2 [|x3 [|x4 [|x5 [|x6 [|x7 [|x8 l]]]]]]]]];
    try discriminate Hlen.
  pose proof (H 0 ltac:(lia)) as H0. pose proof (H 1 ltac:(lia)) as H1.
  pose proof (H 2 ltac:(lia)) as H2. pose proof (H 3 ltac:(lia)) as H3.
  pose proof (H 4 ltac:(lia)) as H4. pose proof (H 5 ltac:(lia)) as H5.
  pose proof (H 6 ltac:(lia)) as H6. pose proof (H 7 ltac:(lia)) as H7.
  cbv in H0, H1, H2, H3, H4, H5, H6, H7. by simplify_eq.
Qed.

Lemma invoke_zeros (p : Program) (c : Z) :
  Byte p (memPtr p) = Ok c -> 8 <= memPtr p ->
  (forall j, memPtr p - 8 <= j < memPtr p -> Byte p j = Ok 0) ->
  invoke_op p = Ok (mkOp c (replicate 8 0)).
Proof.
  intros Hc Hp Hz.
  assert (Hop : exists op, invoke_op p = Ok op).
  { unfold invoke_op. rewrite Hc. by eexists. }
  destruct Hop as [op Hop]. rewrite Hop. f_equal.
  destruct (invoke_op_args p op 0 Hop) as (Hcode & Hlen & _); [lia|].
  assert (Hargs : args op = replicate 8 0).
  { apply eight_zeros; [done|]. intros j Hj.
    destruct (invoke_op_args p op j Hop Hj) as (_ & _ & Hx). rewrite Hx.
    destruct (Z.ltb_spec (memPtr p - 8) 0); [lia|].
    destruct (Z.ltb_spec j (memPtr p - (memPtr p - 8))); [|lia].
    apply Byte_Ok, Hz. lia. }
  destruct op as [co ar]. cbn [code args] in *. congruence.
Qed.

(** The run of a fresh machine on [a] steps right, [c + 1] increments
    and an invoke. *)
Lemma move_add_invoke (size : Z) (a c : nat) (p : Program) (ch : list Op)
    (fuel : nat) :
  let text := replicate a (chr ">") ++ replicate (S c) (chr "+") ++ [chr "."] in
  at_code [] text size 0 p ->
  memory p = text ++ replicate (Z.to_nat (10 + size)) 0 ->
  dataStart p = Z.of_nat (length text) + 10 ->
  Z.of_nat a < size -> Z.of_nat (S c) < 255 ->
  internal (Z.of_nat (S c)) = false -> (3 <= fuel)%nat ->
  exists q,
    run_loop exec fuel p ch
    = Halted q (ch ++ [mkOp (Z.of_nat (S c)) (replicate 8 0)]) /\
    Byte q (dataStart q + Z.of_nat a) = Ok (Z.of_nat (S c)).
Proof.
  intros text Hat Hm Hds Ha Hc Hint Hfuel.
  assert (Hsize : 0 < size) by lia.
  set (plus := replicate (S c) (chr "+") ++ [chr "."]) in *.
  (* the steps right *)
  assert (H1 : exists q1 f1,
             (2 <= f1)%nat /\ run_loop exec fuel p ch = run_loop exec f1 q1 ch
             /\ at_code (replicate a (chr ">")) plus size (Z.of_nat a) q1
             /\ memory q1 = memory p /\ dataStart q1 = dataStart p).
  { destruct a as [|k].
    - exists p, fuel. split; [lia|]. split; [done|]. split; [exact Hat|done].
    - destruct (turn_right size [] plus k 0 p ch Hat) as (q1 & Hs & Hat1);
        [by intros b rest [= <- _]|lia|lia|].
      destruct (step_right_fields _ _ _ _ Hs) as [Hm1 Hd1].
      destruct fuel as [|fuel]; [lia|]. exists q1, fuel. split; [lia|].
      split; [|split; [exact Hat1|done]].
      apply (run_loop_S exec fuel p q1 ch ch (chr ">")); [|done|done].
      by apply (at_code_byte [] (replicate k (chr ">") ++ plus) size 0). }
  destruct H1 as (q1 & f1 & Hf1 & -> & Hat1 & Hm1 & Hd1).
  (* the increments *)
  assert (Hp1 : memPtr q1 = dataStart p + Z.of_nat a).
  { destruct Hat1 as (_ & _ & _ & Hp & _). by rewrite Hp, Hd1. }
  assert (Hlen : Z.of_nat (length text) = Z.of_nat a + Z.of_nat (S c) + 1).
  { unfold text, plus. rewrite !length_app, !length_replicate. cbn [length].
    lia. }
  assert (Hz1 : forall j, Z.of_nat (length text) <= j
                          < Z.of_nat (length text) + (10 + size) ->
                          Byte q1 j = Ok 0).
  { intros j Hj. apply (Byte_zero q1 text (Z.to_nat (10 + size)));
      [by rewrite Hm1|lia]. }
  destruct (turn_plus size (replicate a (chr ">")) [chr "."] c (Z.of_nat a)
              q1 ch Hat1) as (q2 & Hs2 & Hat2);
    [by intros b rest [= <- _]|lia|].
  destruct (at_code_ahead _ _ _ _ _ Hat1) as [tail Hahead].
  destruct (step_plus_fields q1 q2 ch ch 0 (S c) Hs2) as (Hm2 & Hd2 & Hp2).
  { apply Hz1. lia. }
  { rewrite Hahead. unfold plus. apply (run_ahead _ _ [chr "."]); [done|].
    by intros b rest [= <- _]. }
  assert (Hv : AddRolling 0 (Z.of_nat (S c)) 255 mod 256 = Z.of_nat (S c)).
  { unfold AddRolling. rewrite Z.add_0_l, Z.rem_small by lia.
    apply Z.mod_small. lia. }
  rewrite Hv in Hm2.
  destruct f1 as [|f1]; [lia|].
  rewrite (run_loop_S exec f1 q1 q2 ch ch (chr "+"));
    [|exact (at_code_byte (replicate a (chr ">"))
               (replicate c (chr "+") ++ [chr "."]) size (Z.of_nat a) q1
               (chr "+") Hat1)|done|done].
  (* the invoke *)
  assert (Hin1 : 0 <= memPtr q1 < memLen q1).
  { destruct Hat1 as (_ & _ & _ & Hp & Hs). lia. }
  assert (Hcell : Byte q2 (memPtr q2) = Ok (Z.of_nat (S c))).
  { unfold Byte. rewrite Hm2, Hp2, index_insert by (apply Hin1).
    by rewrite decide_True. }
  assert (Hzeros : forall j, memPtr q2 - 8 <= j < memPtr q2 ->
                             Byte q2 j = Ok 0).
  { intros j Hj. unfold Byte. rewrite Hm2, index_insert by (apply Hin1).
    rewrite decide_False by lia. change (Byte q1 j = Ok 0). apply Hz1. lia. }
  assert (Hop : invoke_op q2 = Ok (mkOp (Z.of_nat (S c)) (replicate 8 0))).
  { apply invoke_zeros; [done|lia|done]. }
  assert (Hs3 : step exec (chr ".") q2 ch
                = Ok (set_pc q2 (pc q2 + 1),
                      ch ++ [mkOp (Z.of_nat (S c)) (replicate 8 0)])).
  { unfold step. rewrite exec_invoke, Hop. cbn [mbind result_bind].
    by rewrite Program_Op_forwards. }
  destruct f1 as [|f1]; [lia|].
  rewrite (run_loop_S exec f1 q2 _ ch _ (chr ".") (at_code_byte _ _ _ _ _ _ Hat2)
             ltac:(done) Hs3).
  pose proof (at_code_next _ _ _ _ _ _ Hat2) as Hat3.
  exists (set_pc q2 (pc q2 + 1)). split.
  - pose proof (at_code_end _ _ _ _ Hat3) as Hend.
    destruct f1; cbn [run_loop]; by rewrite Hend.
  - cbn [dataStart set_pc]. rewrite Hd2, Hd1, <- Hp1, <- Hp2. exact Hcell.
Qed.

Lemma bracket_depth_replicate (b : Z) (n : nat) (rest : list Z) (d : Z) :
  b <> chr "[" -> b <> chr "]" ->
  bracket_depth (replicate n b ++ rest) d = bracket_depth rest d.
Proof.
  intros Ho Hc. induction n as [|n IH]; [done|].
  cbn [replicate app bracket_depth].
  destruct (Z.eqb_spec b (chr "[")); [done|].
  by destruct (Z.eqb_spec b (chr "]")).
Qed.

(** A balanced text of instruction bytes, loaded: the machine is at the
    first byte of the text, the memory is the text and then only zero
    bytes, and the data section starts ten bytes after the text. *)
Lemma NewProgram_fresh (code : list Z) :
  bracket_depth code 0 = 0 ->
  Forall (fun r => is_instruction r = true) code ->
  exists p, NewProgram code = inr p /\ at_code [] code tapeSize 0 p /\
            memory p = code ++ replicate (Z.to_nat (10 + tapeSize)) 0 /\
            dataStart p = Z.of_nat (length code) + 10.
Proof.
  intros Hd Hall. unfold NewProgram, ValidateBrainfuck.
  rewrite Hd, (filter_all _ _ Hall). cbn [Z.eqb negb].
  assert (Ht : 0 < tapeSize) by (unfold tapeSize; lia).
  revert Ht. generalize tapeSize. intros t Ht.
  eexists. split; [reflexivity|]. split; [|by split].
  unfold at_code, memLen. cbn [memory pc dataStart memPtr app length].
  rewrite length_app, length_replicate.
  split; [|lia]. exists (replicate (Z.to_nat (9 + t)) 0).
  replace (Z.to_nat (10 + t)) with (S (Z.to_nat (9 + t))) by lia.
  reflexivity.
Qed.

(** The text of [a] steps right, [c + 1] increments and an invoke is
    loaded, and its run sends one op. *)
Lemma load_move_add_invoke (a c : nat) :
  Z.of_nat a < tapeSize -> Z.of_nat (S c) < 255 ->
  internal (Z.of_nat (S c)) = false ->
  exists p,
    NewProgram (replicate a (chr ">") ++ replicate (S c) (chr "+") ++ [chr "."])
    = inr p /\
    forall fuel, (3 <= fuel)%nat ->
      exists q,
        Run fuel p [] = Halted q [mkOp (Z.of_nat (S c)) (replicate 8 0)] /\
        Byte q (dataStart q + Z.of_nat a) = Ok (Z.of_nat (S c)).
Proof.
  intros Ha Hc Hint.
  destruct (NewProgram_fresh
              (replicate a (chr ">") ++ replicate (S c) (chr "+") ++ [chr "."]))
    as (p & Hp & Hat & Hm & Hds).
  - by rewrite !bracket_depth_replicate.
  - rewrite !Forall_app. split; [by apply Forall_replicate|].
    split; [by apply Forall_replicate|]. by apply Forall_singleton.
  - exists p. split; [exact Hp|]. intros fuel Hfuel. unfold Run.
    assert (Hlen : (memLen p =? 0) = false).
    { destruct Hat as (_ & _ & Hl & _ & Hs). apply Z.eqb_neq.
      unfold tapeSize in Hs. lia. }
    rewrite Hlen.
    destruct (move_add_invoke tapeSize a c p [] fuel Hat Hm Hds Ha Hc Hint Hfuel)
      as (q & Hq & Hcell).
    by exists q.
Qed.

End VMMore.

(** ** Further properties of the code generator *)

Module BSMore.
Import BS BSSpec BSInv BSProofs.

(** *** The cursor *)

Lemma count_app (c : ascii) (l1 l2 : list ascii) :
  count c (l1 ++ l2) = count c l1 + count c l2.
Proof. unfold count. rewrite filter_app, length_app. lia. Qed.

Lemma count_replicate (c x : ascii) (n : nat) :
  count c (replicate n x) = if decide (x = c) then Z.of_nat n else 0.
Proof.
  unfold count. destruct (decide (x = c)) as [->|Hne].
  - replace (filter (fun x => x = c) (replicate n c)) with (replicate n c).
    + by rewrite length_replicate.
    + induction n as [|n IH]; [done|]. simpl replicate.
      rewrite filter_cons_True by done. by rewrite <- IH.
  - replace (filter (fun x0 => x0 = c) (replicate n x)) with (@nil ascii);
      [done|].
    induction n as [|n IH]; [done|]. simpl replicate.
    by rewrite filter_cons_False.
Qed.

Lemma net_moves_app (l1 l2 : list ascii) :
  net_moves (l1 ++ l2) = net_moves l1 + net_moves l2.
Proof. unfold net_moves. rewrite !count_app. lia. Qed.

(** [point], from any cursor to any address, both not negative: the
    step markers of one direction that cover the distance. *)
Lemma point_moves (g : gen) (at_ : Z) :
  0 <= ptr g <= max_int -> 0 <= at_ <= max_int ->
  ptr (point g at_) = at_ /\
  sb (point g at_)
  = sb g ++ (if at_ <? ptr g
             then replicate (Z.to_nat (ptr g - at_)) "<"%char
             else replicate (Z.to_nat (at_ - ptr g)) ">"%char).
Proof.
  unfold max_int. intros Hp Ha. split; [apply point_fields|].
  unfold point, runes.
  rewrite (wrap_int_id (at_ - ptr g))
    by (unfold in_int, min_int, max_int; lia).
  destruct (Z.ltb_spec (at_ - ptr g) 0); destruct (Z.ltb_spec at_ (ptr g));
    try lia; simpl.
  - rewrite wrap_int_id by (unfold in_int, min_int, max_int; lia).
    do 2 f_equal. lia.
  - reflexivity.
Qed.

Lemma point_tracks (g : gen) (at_ : Z) :
  0 <= ptr g <= max_int -> 0 <= at_ <= max_int -> tracks g (point g at_).
Proof.
  intros Hp Ha. destruct (point_moves g at_ Hp Ha) as [Hptr Hsb].
  eexists. split; [exact Hsb|]. rewrite Hptr. unfold net_moves.
  destruct (Z.ltb_spec at_ (ptr g)); rewrite !count_replicate;
    repeat case_decide; try congruence; lia.
Qed.

Lemma tracks_refl (g : gen) : tracks g g.
Proof. exists []. rewrite app_nil_r. split; [done|]. unfold net_moves, count. simpl. lia. Qed.

Lemma tracks_trans (g1 g2 g3 : gen) : tracks g1 g2 -> tracks g2 g3 -> tracks g1 g3.
Proof.
  intros (t1 & H1 & N1) (t2 & H2 & N2). exists (t1 ++ t2).
  rewrite H2, H1, <- app_assoc, net_moves_app. split; [done|lia].
Qed.

(** Writing text without step markers does not move. *)
Lemma write_tracks (g : gen) (text : list ascii) :
  net_moves text = 0 -> tracks g (write g text).
Proof. intros H. exists text. split; [done|]. simpl. lia. Qed.

Lemma runes_still (n : Z) (c : ascii) :
  c <> ">"%char -> c <> "<"%char -> net_moves (runes n c) = 0.
Proof.
  intros H1 H2. unfold net_moves, runes. rewrite !count_replicate.
  repeat case_decide; try done; lia.
Qed.

Lemma good_start (g : gen) : small_state g -> good g g.
Proof. intros H. split; [done|apply tracks_refl]. Qed.

Lemma good_point (g h : gen) (a : Z) :
  good g h -> 0 <= a <= max_int -> good g (point h a).
Proof.
  intros [[Hp Hs] Ht] Ha. split.
  - unfold small_state.
    destruct (point_fields h a) as (-> & _ & _ & ->). by split.
  - eapply tracks_trans; [exact Ht|by apply point_tracks].
Qed.

Lemma good_write (g h : gen) (text : list ascii) :
  good g h -> net_moves text = 0 -> good g (write h text).
Proof.
  intros [Hs Ht] H0. split; [exact Hs|].
  eapply tracks_trans; [exact Ht|by apply write_tracks].
Qed.

Lemma good_push (g h : gen) (x : Z) :
  good g h -> 0 <= x <= max_int -> good g (pushLoopStart h x).
Proof.
  intros [[Hp Hs] (t & Ht & Hn)] Hx. split.
  - split; [exact Hp|]. cbn. apply Forall_app. split; [done|].
    by apply Forall_singleton.
  - by exists t.
Qed.

Lemma good_loopStart (g h : gen) : good g h -> good g (loopStart h).
Proof.
  intros H. unfold loopStart. apply good_write; [|reflexivity].
  apply good_push; [done|]. apply H.
Qed.

Lemma good_set_label (g h : gen) (l : string) :
  good g h -> good g (set_label h l).
Proof. intros [[Hp Hs] (t & Ht & Hn)]. split; [by split|by exists t]. Qed.

Lemma good_pop (g h h' : gen) (x : Z) :
  good g h -> popLoopStart h = Ok (h', x) ->
  good g h' /\ 0 <= x <= max_int.
Proof.
  intros [[Hp Hs] (t & Ht & Hn)] Hpop.
  pose proof (popLoopStart_Ok _ _ _ Hpop) as Hst.
  rewrite Hst in Hs. apply Forall_app in Hs as [Hs Hx].
  apply Forall_inv in Hx.
  split; [|done]. split; [split|exists t].
  - unfold popLoopStart in Hpop. destruct (last (loopStarts h)); [|done].
    by injection Hpop as <- <-.
  - exact Hs.
  - unfold popLoopStart in Hpop. destruct (last (loopStarts h)); [|done].
    by injection Hpop as <- <-.
Qed.

Lemma ptr_point (g : gen) (a : Z) : ptr (point g a) = a.
Proof. apply point_fields. Qed.

Ltac good_chain :=
  repeat first
    [ apply good_set_label
    | apply good_loopStart
    | apply good_write; [|reflexivity || (apply runes_still; discriminate)]
    | apply good_push; [|lia]
    | apply good_point; [|lia] ];
  try assumption.

(** The cases of the [switch] on the name of an instruction. *)
Ltac case_name H :=
  unfold instr, instr_body in H; cbn [name dst src] in H;
  repeat match type of H with
    | context [String.eqb ?n ?s] =>
        is_var n; destruct (String.eqb_spec n s); [subst n|]
    end.

Lemma addr_of_small (g : gen) (x : option expr) (msg : string) (v : Z) :
  small_operand x -> addr_of g x msg = Ok v -> 0 <= v <= max_int.
Proof.
  destruct x as [[id|n|[id|a|e]]|]; try done. simpl. intros Ha.
  rewrite int_literal. simpl. by intros [= <-].
Qed.

Ltac small_addrs :=
  repeat match goal with
    | H : addr_of _ _ _ = Ok _ |- _ => apply addr_of_small in H; [|assumption]
    end.

Ltac good_pops Hg :=
  repeat match goal with
    | H : popLoopStart ?h = Ok _ |- _ =>
        first [ let Hh := fresh "Hh" in
                let Hx := fresh "Hx" in
                destruct (good_pop _ _ _ _ Hg H) as [Hh Hx]; clear H
              | match goal with
                | Hh : good _ h |- _ =>
                    let Hh' := fresh "Hh" in
                    let Hx := fresh "Hx" in
                    destruct (good_pop _ _ _ _ Hh H) as [Hh' Hx]; clear H
                end ]
    end.

(** One instruction with small operands. *)
Lemma instr_good (g g' : gen) (i : stmtInstr) :
  small_operands (StmtInstr i) -> small_state g -> instr g i = Ok g' ->
  good g g'.
Proof.
  intros [Hd Hs] Hg H. apply good_start in Hg. destruct i as [n d s].
  cbn [dst src] in Hd, Hs. case_name H; cbn in H.
  all: try discriminate H.
  all: apply bind_Ok_inv in H as (g1 & H & Hl); injection Hl as <-.
  1, 2, 3, 5, 6, 7, 8: inv_bind; subst; small_addrs; good_chain.
  - destruct d as [[id|v|e]|]; unfold loopEnd in H; inv_bind; subst;
      small_addrs; good_pops Hg; good_chain.
  - inv_bind; subst. good_pops Hg. good_chain.
  - inv_bind; subst. good_pops Hg. good_chain.
  - destruct d as [value|]; [|discriminate]. destruct s; [discriminate|].
    destruct (label g =? "")%string; [discriminate|].
    destruct (labelTable g !! label g); [discriminate|].
    injection H as <-. destruct Hg as [[Hp Hst] (t & Ht & Hn)].
    split; [by split|by exists t].
Qed.

Lemma gen_stmts_good (stmts : list stmt) (g h g' : gen) :
  Forall small_operands stmts -> good g h ->
  gen_stmts h stmts = Ok g' -> good g g'.
Proof.
  intros Hs. revert h.
  induction Hs as [|[i|l] stmts Hi _ IH]; intros h Hh H; simpl in H.
  - by injection H as <-.
  - apply bind_Ok_inv in H as (h1 & H1 & H).
    apply (IH h1); [|exact H]. destruct Hh as [Hsm Htr].
    destruct (instr_good h h1 i Hi Hsm H1) as [Hsm1 Htr1].
    split; [exact Hsm1|by apply (tracks_trans g h h1)].
  - apply (IH (set_label h l)); [|exact H]. by apply good_set_label.
Qed.

(** The cursor follows the text: through statements whose address
    operands are literals that are not negative, the cursor and the saved
    cursors stay addresses that are not negative, and the cursor has moved
    by the number of step-right markers minus the number of step-left
    markers written. *)
Theorem cursor_follows_the_text (stmts : list stmt) (g g' : gen) :
  Forall small_operands stmts -> small_state g ->
  gen_stmts g stmts = Ok g' ->
  small_state g' /\
  exists text, sb g' = sb g ++ text /\ ptr g' = ptr g + net_moves text.
Proof.
  intros Hs Hg H. apply good_start in Hg.
  destruct (gen_stmts_good stmts g g g' Hs Hg H) as [Hsm (text & Ht & Hn)].
  split; [exact Hsm|]. exists text. split; [exact Ht|lia].
Qed.

Lemma cursor_follows_the_text_witness :
  let w := StmtInstr (mkInstr "while" (Some (exprAddr (exprInt 3))) None) in
  let i := StmtInstr (mkInstr "inc" (Some (exprAddr (exprInt 1))) None) in
  let e := StmtInstr (mkInstr "endwhile" None None) in
  exists g',
    gen_stmts new_gen [w; i; e] = Ok g' /\
    small_state g' /\
    exists text, sb g' = sb new_gen ++ text
                 /\ ptr g' = ptr new_gen + net_moves text.
Proof.
  intros w i e. eexists. split; [reflexivity|].
  apply (cursor_follows_the_text [w; i; e] new_gen).
  - repeat apply Forall_cons_2; try apply Forall_nil_2;
      cbn; unfold max_int; lia.
  - split; [cbn; unfold max_int; lia|apply Forall_nil_2].
  - reflexivity.
Defined.

(** *** The text *)

Lemma open_loops_app (l1 l2 : list ascii) :
  open_loops (l1 ++ l2) = open_loops l1 + open_loops l2.
Proof. unfold open_loops. rewrite !count_app. lia. Qed.

Lemma open_loops_runes (n : Z) (c : ascii) :
  c <> "["%char -> c <> "]"%char -> open_loops (runes n c) = 0.
Proof.
  intros H1 H2. unfold open_loops, runes. rewrite !count_replicate.
  repeat case_decide; try done; lia.
Qed.

Lemma chars_runes (n : Z) (c : ascii) :
  instruction_char c -> Forall instruction_char (runes n c).
Proof. intros H. unfold runes. by apply Forall_replicate. Qed.

Lemma emits_refl (g : gen) : emits g g 0.
Proof. exists []. by rewrite app_nil_r. Qed.

Lemma emits_eq (g h : gen) (d d' : Z) : emits g h d -> d = d' -> emits g h d'.
Proof. by intros H <-. Qed.

Lemma emits_trans (g1 g2 g3 : gen) (d1 d2 : Z) :
  emits g1 g2 d1 -> emits g2 g3 d2 -> emits g1 g3 (d1 + d2).
Proof.
  intros (t1 & H1 & C1 & N1) (t2 & H2 & C2 & N2). exists (t1 ++ t2).
  rewrite H2, H1, <- app_assoc, open_loops_app.
  split; [done|]. split; [by apply Forall_app|lia].
Qed.

Lemma emits_write (g h : gen) (t : list ascii) (d : Z) :
  emits g h d -> Forall instruction_char t ->
  emits g (write h t) (d + open_loops t).
Proof.
  intros H Ht. apply (emits_trans g h); [exact H|]. by exists t.
Qed.

Lemma emits_point (g h : gen) (a : Z) (d : Z) :
  emits g h d -> emits g (point h a) d.
Proof.
  intros H. apply (emits_eq g _ (d + 0)); [|lia].
  apply (emits_trans g h); [exact H|]. unfold point.
  destruct (_ <? 0); eexists; (split; [reflexivity|]); split;
    try (apply chars_runes; compute_done);
    apply open_loops_runes; discriminate.
Qed.

Lemma emits_set_label (g h : gen) (l : string) (d : Z) :
  emits g h d -> emits g (set_label h l) d.
Proof. done. Qed.

Lemma emits_set_labelTable (g h : gen) (t : gmap string expr) (d : Z) :
  emits g h d -> emits g (set_labelTable h t) d.
Proof. done. Qed.

Lemma emits_push (g h : gen) (x : Z) (d : Z) :
  emits g h d -> emits g (pushLoopStart h x) d.
Proof. done. Qed.

Lemma popLoopStart_fields (g g' : gen) (x : Z) :
  popLoopStart g = Ok (g', x) ->
  sb g' = sb g /\ ptr g' = ptr g /\ label g' = label g
  /\ labelTable g' = labelTable g.
Proof.
  unfold popLoopStart. destruct (last (loopStarts g)); [|done].
  by intros [= <- <-].
Qed.

Lemma emits_pop (g h h' : gen) (x : Z) (d : Z) :
  popLoopStart h = Ok (h', x) -> emits g h d -> emits g h' d.
Proof.
  intros Hpop (t & Ht & H). apply popLoopStart_fields in Hpop as (Hsb & _).
  exists t. by rewrite Hsb.
Qed.

Ltac emits_chain :=
  lazymatch goal with
  | |- emits _ (set_label _ _) _ => apply emits_set_label; emits_chain
  | |- emits _ (set_labelTable _ _) _ => apply emits_set_labelTable; emits_chain
  | |- emits _ (loopStart _) _ => unfold loopStart; emits_chain
  | |- emits _ (write _ _) _ =>
      eapply emits_write;
      [emits_chain|first [apply chars_runes; compute_done|compute_done]]
  | |- emits _ (pushLoopStart _ _) _ => apply emits_push; emits_chain
  | |- emits _ (point _ _) _ => apply emits_point; emits_chain
  | |- emits ?g ?g _ => apply emits_refl
  | H : popLoopStart ?h0 = Ok (?h, _) |- emits _ ?h _ =>
      apply (emits_pop _ _ _ _ _ H); emits_chain
  end.

(** What one instruction writes. *)
Lemma instr_emits (g g' : gen) (i : stmtInstr) :
  instr g i = Ok g' -> emits g g' (opens (StmtInstr i)).
Proof.
  intros H. destruct i as [n d s]. case_name H; cbn in H.
  all: try discriminate H.
  all: apply bind_Ok_inv in H as (g1 & H & Hl); injection Hl as <-.
  1, 2, 3, 5, 6, 7, 8, 9, 10:
    inv_bind; subst; (eapply emits_eq; [emits_chain|]);
    rewrite ?open_loops_runes by discriminate; reflexivity.
  - destruct d as [[id|v|e]|]; unfold loopEnd in H; inv_bind; subst;
      (eapply emits_eq; [emits_chain|reflexivity]).
  - destruct d as [value|]; [|discriminate]. destruct s; [discriminate|].
    destruct (label g =? "")%string; [discriminate|].
    destruct (labelTable g !! label g); [discriminate|].
    injection H as <-. eapply emits_eq; [emits_chain|reflexivity].
Qed.

Lemma gen_stmts_emits (stmts : list stmt) (g g' : gen) :
  gen_stmts g stmts = Ok g' -> emits g g' (opened stmts).
Proof.
  revert g. induction stmts as [|[i|l] stmts IH]; intros g H; simpl in H.
  - injection H as <-. apply emits_refl.
  - apply bind_Ok_inv in H as (g1 & H1 & H).
    apply (emits_trans g g1); [by apply instr_emits|by apply IH].
  - apply (emits_eq _ _ (0 + opened stmts)); [|done].
    apply (emits_trans g (set_label g l));
      [apply emits_set_label, emits_refl|by apply IH].
Qed.

(** The assembler writes nothing but the eight instruction characters of
    the machine, whatever the statements. *)
Theorem generated_text_is_instructions (stmts : list stmt) (text : string) :
  generate stmts = Ok text ->
  Forall instruction_char (list_ascii_of_string text).
Proof.
  unfold generate. intros H. apply bind_Ok_inv in H as (g & Hg & H).
  injection H as <-. rewrite list_ascii_of_string_of_list_ascii.
  apply gen_stmts_emits in Hg as (t & Ht & Hc & _). by rewrite Ht.
Qed.

Lemma generated_text_is_instructions_witness :
  Forall instruction_char (list_ascii_of_string ">>>[-]").
Proof.
  apply (generated_text_is_instructions
           [StmtInstr (mkInstr "clear" (Some (exprAddr (exprInt 3))) None)]).
  reflexivity.
Defined.

(** Every [while] and every [if] leaves one loop open in the text, every
    [endwhile] and every [endif] closes one, and no other statement
    changes the number of open loops: loop-open minus loop-close
    characters written is the number of [while] and [if] minus the number
    of [endwhile] and [endif]. *)
Theorem brackets_follow_the_constructs (stmts : list stmt) (g g' : gen) :
  gen_stmts g stmts = Ok g' ->
  open_loops (sb g') = open_loops (sb g) + opened stmts.
Proof.
  intros H. apply gen_stmts_emits in H as (t & Ht & _ & Hn).
  by rewrite Ht, open_loops_app, Hn.
Qed.

Lemma brackets_follow_the_constructs_witness :
  let w := StmtInstr (mkInstr "while" (Some (exprAddr (exprInt 3))) None) in
  let i := StmtInstr (mkInstr "if" (Some (exprAddr (exprInt 1)))
                              (Some (exprAddr (exprInt 2)))) in
  exists g',
    gen_stmts new_gen [w; i] = Ok g' /\
    open_loops (sb g') = open_loops (sb new_gen) + 2.
Proof.
  intros w i. eexists. split; [reflexivity|].
  apply (brackets_follow_the_constructs [w; i] new_gen). reflexivity.
Defined.

(** *** From the assembler to the machine *)

Lemma chr_inj (a b : ascii) : chr a = chr b -> a = b.
Proof.
  unfold chr. intros H. apply N2Z.inj in H.
  rewrite <- (ascii_N_embedding a), <- (ascii_N_embedding b). by rewrite H.
Qed.

Lemma open_loops_other (a : ascii) :
  a <> "["%char -> a <> "]"%char -> open_loops [a] = 0.
Proof.
  intros H1 H2. unfold open_loops, count.
  by rewrite !filter_cons_False.
Qed.

Lemma bracket_depth_text (l : list ascii) (d : Z) :
  VM.bracket_depth (chr <$> l) d = d + open_loops l.
Proof.
  revert d. induction l as [|a l IH]; intros d.
  - unfold open_loops, count. simpl. lia.
  - change (a :: l) with ([a] ++ l) at 2. rewrite open_loops_app.
    cbn [fmap list_fmap VM.bracket_depth]. rewrite IH.
    destruct (Z.eqb_spec (chr a) (chr "[")) as [E|E].
    { apply chr_inj in E as ->. change (open_loops ["["%char]) with 1. lia. }
    destruct (Z.eqb_spec (chr a) (chr "]")) as [E'|E'].
    { apply chr_inj in E' as ->. change (open_loops ["]"%char]) with (-1). lia. }
    rewrite open_loops_other; [lia| |]; by intros ->.
Qed.

Lemma instruction_char_byte (c : ascii) :
  instruction_char c -> VM.is_instruction (chr c) = true.
Proof.
  unfold instruction_char. rewrite !elem_of_cons, elem_of_nil.
  intros [->|[->|[->|[->|[->|[->|[->|[->|[]]]]]]]]]; reflexivity.
Qed.

Lemma opened_app (l1 l2 : list stmt) :
  opened (l1 ++ l2) = opened l1 + opened l2.
Proof.
  induction l1 as [|s l1 IH]; simpl; [done|]. rewrite IH. lia.
Qed.

Lemma opened_cons (s : stmt) (l : list stmt) :
  opened (s :: l) = opens s + opened l.
Proof. reflexivity. Qed.

Lemma opens_name (n : string) (s : stmt) (d : Z) :
  has_name n s -> opens (StmtInstr (mkInstr n None None)) = d -> opens s = d.
Proof. destruct s as [i|l]; [|done]. simpl. by intros <-. Qed.

Lemma matched_opened (stmts : list stmt) : matched stmts -> opened stmts = 0.
Proof.
  induction 1 as [ | s rest Hs _ IHrest
                 | w body e rest Hw He _ IHbody _ IHrest
                 | i body e rest Hi He _ IHbody _ IHrest
                 | i body1 el body2 e rest Hi Hel He _ IH1 _ IH2 _ IHrest ];
    repeat first [rewrite opened_app | rewrite opened_cons].
  - done.
  - destruct s as [i|l]; [|simpl; lia]. destruct i as [n d s].
    unfold plain in Hs. cbn [name] in Hs.
    rewrite !elem_of_cons, elem_of_nil in Hs.
    destruct Hs as [->|[->|[->|[->|[->|[->|[]]]]]]]; simpl; lia.
  - rewrite (opens_name _ _ 1 Hw), (opens_name _ _ (-1) He) by done. lia.
  - rewrite (opens_name _ _ 1 Hi), (opens_name _ _ (-1) He) by done. lia.
  - rewrite (opens_name _ _ 1 Hi), (opens_name _ _ 0 Hel),
      (opens_name _ _ (-1) He) by done. lia.
Qed.

Lemma generate_loads (stmts : list stmt) (text : string) :
  generate stmts = Ok text -> opened stmts = 0 ->
  exists p, VM.NewProgram (bytes_of_string text) = inr p
            /\ VM.CodeSection p = bytes_of_string text ++ replicate 10 0.
Proof.
  unfold generate. intros H H0. apply bind_Ok_inv in H as (g & Hg & H).
  injection H as <-. unfold bytes_of_string.
  rewrite list_ascii_of_string_of_list_ascii.
  apply gen_stmts_emits in Hg as (t & Ht & Hc & Hn). cbn [sb new_gen] in Ht.
  rewrite app_nil_l in Ht. rewrite Ht.
  apply VMMore.NewProgram_accepts.
  - rewrite bracket_depth_text. lia.
  - apply Forall_fmap. eapply Forall_impl; [exact Hc|].
    intros c. apply instruction_char_byte.
Qed.

(** The text the assembler returns is loaded by the machine exactly when
    the program has as many [while] and [if] as [endwhile] and [endif],
    which every matched program has; otherwise the machine reports the
    loop imbalance.  The loaded code section is the whole text, followed
    by its ten zero bytes: nothing of it is dropped as commentary. *)
Theorem assembled_text_loads (stmts : list stmt) (text : string) :
  generate stmts = Ok text ->
  let code := bytes_of_string text in
  (opened stmts = 0 <-> exists p, VM.NewProgram code = inr p) /\
  (opened stmts <> 0 <-> VM.NewProgram code = inl VM.ErrCodeBracketImbalance) /\
  (matched stmts -> opened stmts = 0) /\
  (forall p, VM.NewProgram code = inr p ->
             VM.CodeSection p = code ++ replicate 10 0).
Proof.
  unfold generate. intros H. apply bind_Ok_inv in H as (g & Hg & H).
  injection H as <-. cbv zeta. unfold bytes_of_string.
  rewrite list_ascii_of_string_of_list_ascii.
  apply gen_stmts_emits in Hg as (t & Ht & Hc & Hn). cbn [sb new_gen] in Ht.
  rewrite app_nil_l in Ht. rewrite Ht. clear Ht.
  assert (Hd : VM.bracket_depth (chr <$> t) 0 = opened stmts).
  { rewrite bracket_depth_text. lia. }
  assert (Hall : Forall (fun r => VM.is_instruction r = true) (chr <$> t)).
  { apply Forall_fmap. eapply Forall_impl; [exact Hc|].
    intros c. apply instruction_char_byte. }
  assert (Hbad : opened stmts <> 0 ->
                 VM.NewProgram (chr <$> t) = inl VM.ErrCodeBracketImbalance).
  { intros Hne. unfold VM.NewProgram, VM.ValidateBrainfuck. rewrite Hd.
    by destruct (Z.eqb_spec (opened stmts) 0). }
  assert (Hok : opened stmts = 0 ->
                exists p, VM.NewProgram (chr <$> t) = inr p
                          /\ VM.CodeSection p = (chr <$> t) ++ replicate 10 0).
  { intros H0. apply VMMore.NewProgram_accepts; [by rewrite Hd|done]. }
  split; [|split; [|split]].
  - split.
    + intros H0. destruct (Hok H0) as (p & Hp & _). by exists p.
    + intros [p Hp]. destruct (decide (opened stmts = 0)) as [|Hne]; [done|].
      rewrite (Hbad Hne) in Hp. discriminate.
  - split; [exact Hbad|]. intros Hp H0.
    destruct (Hok H0) as (p & Hp' & _). rewrite Hp in Hp'. discriminate.
  - apply matched_opened.
  - intros p Hp. destruct (decide (opened stmts = 0)) as [H0|Hne].
    + destruct (Hok H0) as (p' & Hp' & Hcode). rewrite Hp in Hp'.
      apply (inj inr) in Hp'. by subst p'.
    + rewrite (Hbad Hne) in Hp. discriminate.
Qed.

Lemma assembled_text_loads_witness :
  let w := StmtInstr (mkInstr "while" (Some (exprAddr (exprInt 1))) None) in
  let e := StmtInstr (mkInstr "endwhile" None None) in
  let code := bytes_of_string ">[]" in
  (opened [w; e] = 0 <-> exists p, VM.NewProgram code = inr p) /\
  (opened [w; e] <> 0 <-> VM.NewProgram code = inl VM.ErrCodeBracketImbalance) /\
  (matched [w; e] -> opened [w; e] = 0) /\
  (forall p, VM.NewProgram code = inr p ->
             VM.CodeSection p = code ++ replicate 10 0).
Proof.
  intros w e. apply (assembled_text_loads [w; e] ">[]"). reflexivity.
Defined.

(** *** Constants *)

Lemma labelTable_point (g : gen) (v : Z) :
  labelTable (point g v) = labelTable g.
Proof. apply point_fields. Qed.

Ltac table_simpl :=
  repeat match goal with
    | H : popLoopStart _ = Ok _ |- _ =>
        apply popLoopStart_fields in H as (_ & _ & _ & H)
    end;
  repeat first
    [ progress cbn [labelTable set_label write pushLoopStart set_loopStarts
                    loopStart set_labelTable]
    | rewrite labelTable_point ];
  repeat match goal with
    | H : labelTable _ = _ |- _ => rewrite H
    end.

Lemma instr_table (g g' : gen) (i : stmtInstr) :
  instr g i = Ok g' -> labelTable g ⊆ labelTable g'.
Proof.
  intros H. destruct i as [n d s]. case_name H; cbn in H.
  all: try discriminate H.
  all: apply bind_Ok_inv in H as (g1 & H & Hl); injection Hl as <-.
  1, 2, 3, 5, 6, 7, 8, 9, 10: inv_bind; subst; by table_simpl.
  - destruct d as [[id|v|e]|]; unfold loopEnd in H; inv_bind; subst;
      by table_simpl.
  - destruct d as [value|]; [|discriminate]. destruct s; [discriminate|].
    destruct (label g =? "")%string; [discriminate|].
    destruct (labelTable g !! label g) eqn:Hl; [discriminate|].
    injection H as <-. cbn. by apply insert_subseteq.
Qed.

(** A constant is bound for good: what the label table holds for an
    identifier, it holds with the same value after any statements that
    are generated. *)
Theorem constants_are_never_rebound
  (stmts : list stmt) (g g' : gen) (id : string) (e : expr) :
  gen_stmts g stmts = Ok g' ->
  labelTable g !! id = Some e -> labelTable g' !! id = Some e.
Proof.
  revert g. induction stmts as [|[i|l] stmts IH]; intros g H Hid;
    simpl in H.
  - by injection H as <-.
  - apply bind_Ok_inv in H as (g1 & H1 & H). apply (IH g1 H).
    apply instr_table in H1. by apply (lookup_weaken _ _ _ _ Hid).
  - by apply (IH (set_label g l)).
Qed.

Lemma constants_are_never_rebound_witness :
  let g := set_labelTable new_gen (<["x" := exprInt 5]> ∅) in
  exists g',
    gen_stmts g [StmtLabel "y"; StmtInstr (mkInstr "const" (Some (exprInt 7)) None);
                 StmtInstr (mkInstr "inc" (Some (exprAddr (exprId "x"))) None)]
      = Ok g' /\
    labelTable g' !! "x" = Some (exprInt 5).
Proof.
  intros g. eexists. split; [reflexivity|].
  apply (constants_are_never_rebound
           [StmtLabel "y"; StmtInstr (mkInstr "const" (Some (exprInt 7)) None);
            StmtInstr (mkInstr "inc" (Some (exprAddr (exprId "x"))) None)] g).
  - reflexivity.
  - reflexivity.
Defined.

Lemma overflow_or_not (p : panic) : p = StackOverflow \/ p <> StackOverflow.
Proof. destruct p; auto; by right. Qed.

Lemma int_bound (g : gen) (id : string) (e : expr) :
  labelTable g !! id = Some e -> int g (exprId id) = int g e.
Proof.
  intros Hid. destruct (int g e) as [x|p] eqn:He.
  - assert (Hr : Ok x <> Panic (A := Z + string) StackOverflow) by done.
    destruct (int_of_evaluates _ _ _ _ He Hr) as (k & _ & Hev).
    assert (Hev' : evaluates (lookup g) (exprId id) (S k) (Ok x))
      by (by econstructor).
    unfold int. apply (evaluates_int_of _ _ _ _ Hev').
    by apply (evaluates_bound_by_size (S k) (labelTable g) (exprId id) (Ok x)).
  - destruct (overflow_or_not p) as [->|Hp].
    + unfold int. destruct (size (labelTable g)) as [|n] eqn:Hsz.
      { apply map_size_empty_inv in Hsz. rewrite Hsz in Hid.
        by rewrite lookup_empty in Hid. }
      simpl. unfold lookup at 1. rewrite Hid.
      destruct (int_of n (lookup g) e) as [x|p] eqn:E.
      * assert (Hr : Ok x <> Panic (A := Z + string) StackOverflow) by done.
        rewrite (int_fuel_enough g e n _ E Hr) in He. discriminate.
      * destruct (overflow_or_not p) as [->|Hp]; [done|].
        assert (Hr : Panic (A := Z + string) p <> Panic StackOverflow)
          by congruence.
        rewrite (int_fuel_enough g e n _ E Hr) in He. congruence.
    + assert (Hr : Panic (A := Z + string) p <> Panic StackOverflow)
        by congruence.
      destruct (int_of_evaluates _ _ _ _ He Hr) as (k & _ & Hev).
      assert (Hev' : evaluates (lookup g) (exprId id) (S k) (Panic p))
        by (by econstructor).
      unfold int. apply (evaluates_int_of _ _ _ _ Hev').
      by apply (evaluates_bound_by_size (S k) (labelTable g) (exprId id)
                  (Panic p)).
Qed.

Lemma addr_of_bound (g : gen) (id : string) (e : expr) (msg : string) :
  labelTable g !! id = Some e ->
  addr_of g (Some (exprAddr (exprId id))) msg
  = addr_of g (Some (exprAddr e)) msg.
Proof. intros H. unfold addr_of. by rewrite (int_bound g id e H). Qed.

Lemma times_of_bound (g : gen) (id : string) (e : expr) :
  labelTable g !! id = Some e ->
  times_of g (Some (exprId id)) = times_of g (Some e).
Proof. intros H. unfold times_of. by rewrite (int_bound g id e H). Qed.

Ltac split_names :=
  repeat match goal with
    | |- context [String.eqb ?n ?s] =>
        is_var n; destruct (String.eqb_spec n s); [subst n|]
    end.

(** An identifier that the label table binds stands for the expression
    it is bound to: it has the same value, an address operand [[id]] of
    any instruction but [const] generates what the address of that
    expression generates, and so does the count operand [id] of [inc] and
    [dec]. *)
Theorem identifier_stands_for_its_constant
  (g : gen) (id : string) (e : expr) :
  labelTable g !! id = Some e ->
  int g (exprId id) = int g e /\
  (forall n s, n <> "const"%string ->
     instr g (mkInstr n (Some (exprAddr (exprId id))) s)
     = instr g (mkInstr n (Some (exprAddr e)) s)) /\
  (forall n d, n ∈ ["inc"; "dec"]%string ->
     instr g (mkInstr n d (Some (exprId id)))
     = instr g (mkInstr n d (Some e))) /\
  (forall d,
     instr g (mkInstr "if" d (Some (exprAddr (exprId id))))
     = instr g (mkInstr "if" d (Some (exprAddr e)))).
Proof.
  intros Hid. split; [by apply int_bound|]. split; [|split].
  - intros n s Hn. unfold instr, instr_body. cbn [name dst src].
    rewrite !(addr_of_bound g id e _ Hid). split_names; try done.
  - intros n d. rewrite !elem_of_cons, elem_of_nil.
    intros [->|[->|[]]]; unfold instr, instr_body; cbn [name dst src];
      cbn [String.eqb Ascii.eqb Bool.eqb];
      destruct (addr_of g d must_addr) as [v|]; try done;
      cbn [mbind result_bind];
      by rewrite (times_of_bound (point g v) id e)
        by (by rewrite labelTable_point).
  - intros d. unfold instr, instr_body. cbn [name dst src].
    cbn [String.eqb Ascii.eqb Bool.eqb].
    by rewrite !(addr_of_bound g id e _ Hid).
Qed.

Lemma identifier_stands_for_its_constant_witness :
  let g := set_labelTable new_gen (<["x" := exprInt 5]> ∅) in
  int g (exprId "x") = int g (exprInt 5) /\
  (forall n s, n <> "const"%string ->
     instr g (mkInstr n (Some (exprAddr (exprId "x"))) s)
     = instr g (mkInstr n (Some (exprAddr (exprInt 5))) s)) /\
  (forall n d, n ∈ ["inc"; "dec"]%string ->
     instr g (mkInstr n d (Some (exprId "x")))
     = instr g (mkInstr n d (Some (exprInt 5)))) /\
  (forall d,
     instr g (mkInstr "if" d (Some (exprAddr (exprId "x"))))
     = instr g (mkInstr "if" d (Some (exprAddr (exprInt 5))))).
Proof.
  intros g. apply (identifier_stands_for_its_constant g "x" (exprInt 5)).
  reflexivity.
Defined.

(** [const] binds the label before it to its operand, writes nothing and
    leaves the cursor; it panics when that label is bound already, and
    when an instruction stands between the label and the [const], because
    every instruction ends with the pending label cleared. *)
Theorem const_binds_the_label_before_it (g : gen) (l : string) (v : expr) :
  l <> ""%string ->
  let c := StmtInstr (mkInstr "const" (Some v) None) in
  (labelTable g !! l = None ->
   exists g', gen_stmts g [StmtLabel l; c] = Ok g'
              /\ labelTable g' = <[l := v]> (labelTable g)
              /\ sb g' = sb g /\ ptr g' = ptr g /\ label g' = ""%string
              /\ loopStarts g' = loopStarts g) /\
  (is_Some (labelTable g !! l) ->
   gen_stmts g [StmtLabel l; c]
   = Panic (PanicMsg
       "a const cannot be shadowed by another const with the same name")) /\
  (forall i g1, instr g i = Ok g1 ->
   gen_stmts g [StmtInstr i; c]
   = Panic (PanicMsg "const must have a label before it")).
Proof.
  intros Hl c. apply String.eqb_neq in Hl. split; [|split].
  - intros Hnone. eexists. split.
    + unfold c. cbn. rewrite Hl, Hnone. reflexivity.
    + by repeat split.
  - intros [e He]. unfold c. cbn. by rewrite Hl, He.
  - intros i g1 Hi. cbn [gen_stmts]. rewrite Hi.
    unfold instr in Hi. apply bind_Ok_inv in Hi as (h & _ & Hi).
    injection Hi as <-. reflexivity.
Qed.

Lemma const_binds_the_label_before_it_witness :
  let c := StmtInstr (mkInstr "const" (Some (exprInt 7)) None) in
  (labelTable new_gen !! "seven" = None ->
   exists g', gen_stmts new_gen [StmtLabel "seven"; c] = Ok g'
              /\ labelTable g' = <["seven" := exprInt 7]> (labelTable new_gen)
              /\ sb g' = sb new_gen /\ ptr g' = ptr new_gen
              /\ label g' = ""%string
              /\ loopStarts g' = loopStarts new_gen) /\
  (is_Some (labelTable new_gen !! "seven") ->
   gen_stmts new_gen [StmtLabel "seven"; c]
   = Panic (PanicMsg
       "a const cannot be shadowed by another const with the same name")) /\
  (forall i g1, instr new_gen i = Ok g1 ->
   gen_stmts new_gen [StmtInstr i; c]
   = Panic (PanicMsg "const must have a label before it")).
Proof.
  apply (const_binds_the_label_before_it new_gen "seven" (exprInt 7)).
  discriminate.
Defined.

Lemma int_of_self (g : gen) (id : string) (n : nat) :
  labelTable g !! id = Some (exprId id) ->
  int_of n (lookup g) (exprId id) = Panic StackOverflow.
Proof.
  intros H. induction n as [|n IH]; simpl; unfold lookup at 1; rewrite H;
    [done|exact IH].
Qed.

(** A constant defined as itself is accepted by [const] and can never be
    used: the evaluation of the identifier has no result after any number
    of look-ups, the recursion of [int] does not end, and every
    instruction with the identifier as its address operand ends in the
    stack overflow. *)
Theorem self_reference_never_evaluates (g : gen) (id : string) :
  labelTable g !! id = Some (exprId id) ->
  (forall k r, ~ evaluates (lookup g) (exprId id) k r) /\
  int g (exprId id) = Panic StackOverflow /\
  (forall n s,
     n ∈ ["inc"; "dec"; "while"; "endwhile"; "call"; "read"; "clear"; "if"]%string ->
     instr g (mkInstr n (Some (exprAddr (exprId id))) s)
     = Panic StackOverflow).
Proof.
  intros H. split; [|split].
  - intros k. induction k as [|k IH]; intros r Hev;
      inversion Hev as [| |id' Hnone|id' e k' r' Hsome Hev']; subst.
    + unfold lookup in Hnone. congruence.
    + unfold lookup in Hsome. rewrite H in Hsome. injection Hsome as <-.
      by apply (IH r).
  - by apply int_of_self.
  - intros n s. rewrite !elem_of_cons, elem_of_nil.
    assert (Hint : int g (exprId id) = Panic StackOverflow)
      by by apply int_of_self.
    intros [->|[->|[->|[->|[->|[->|[->|[->|[]]]]]]]]];
      unfold instr, instr_body; cbn [name dst src];
      cbn [String.eqb Ascii.eqb Bool.eqb]; unfold addr_of;
      by rewrite Hint.
Qed.

Lemma self_reference_never_evaluates_witness :
  exists g,
    gen_stmts new_gen
      [StmtLabel "x"; StmtInstr (mkInstr "const" (Some (exprId "x")) None)]
    = Ok g /\
    (forall k r, ~ evaluates (lookup g) (exprId "x") k r) /\
    int g (exprId "x") = Panic StackOverflow /\
    (forall n s,
       n ∈ ["inc"; "dec"; "while"; "endwhile"; "call"; "read"; "clear";
            "if"]%string ->
       instr g (mkInstr n (Some (exprAddr (exprId "x"))) s)
       = Panic StackOverflow).
Proof.
  eexists. split; [reflexivity|].
  apply (self_reference_never_evaluates _ "x"). reflexivity.
Defined.

(** *** Where a construct closes *)

Lemma while_cell (g g1 : gen) (w : stmtInstr) :
  name w = "while"%string -> instr g w = Ok g1 ->
  loopStarts g1 = loopStarts g ++ [ptr g1]
  /\ exists t, sb g1 = t ++ ["["%char].
Proof.
  destruct w as [n d s]. cbn [name]. intros -> H. unfold instr in H.
  apply bind_Ok_inv in H as (h & H & Hg); injection Hg as <-. cbn in H.
  inv_bind; subst. split; [|by eexists].
  stack_simpl. cbn [ptr set_label write pushLoopStart set_loopStarts].
  reflexivity.
Qed.

Lemma endwhile_cell (g g' : gen) (e : stmtInstr) (l : list Z) (x : Z) :
  name e = "endwhile"%string -> dst e = None ->
  loopStarts g = l ++ [x] -> instr g e = Ok g' ->
  ptr g' = x /\ loopStarts g' = l /\ exists t, sb g' = t ++ ["]"%char].
Proof.
  destruct e as [n d s]. cbn [name dst]. intros -> -> Hst H.
  unfold instr in H. cbn in H. unfold loopEnd in H.
  rewrite (popLoopStart_snoc g l x Hst) in H. cbn in H. injection H as <-.
  cbn [ptr set_label write]. split; [apply point_fields|]. split.
  - stack_simpl. reflexivity.
  - by eexists.
Qed.

(** A loop closes on the cell it opened on: after the statements of a
    matched body, an [endwhile] without operand writes its loop-close
    character with the cursor where the [while] wrote the loop-open
    character, and the loop stack is as before the [while]. *)
Theorem endwhile_returns_to_the_loop_cell
  (g g1 g' : gen) (w e : stmtInstr) (body : list stmt) :
  name w = "while"%string -> name e = "endwhile"%string -> dst e = None ->
  matched body ->
  instr g w = Ok g1 -> gen_stmts g1 (body ++ [StmtInstr e]) = Ok g' ->
  ptr g' = ptr g1 /\ loopStarts g' = loopStarts g /\
  (exists t, sb g1 = t ++ ["["%char]) /\ (exists t, sb g' = t ++ ["]"%char]).
Proof.
  intros Hw He Hd Hbody H1 H. rewrite gen_stmts_app in H.
  apply bind_Ok_inv in H as (g2 & H2 & H). simpl in H.
  apply bind_Ok_inv in H as (g3 & H3 & H). injection H as <-.
  destruct (while_cell g g1 w Hw H1) as [Hst Hopen].
  pose proof (matched_stack _ Hbody _ _ H2) as Hst2. rewrite Hst in Hst2.
  destruct (endwhile_cell g2 g3 e _ _ He Hd Hst2 H3) as (Hp & Hs & Hclose).
  done.
Qed.

Lemma endwhile_returns_to_the_loop_cell_witness :
  let w := mkInstr "while" (Some (exprAddr (exprInt 1))) None in
  let i := StmtInstr (mkInstr "inc" (Some (exprAddr (exprInt 4))) None) in
  let e := mkInstr "endwhile" None None in
  exists g1 g',
    instr new_gen w = Ok g1 /\ gen_stmts g1 ([i] ++ [StmtInstr e]) = Ok g' /\
    ptr g' = ptr g1 /\ loopStarts g' = loopStarts new_gen /\
    (exists t, sb g1 = t ++ ["["%char]) /\ (exists t, sb g' = t ++ ["]"%char]).
Proof.
  intros w i e. do 2 eexists. split; [reflexivity|]. split; [reflexivity|].
  apply (endwhile_returns_to_the_loop_cell new_gen _ _ w e [i]).
  - reflexivity.
  - reflexivity.
  - reflexivity.
  - apply matched_plain; [|apply matched_nil]. simpl. apply list_elem_of_here.
  - reflexivity.
  - reflexivity.
Defined.

Lemma if_cells (g g1 : gen) (i : stmtInstr) (ec : expr) (c : Z) :
  name i = "if"%string -> dst i = Some (exprAddr ec) ->
  int g ec = Ok (inl c) -> instr g i = Ok g1 ->
  exists j, loopStarts g1 = (loopStarts g ++ [c]) ++ [j].
Proof.
  destruct i as [n d s]. cbn [name dst]. intros -> -> Hc H.
  unfold instr in H.
  apply bind_Ok_inv in H as (h & H & Hg); injection Hg as <-. cbn in H.
  rewrite Hc in H. cbn in H. inv_bind; subst. eexists. by stack_simpl.
Qed.

Lemma endif_cell (g g' : gen) (e : stmtInstr) (l : list Z) (c j : Z) :
  name e = "endif"%string -> loopStarts g = (l ++ [c]) ++ [j] ->
  instr g e = Ok g' ->
  ptr g' = c /\ loopStarts g' = l /\ exists t, sb g' = t ++ ["]"%char].
Proof.
  destruct e as [n d s]. cbn [name]. intros -> Hst H.
  unfold instr in H. cbn in H.
  rewrite (popLoopStart_snoc g _ _ Hst) in H. cbn in H.
  rewrite (popLoopStart_snoc (set_loopStarts g (l ++ [c])) l c) in H by done.
  cbn in H. injection H as <-.
  cbn [ptr set_label write]. split; [apply point_fields|]. split.
  - stack_simpl. reflexivity.
  - by eexists.
Qed.

(** An [endif] closes on the condition cell: after a matched body, or
    two matched bodies with an [else] between them, it writes its
    loop-close character with the cursor on the cell the first operand of
    the [if] names, and the loop stack is as before the [if]. *)
Theorem endif_returns_to_the_condition_cell
  (g g' : gen) (i e : stmtInstr) (body : list stmt) (ec : expr) (c : Z) :
  name i = "if"%string -> name e = "endif"%string ->
  dst i = Some (exprAddr ec) -> int g ec = Ok (inl c) ->
  (matched body \/
   exists b1 el b2, body = b1 ++ StmtInstr el :: b2
                    /\ name el = "else"%string /\ matched b1 /\ matched b2) ->
  gen_stmts g (StmtInstr i :: body ++ [StmtInstr e]) = Ok g' ->
  ptr g' = c /\ loopStarts g' = loopStarts g /\
  exists t, sb g' = t ++ ["]"%char].
Proof.
  intros Hi He Hd Hc Hbody H. simpl in H.
  apply bind_Ok_inv in H as (g1 & H1 & H).
  destruct (if_cells g g1 i ec c Hi Hd Hc H1) as [j Hst].
  rewrite gen_stmts_app in H. apply bind_Ok_inv in H as (g2 & H2 & H).
  simpl in H. apply bind_Ok_inv in H as (g3 & H3 & H). injection H as <-.
  assert (Hst2 : loopStarts g2 = (loopStarts g ++ [c]) ++ [j]).
  { destruct Hbody as [Hm|(b1 & el & b2 & -> & Hel & Hm1 & Hm2)].
    - by rewrite (matched_stack _ Hm _ _ H2).
    - rewrite gen_stmts_app in H2.
      apply bind_Ok_inv in H2 as (h1 & Hb1 & H2). simpl in H2.
      apply bind_Ok_inv in H2 as (h2 & Hel2 & Hb2).
      rewrite (matched_stack _ Hm2 _ _ Hb2), (else_stack _ _ _ Hel Hel2).
      by rewrite (matched_stack _ Hm1 _ _ Hb1). }
  exact (endif_cell g2 g3 e _ _ _ He Hst2 H3).
Qed.

Lemma endif_returns_to_the_condition_cell_witness :
  let i := mkInstr "if" (Some (exprAddr (exprInt 2)))
                   (Some (exprAddr (exprInt 5))) in
  let a := StmtInstr (mkInstr "inc" (Some (exprAddr (exprInt 7))) None) in
  let el := mkInstr "else" None None in
  let b := StmtInstr (mkInstr "dec" (Some (exprAddr (exprInt 7))) None) in
  let e := mkInstr "endif" None None in
  exists g',
    gen_stmts new_gen (StmtInstr i :: ([a] ++ StmtInstr el :: [b])
                                      ++ [StmtInstr e]) = Ok g' /\
    ptr g' = 2 /\ loopStarts g' = loopStarts new_gen /\
    exists t, sb g' = t ++ ["]"%char].
Proof.
  intros i a el b e. eexists. split; [vm_compute; reflexivity|].
  apply (endif_returns_to_the_condition_cell new_gen _ i e
           ([a] ++ StmtInstr el :: [b]) (exprInt 2) 2).
  - reflexivity.
  - reflexivity.
  - reflexivity.
  - reflexivity.
  - right. exists [a], el, [b]. split; [reflexivity|]. split; [reflexivity|].
    split; (apply matched_plain; [|apply matched_nil]); simpl;
      rewrite !elem_of_cons; tauto.
  - vm_compute. reflexivity.
Defined.

(** *** From the assembler to the channel *)

Lemma instr_call (g : gen) (d s : option expr) :
  instr g (mkInstr "call" d s) =
  g' ← (v ← addr_of g d must_addr; Ok (write (point g v) ["."%char]));
  Ok (set_label g' "").
Proof. reflexivity. Qed.

(** Pointing at the cell the cursor is on writes nothing. *)
Lemma point_stays (g : gen) (v : Z) : ptr g = v -> sb (point g v) = sb g.
Proof.
  intros <-. unfold point. rewrite Z.sub_diag. change (wrap_int 0) with 0.
  cbn. apply app_nil_r.
Qed.

(** The text of [inc [a], c] and then [call [a]]. *)
Lemma generate_inc_call (a c : Z) :
  0 <= a <= max_int ->
  generate [StmtInstr (mkInstr "inc" (Some (exprAddr (exprInt a)))
                               (Some (exprInt c)));
            StmtInstr (mkInstr "call" (Some (exprAddr (exprInt a))) None)]
  = Ok (string_of_list_ascii
          (replicate (Z.to_nat a) ">"%char ++ replicate (Z.to_nat c) "+"%char
           ++ ["."%char])).
Proof.
  intros Ha. unfold generate. cbn [gen_stmts].
  rewrite instr_inc. unfold addr_of, times_of. rewrite !int_literal.
  repeat first [rewrite int_literal | rewrite instr_call
                | progress cbn [mbind result_bind] | progress unfold addr_of].
  f_equal. f_equal. cbn [sb set_label write].
  rewrite point_stays by (cbn [ptr set_label write]; apply point_fields).
  cbn [sb set_label write].
  rewrite point_from_0 by (unfold min_int in *; cbn [ptr new_gen]; lia).
  cbn [sb new_gen app]. unfold movement, runes.
  destruct (Z.ltb_spec a 0); [lia|]. rewrite Z.abs_eq by lia.
  by rewrite <- app_assoc.
Qed.


(** From the assembler to the channel.  For a cell [a] of the tape and an
    opcode [c] from 1 to 254 that the machine does not run itself, the
    program [inc [a], c] and then [call [a]] is assembled to [a] step
    markers, [c] increment markers and one invoke marker; the machine
    loads that text, and within three turns of its loop [Run] returns
    with exactly one op sent: its code is [c] and its eight argument
    bytes are zero.  Cell [a] of the data section holds [c] at the end. *)
Theorem inc_then_call_sends_the_opcode (a c : Z) :
  0 <= a < VM.tapeSize -> 0 < c < 255 -> VM.internal c = false ->
  exists text,
    generate [StmtInstr (mkInstr "inc" (Some (exprAddr (exprInt a)))
                                 (Some (exprInt c)));
              StmtInstr (mkInstr "call" (Some (exprAddr (exprInt a))) None)]
    = Ok text /\
    list_ascii_of_string text
    = replicate (Z.to_nat a) ">"%char ++ replicate (Z.to_nat c) "+"%char
      ++ ["."%char] /\
    forall fuel, (3 <= fuel)%nat ->
      exists q,
        VM.load_and_run fuel text = VM.Halted q [VM.mkOp c (replicate 8 0)] /\
        VM.Byte q (VM.dataStart q + a) = Ok c.
Proof.
  intros Ha Hc Hint. eexists. split.
  { apply generate_inc_call. unfold VM.tapeSize, max_int in *. lia. }
  rewrite list_ascii_of_string_of_list_ascii. split; [reflexivity|].
  intros fuel Hfuel. unfold VM.load_and_run, bytes_of_string.
  rewrite list_ascii_of_string_of_list_ascii, !fmap_app, !fmap_replicate.
  cbn [fmap list_fmap].
  assert (Hc' : c = Z.of_nat (S (Z.to_nat (c - 1)))) by lia.
  assert (Hn : Z.to_nat c = S (Z.to_nat (c - 1))) by lia.
  rewrite Hn.
  destruct (VMMore.load_move_add_invoke (Z.to_nat a) (Z.to_nat (c - 1)))
    as (p & Hp & Hrun); [lia|lia|by rewrite <- Hc'|].
  rewrite Hp. destruct (Hrun fuel Hfuel) as (q & Hq & Hcell).
  exists q. rewrite <- Hc', Z2Nat.id in * by lia. by split.
Qed.

Lemma inc_then_call_sends_the_opcode_witness :
  exists text,
    generate [StmtInstr (mkInstr "inc" (Some (exprAddr (exprInt 3)))
                                 (Some (exprInt 65)));
              StmtInstr (mkInstr "call" (Some (exprAddr (exprInt 3))) None)]
    = Ok text /\
    list_ascii_of_string text
    = replicate (Z.to_nat 3) ">"%char ++ replicate (Z.to_nat 65) "+"%char
      ++ ["."%char] /\
    forall fuel, (3 <= fuel)%nat ->
      exists q,
        VM.load_and_run fuel text = VM.Halted q [VM.mkOp 65 (replicate 8 0)] /\
        VM.Byte q (VM.dataStart q + 3) = Ok 65.
Proof.
  apply (inc_then_call_sends_the_opcode 3 65);
    [unfold VM.tapeSize; lia | lia | reflexivity].
Defined.

End BSMore.


(** ** Properties of the parser *)

Module ParserProofs.
Import BS Parser ParserSpec.

Section Library.

Variable Atoi : string -> Z + string.
Variable ToLower : string -> string.
Variable show : Z -> string.

(** [parseExpr] as the source has it, with its call of
    [parseExprAddr]. *)
Lemma parseExpr_unfold (toks : tokens) :
  parseExpr Atoi toks =
  tok ← deref (next toks);
  if bool_decide (t tok = tokId) then parseExprId toks
  else if bool_decide (t tok = tokLBracket) then parseExprAddr Atoi toks
  else parseExprInt Atoi toks.
Proof.
  destruct toks as [|tok rest]; [done|]. unfold parseExprAddr. simpl.
  destruct (bool_decide (t tok = tokId)); [done|].
  by destruct (bool_decide (t tok = tokLBracket)).
Qed.

(** *** What a parser consumes *)

Lemma consumed_one (tok : token) (rest : tokens) :
  on_line tok -> consumed (tok :: rest) [tok] rest.
Proof. intros H. split; [done|]. split; [done|]. by apply Forall_singleton. Qed.

Lemma consumed_cons (tok : token) (toks used rest : tokens) :
  on_line tok -> consumed toks used rest ->
  consumed (tok :: toks) (tok :: used) rest.
Proof.
  intros H (-> & _ & Hall). split; [done|]. split; [done|].
  by apply Forall_cons.
Qed.

Lemma consumed_app (toks used mid more rest : tokens) :
  consumed toks used mid -> consumed mid more rest ->
  consumed toks (used ++ more) rest.
Proof.
  intros (-> & Hne & Hall) (-> & _ & Hall'). split; [by rewrite app_assoc|].
  split; [|by apply Forall_app]. by destruct used.
Qed.

Lemma parseExprId_consumed (toks rest : tokens) (e : expr) :
  parseExprId toks = Ok (rest, e) -> exists used, consumed toks used rest.
Proof.
  destruct toks as [|tok toks]; [done|]. unfold parseExprId.
  cbn [deref next mbind result_bind consume].
  case_bool_decide as Hid; [|done]. cbn [negb]. intros [= <- <-].
  exists [tok]. apply consumed_one. unfold on_line. by rewrite Hid.
Qed.

Lemma parseExprInt_consumed (toks rest : tokens) (e : expr) :
  parseExprInt Atoi toks = Ok (rest, e) -> exists used, consumed toks used rest.
Proof.
  destruct toks as [|tok toks]; [done|]. unfold parseExprInt.
  cbn [deref next mbind result_bind consume].
  case_bool_decide as Hid; [|done]. cbn [negb].
  destruct (Atoi (v tok)); [|done]. intros [= <- <-].
  exists [tok]. apply consumed_one. unfold on_line. by rewrite Hid.
Qed.

Lemma closing_consumed (toks rest : tokens) (e e' : expr) :
  closing (toks, e) = Ok (rest, e') ->
  e' = exprAddr e /\ exists used, consumed toks used rest.
Proof.
  destruct toks as [|tok toks]; [done|]. unfold closing.
  cbn [deref next mbind result_bind consume].
  case_bool_decide as Hid; [|done]. cbn [negb]. intros [= <- <-].
  split; [done|]. exists [tok]. apply consumed_one. unfold on_line.
  by rewrite Hid.
Qed.

Lemma parseExpr_consumed (toks rest : tokens) (e : expr) :
  parseExpr Atoi toks = Ok (rest, e) -> exists used, consumed toks used rest.
Proof.
  revert rest e. induction toks as [|tok toks IH]; intros rest e H; [done|].
  cbn [parseExpr] in H. case_bool_decide as Hid.
  { by apply parseExprId_consumed in H. }
  case_bool_decide as Hbr; [|by apply parseExprInt_consumed in H].
  apply bind_Ok_inv in H as ([mid e'] & Hrec & Hclose).
  destruct (IH _ _ Hrec) as (used & Hused).
  apply closing_consumed in Hclose as (_ & more & Hmore).
  exists (tok :: used ++ more). apply consumed_cons.
  - unfold on_line. by rewrite Hbr.
  - by apply (consumed_app toks used mid).
Qed.

Lemma at_end_false (toks : tokens) :
  at_end toks = false -> exists tok rest, toks = tok :: rest /\ on_line tok.
Proof.
  destruct toks as [|tok rest]; [done|]. unfold at_end. cbn [next].
  case_bool_decide; [done|]. intros _. by exists tok, rest.
Qed.

Lemma parseStmtInstr_consumed (toks rest : tokens) (i : stmtInstr) :
  parseStmtInstr Atoi ToLower toks = Ok (rest, i) ->
  exists used, consumed toks used rest.
Proof.
  destruct toks as [|tok toks]; [done|]. unfold parseStmtInstr.
  cbn [deref next mbind result_bind consume].
  case_bool_decide as Hid; [|done]. cbn [negb].
  assert (Htok : on_line tok) by (unfold on_line; by rewrite Hid).
  destruct (at_end toks) eqn:E1.
  { intros [= <- <-]. exists [tok]. by apply consumed_one. }
  intros H. apply bind_Ok_inv in H as ([mid d] & Hd & H).
  apply parseExpr_consumed in Hd as (used & Hused).
  destruct (at_end mid) eqn:E2.
  { injection H as <- <-. exists (tok :: used). by apply consumed_cons. }
  apply at_end_false in E2 as (comma & mid' & -> & Hcomma).
  cbn [deref next mbind result_bind consume] in H.
  destruct (negb _); [done|].
  apply bind_Ok_inv in H as ([rest' s] & Hs & H). injection H as <- <-.
  apply parseExpr_consumed in Hs as (more & Hmore).
  exists (tok :: used ++ comma :: more). apply consumed_cons; [done|].
  apply (consumed_app toks used (comma :: mid')); [done|].
  by apply consumed_cons.
Qed.

Lemma parseStmt_consumed (toks rest : tokens) (s : stmt) :
  parseStmt Atoi ToLower toks = Ok (rest, s) ->
  exists used, consumed toks used rest.
Proof.
  unfold parseStmt. intros H.
  apply bind_Ok_inv in H as (tok & Htok & H).
  destruct (bool_decide (t tok = tokId)) eqn:Hid; [|done]. cbn [negb] in H.
  apply bool_decide_eq_true in Hid.
  apply bind_Ok_inv in H as (pk & Hpk & H).
  case_bool_decide as Hcolon.
  - injection H as <- <-. destruct toks as [|tok' [|pk' toks]]; try done.
    injection Htok as ->. injection Hpk as ->.
    exists [tok; pk]. repeat split; [done|].
    apply Forall_cons. split; [unfold on_line; by rewrite Hid|].
    apply Forall_singleton. unfold on_line. by rewrite Hcolon.
  - apply bind_Ok_inv in H as ([rest' i] & Hi & H). injection H as <- <-.
    by apply parseStmtInstr_consumed in Hi.
Qed.

Lemma consumed_shorter (toks used rest : tokens) :
  consumed toks used rest -> (length rest < length toks)%nat.
Proof.
  intros (-> & Hne & _). rewrite length_app. destruct used; [done|].
  simpl. lia.
Qed.

Lemma parse_loop_ends (fuel : nat) (toks : tokens) (stmts : list stmt) :
  (length toks <= fuel)%nat ->
  is_Some (parse_loop Atoi ToLower fuel toks stmts).
Proof.
  revert toks stmts. induction fuel as [|fuel IH]; intros toks stmts Hlen.
  - destruct toks; [by eexists|simpl in Hlen; lia].
  - destruct toks as [|tok toks]; [by eexists|].
    cbn [parse_loop next consume]. case_bool_decide.
    + apply IH. simpl in Hlen. lia.
    + destruct (parseStmt Atoi ToLower (tok :: toks)) as [[rest s]|e] eqn:Hs;
        [|by eexists].
      apply IH. apply parseStmt_consumed in Hs as (used & Hused).
      apply consumed_shorter in Hused. lia.
Qed.

(** [parse] ends on every list of tokens: each turn of its loop consumes
    at least one token.  A statement never spans lines: [parseStmt]
    consumes at least one token and no end-of-line token, and returns the
    tokens that follow what it consumed. *)
Theorem parse_ends :
  (forall toks : tokens, is_Some (parse Atoi ToLower toks)) /\
  (forall (toks rest : tokens) (s : stmt),
     parseStmt Atoi ToLower toks = Ok (rest, s) ->
     exists used, toks = used ++ rest /\ used <> [] /\ Forall on_line used).
Proof.
  split.
  - intros toks. by apply parse_loop_ends.
  - apply parseStmt_consumed.
Qed.

(** *** A last line without its end *)

Lemma split_at_eol (pre l2 used rest : tokens) (eol : token) :
  t eol = tokEOL -> Forall on_line used ->
  pre ++ eol :: l2 = used ++ rest ->
  exists pre', pre = used ++ pre' /\ rest = pre' ++ eol :: l2.
Proof.
  intros Heol Hall. revert pre.
  induction Hall as [|u used Hu _ IH]; intros pre H.
  - by exists pre.
  - destruct pre as [|p pre]; simpl in H; injection H as -> H.
    + by destruct Hu.
    + destruct (IH pre H) as (pre' & -> & ->). by exists pre'.
Qed.

Lemma parseStmt_alone (name : token) :
  t name = tokId -> parseStmt Atoi ToLower [name] = Panic NilDereference.
Proof.
  intros Hid. unfold parseStmt. cbn [deref next mbind result_bind].
  by rewrite bool_decide_true.
Qed.

Lemma parse_loop_trailing (fuel : nat) (pre : tokens) (eol name : token)
    (stmts : list stmt) :
  t eol = tokEOL -> t name = tokId ->
  (length (pre ++ [eol; name]) <= fuel)%nat ->
  exists e, parse_loop Atoi ToLower fuel (pre ++ [eol; name]) stmts
            = Some (Panic e).
Proof.
  intros Heol Hid. revert pre stmts.
  induction fuel as [|fuel IH]; intros pre stmts Hlen.
  { rewrite length_app in Hlen. simpl in Hlen. lia. }
  destruct pre as [|tok pre].
  - cbn [app parse_loop next consume]. rewrite bool_decide_true by done.
    destruct fuel as [|fuel]; [simpl in Hlen; lia|].
    cbn [parse_loop next]. rewrite bool_decide_false by (by rewrite Hid).
    rewrite parseStmt_alone by done. by eexists.
  - cbn [app parse_loop next consume]. case_bool_decide.
    + apply IH. simpl in Hlen. lia.
    + destruct (parseStmt _ _ _) as [[rest s]|e] eqn:Hs; [|by eexists].
      apply parseStmt_consumed in Hs as (used & Heq & Hne & Hall).
      change (tok :: pre ++ [eol; name]) with ((tok :: pre) ++ eol :: [name])
        in Heq.
      apply split_at_eol in Heq as (pre' & Hpre & ->); [|done..].
      apply IH. simpl in Hlen. rewrite length_app in *.
      assert (length (tok :: pre) = length (used ++ pre')) as Hl
        by by rewrite Hpre.
      rewrite length_app in Hl. destruct used; [done|]. simpl in *. lia.
Qed.

(** A last line that is one identifier and has no end of line makes the
    parser panic: [parseStmt] looks at the token after the identifier,
    and there is none.  So a source text that ends in an instruction
    without operands (an [endwhile], say) and without a final line break
    is never assembled, whatever stands before that line. *)
Theorem last_line_without_its_end_panics (eol name : token) :
  t eol = tokEOL -> t name = tokId ->
  parseStmt Atoi ToLower [name] = Panic NilDereference /\
  parse Atoi ToLower [name] = Some (Panic NilDereference) /\
  forall pre : tokens,
    exists e, parse Atoi ToLower (pre ++ [eol; name]) = Some (Panic e).
Proof.
  intros Heol Hid. split; [by apply parseStmt_alone|]. split.
  - unfold parse. cbn [length parse_loop next].
    rewrite bool_decide_false by (by rewrite Hid).
    by rewrite parseStmt_alone.
  - intros pre. by apply parse_loop_trailing.
Qed.

(** *** Reading back what was written *)

Lemma expr_tokens_head (e : expr) :
  exists tok rest, expr_tokens show e = tok :: rest
                   /\ t tok <> tokEOL /\ t tok <> tokColon.
Proof. destruct e; simpl; by do 2 eexists. Qed.

Lemma parseExpr_written (e : expr) (rest : tokens) :
  readable Atoi show e ->
  parseExpr Atoi (expr_tokens show e ++ rest) = Ok (rest, e).
Proof.
  revert rest. induction e as [id|n|e IH]; intros rest Hr; simpl.
  - done.
  - unfold parseExprInt. simpl. simpl in Hr. by rewrite Hr.
  - rewrite <- app_assoc. rewrite (IH _ Hr). done.
Qed.

Lemma at_end_written (e : expr) (rest : tokens) :
  at_end (expr_tokens show e ++ rest) = false.
Proof.
  destruct (expr_tokens_head e) as (tok & more & -> & Hn & _).
  unfold at_end. simpl. by rewrite bool_decide_false.
Qed.

Lemma parseStmtInstr_written (i : stmtInstr) (rest : tokens) :
  writable Atoi ToLower show (StmtInstr i) ->
  parseStmtInstr Atoi ToLower (stmt_tokens show (StmtInstr i) ++ rest)
  = Ok (mkToken tokEOL (String "010" "") :: rest, i).
Proof.
  destruct i as [n d sr]. intros (Hn & Hnone & Hd & Hs).
  cbn [name dst src] in *. unfold parseStmtInstr, stmt_tokens.
  cbn [name dst src]. cbn [app deref next mbind result_bind consume t v].
  rewrite bool_decide_true by done. cbn [negb]. rewrite Hn.
  destruct d as [d|].
  - destruct sr as [sr|]; rewrite <- !app_assoc;
      rewrite at_end_written, parseExpr_written by done;
      cbn [mbind result_bind app]; unfold at_end at 1;
      cbn [next t deref mbind result_bind consume].
    + rewrite bool_decide_false by done.
      rewrite bool_decide_true by done. cbn [negb].
      by rewrite parseExpr_written by done.
    + by rewrite bool_decide_true by done.
  - rewrite (Hnone eq_refl). cbn [app]. unfold at_end at 1.
    cbn [next t]. by rewrite bool_decide_true by done.
Qed.

Lemma peek_written (i : stmtInstr) (rest : tokens) :
  exists pk, peek (stmt_tokens show (StmtInstr i) ++ rest) = Some pk
             /\ t pk <> tokColon.
Proof.
  destruct i as [n d sr]. unfold stmt_tokens. cbn [name dst src].
  destruct d as [d|]; [|by eexists].
  destruct (expr_tokens_head d) as (tok & more & Hhead & _ & Hcolon).
  exists tok. split; [|done].
  destruct sr; rewrite Hhead; reflexivity.
Qed.

Lemma parseStmt_written (s : stmt) (rest : tokens) :
  writable Atoi ToLower show s ->
  parseStmt Atoi ToLower (stmt_tokens show s ++ rest)
  = Ok (match s with
        | StmtLabel _ => rest
        | StmtInstr _ => mkToken tokEOL (String "010" "") :: rest
        end, s).
Proof.
  destruct s as [i|l]; [|done]. intros Hw. unfold parseStmt.
  rewrite (parseStmtInstr_written i rest Hw).
  destruct (peek_written i rest) as (pk & -> & Hcolon).
  unfold stmt_tokens. cbn [app deref next mbind result_bind t].
  rewrite bool_decide_true by done. cbn [negb].
  by rewrite bool_decide_false by done.
Qed.

Lemma stmt_tokens_head (s : stmt) :
  exists tok rest, stmt_tokens show s = tok :: rest /\ t tok = tokId
                   /\ match s with
                      | StmtLabel _ => (length rest = 1)%nat
                      | StmtInstr _ => (1 <= length rest)%nat
                      end.
Proof.
  destruct s as [i|l]; simpl; do 2 eexists; (split; [reflexivity|]);
    (split; [done|]); [|done].
  rewrite length_app. simpl. lia.
Qed.

Lemma parse_loop_written (stmts : list stmt) :
  Forall (writable Atoi ToLower show) stmts ->
  forall (fuel : nat) (acc : list stmt),
    (length (concat (stmt_tokens show <$> stmts)) <= fuel)%nat ->
    parse_loop Atoi ToLower fuel (concat (stmt_tokens show <$> stmts)) acc
    = Some (Ok (acc ++ stmts)).
Proof.
  induction 1 as [|s stmts Hs _ IH]; intros fuel acc Hlen.
  - simpl. rewrite app_nil_r. by destruct fuel.
  - cbn [fmap list_fmap concat] in *.
    pose proof (parseStmt_written s (concat (stmt_tokens show <$> stmts)) Hs)
      as Hp.
    destruct (stmt_tokens_head s) as (tok & more & Hhead & Hid & Hmore).
    rewrite length_app, Hhead in Hlen. simpl in Hlen.
    destruct fuel as [|fuel]; [lia|].
    rewrite Hhead in *. cbn [app parse_loop next].
    rewrite bool_decide_false by (by rewrite Hid).
    cbn [app] in Hp. rewrite Hp.
    destruct s as [i|l].
    + destruct fuel as [|fuel]; [lia|]. cbn [parse_loop next t consume].
      rewrite bool_decide_true by done.
      rewrite IH by lia. by rewrite <- app_assoc.
    + rewrite IH by lia. by rewrite <- app_assoc.
Qed.

(** The parser reads back what is written: statements whose instruction
    names are in lower case, put down token by token (a label and its
    colon; a name, its operands with a comma between them, and the end of
    the line), are parsed to exactly those statements. *)
Theorem parse_reads_back_what_is_written (stmts : list stmt) :
  Forall (writable Atoi ToLower show) stmts ->
  parse Atoi ToLower (concat (stmt_tokens show <$> stmts)) = Some (Ok stmts).
Proof.
  intros H. unfold parse. by rewrite (parse_loop_written stmts H).
Qed.

(** *** Line by line *)

Lemma parseExpr_more (toks rest more : tokens) (e : expr) :
  parseExpr Atoi toks = Ok (rest, e) ->
  parseExpr Atoi (toks ++ more) = Ok (rest ++ more, e).
Proof.
  revert rest e. induction toks as [|tok toks IH]; intros rest e H; [done|].
  cbn [parseExpr app] in *. case_bool_decide as Hid.
  { unfold parseExprId in *. cbn [deref next mbind result_bind consume] in *.
    destruct (negb _); [done|]. by injection H as <- <-. }
  case_bool_decide as Hbr.
  - apply bind_Ok_inv in H as ([mid e'] & Hrec & Hclose).
    rewrite (IH _ _ Hrec). cbn [mbind result_bind].
    destruct mid as [|tok' mid]; [done|]. unfold closing in *.
    cbn [app deref next mbind result_bind consume] in *.
    destruct (negb _); [done|]. by injection Hclose as <- <-.
  - unfold parseExprInt in *. cbn [deref next mbind result_bind consume] in *.
    destruct (negb _); [done|]. destruct (Atoi (v tok)); [|done].
    by injection H as <- <-.
Qed.

Lemma at_end_more (toks more : tokens) :
  toks <> [] -> at_end (toks ++ more) = at_end toks.
Proof. by destruct toks. Qed.

Lemma parseStmtInstr_more (toks rest more : tokens) (i : stmtInstr) :
  parseStmtInstr Atoi ToLower toks = Ok (rest, i) -> rest <> [] ->
  parseStmtInstr Atoi ToLower (toks ++ more) = Ok (rest ++ more, i).
Proof.
  destruct toks as [|tok toks]; [done|]. unfold parseStmtInstr.
  cbn [app deref next mbind result_bind consume].
  destruct (negb _); [done|].
  destruct (at_end toks) eqn:E1.
  { intros [= <- <-] Hne. by rewrite at_end_more, E1. }
  intros H Hne. apply at_end_false in E1 as Hcons.
  destruct Hcons as (tok1 & toks1 & Htoks & _).
  rewrite at_end_more, E1 by (by rewrite Htoks).
  apply bind_Ok_inv in H as ([mid d] & Hd & H).
  rewrite (parseExpr_more _ _ more _ Hd). cbn [mbind result_bind].
  destruct (at_end mid) eqn:E2.
  { injection H as <- <-. by rewrite at_end_more, E2. }
  apply at_end_false in E2 as Hcons. destruct Hcons as (c & mid' & -> & _).
  rewrite at_end_more, E2 by done.
  cbn [app deref next mbind result_bind consume] in *.
  destruct (negb _); [done|].
  apply bind_Ok_inv in H as ([rest' s] & Hs & H). injection H as <- <-.
  by rewrite (parseExpr_more _ _ more _ Hs).
Qed.

Lemma parseStmt_more (toks rest more : tokens) (s : stmt) :
  parseStmt Atoi ToLower toks = Ok (rest, s) -> rest <> [] ->
  parseStmt Atoi ToLower (toks ++ more) = Ok (rest ++ more, s).
Proof.
  unfold parseStmt. intros H Hne.
  destruct toks as [|tok [|pk toks]]; try done.
  { cbn [deref next peek mbind result_bind] in H.
    by destruct (negb _). }
  cbn [app deref next peek mbind result_bind consume] in *.
  destruct (negb _); [done|]. case_bool_decide.
  - by injection H as <- <-.
  - apply bind_Ok_inv in H as ([rest' i] & Hi & H). injection H as <- <-.
    change (tok :: pk :: toks ++ more) with ((tok :: pk :: toks) ++ more).
    by rewrite (parseStmtInstr_more (tok :: pk :: toks) _ more _ Hi Hne).
Qed.

Lemma onto_onto (acc more : list stmt) (r : option (result (list stmt))) :
  onto acc (onto more r) = onto (acc ++ more) r.
Proof. destruct r as [[stmts|e]|]; simpl; by rewrite ?app_assoc. Qed.

Lemma parse_loop_onto (fuel : nat) (toks : tokens) (acc : list stmt) :
  parse_loop Atoi ToLower fuel toks acc
  = onto acc (parse_loop Atoi ToLower fuel toks []).
Proof.
  revert toks acc. induction fuel as [|fuel IH]; intros toks acc.
  - destruct toks; simpl; by rewrite ?app_nil_r.
  - destruct toks as [|tok toks]; [simpl; by rewrite app_nil_r|].
    cbn [parse_loop next consume]. case_bool_decide; [apply IH|].
    destruct (parseStmt _ _ _) as [[rest s]|e]; [|done].
    rewrite (IH rest (acc ++ [s])), (IH rest ([] ++ [s])).
    by rewrite onto_onto.
Qed.

Lemma parse_loop_fuel (f1 f2 : nat) (toks : tokens) (acc : list stmt) :
  (length toks <= f1)%nat -> (length toks <= f2)%nat ->
  parse_loop Atoi ToLower f1 toks acc = parse_loop Atoi ToLower f2 toks acc.
Proof.
  revert f2 toks acc. induction f1 as [|f1 IH]; intros f2 toks acc H1 H2.
  - destruct toks; [by destruct f2|simpl in H1; lia].
  - destruct toks as [|tok toks]; [by destruct f2|].
    destruct f2 as [|f2]; [simpl in H2; lia|].
    cbn [parse_loop next consume]. simpl in H1, H2.
    case_bool_decide; [apply IH; lia|].
    destruct (parseStmt _ _ _) as [[rest s]|e] eqn:Hs; [|done].
    apply parseStmt_consumed in Hs as (used & Hused).
    apply consumed_shorter in Hused. simpl in Hused. apply IH; lia.
Qed.

Lemma parse_loop_line (fuel : nat) (l1 l2 : tokens) (eol : token)
    (acc s1 : list stmt) :
  t eol = tokEOL ->
  parse_loop Atoi ToLower fuel (l1 ++ [eol]) acc = Some (Ok s1) ->
  forall fuel', (length (l1 ++ eol :: l2) <= fuel')%nat ->
    parse_loop Atoi ToLower fuel' (l1 ++ eol :: l2) acc
    = parse_loop Atoi ToLower (length l2) l2 s1.
Proof.
  intros Heol. revert l1 acc.
  induction fuel as [|fuel IH]; intros l1 acc H fuel' Hlen.
  { by destruct l1. }
  destruct fuel' as [|fuel']; [rewrite length_app in Hlen; simpl in Hlen; lia|].
  destruct l1 as [|tok l1].
  - cbn [app parse_loop next consume] in *.
    rewrite bool_decide_true in * by done.
    assert (s1 = acc) as -> by (destruct fuel; simpl in H; congruence).
    apply parse_loop_fuel; simpl in Hlen; lia.
  - cbn [app parse_loop next consume] in *. simpl in Hlen.
    case_bool_decide; [apply (IH l1 acc H); lia|].
    destruct (parseStmt Atoi ToLower (tok :: l1 ++ [eol]))
      as [[rest s]|e] eqn:Hs; [|done].
    pose proof (parseStmt_consumed _ _ _ Hs) as (used & Heq & Hne & Hall).
    change (tok :: l1 ++ [eol]) with ((tok :: l1) ++ eol :: []) in Heq.
    apply split_at_eol in Heq as (pre' & Hpre & ->); [|done..].
    apply (parseStmt_more _ _ l2) in Hs; [|by destruct pre'].
    cbn [app] in Hs. rewrite <- !app_assoc in Hs. cbn [app] in Hs.
    rewrite Hs.
    apply (IH pre' (acc ++ [s]) H).
    assert (length (tok :: l1) = length (used ++ pre')) as Hl
      by by rewrite Hpre.
    rewrite length_app in *. destruct used; [done|]. simpl in *. lia.
Qed.

(** Lines are parsed one by one: when the tokens up to an end of line
    are parsed to statements, the tokens with more lines after that end
    of line are parsed to those statements followed by the statements of
    the rest, or panic where the rest alone panics. *)
Theorem lines_are_parsed_one_by_one
  (l1 l2 : tokens) (eol : token) (s1 : list stmt) :
  t eol = tokEOL ->
  parse Atoi ToLower (l1 ++ [eol]) = Some (Ok s1) ->
  parse Atoi ToLower (l1 ++ eol :: l2) = onto s1 (parse Atoi ToLower l2).
Proof.
  intros Heol H. unfold parse in *.
  rewrite (parse_loop_line _ l1 l2 eol [] s1 Heol H) by done.
  apply parse_loop_onto.
Qed.

(** *** From the tokens to the machine *)

(** A program that is written out token by token, with matched
    constructs and literal operands, is assembled: the parser returns its
    statements, the generator their text, and the machine loads that
    text whole. *)
Theorem written_programs_are_assembled (stmts : list stmt) :
  Forall (writable Atoi ToLower show) stmts ->
  BSSpec.matched stmts -> Forall BSSpec.literal_operands stmts ->
  exists text p,
    assemble Atoi ToLower (concat (stmt_tokens show <$> stmts))
    = Some (Ok text) /\
    generate stmts = Ok text /\
    VM.NewProgram (bytes_of_string text) = inr p /\
    VM.CodeSection p = bytes_of_string text ++ replicate 10 0.
Proof.
  intros Hw Hm Hl.
  destruct (BSProofs.matched_succeeds stmts Hm Hl new_gen) as [g Hg].
  assert (Hgen : generate stmts = Ok (string_of_list_ascii (sb g))).
  { unfold generate. by rewrite Hg. }
  destruct (BSMore.generate_loads stmts _ Hgen (BSMore.matched_opened _ Hm))
    as (p & Hp & Hcode).
  exists (string_of_list_ascii (sb g)), p.
  split; [|done]. unfold assemble, parse.
  rewrite (parse_loop_written stmts Hw) by done.
  cbn [mbind result_bind app]. by rewrite Hgen.
Qed.

End Library.

Lemma lines_are_parsed_one_by_one_witness :
  let eol := mkToken tokEOL (String "010" "") in
  let l1 := [mkToken tokId "x"; mkToken tokColon ":";
             mkToken tokId "const"; mkToken tokInt "5"] in
  parse decimal lower (l1 ++ eol :: [mkToken tokId "inc"])
  = onto [StmtLabel "x"; StmtInstr (mkInstr "const" (Some (exprInt 5)) None)]
         (parse decimal lower [mkToken tokId "inc"]).
Proof.
  intros eol l1.
  apply (lines_are_parsed_one_by_one decimal lower l1 [mkToken tokId "inc"]
           eol).
  - reflexivity.
  - reflexivity.
Defined.

Lemma written_programs_are_assembled_witness :
  let stmts := [StmtInstr (mkInstr "while" (Some (exprAddr (exprInt 1))) None);
                StmtInstr (mkInstr "dec" (Some (exprAddr (exprInt 1))) None);
                StmtInstr (mkInstr "endwhile" None None)] in
  exists text p,
    assemble decimal lower (concat (stmt_tokens show_digit <$> stmts))
    = Some (Ok text) /\
    generate stmts = Ok text /\
    VM.NewProgram (bytes_of_string text) = inr p /\
    VM.CodeSection p = bytes_of_string text ++ replicate 10 0.
Proof.
  intros stmts.
  apply (written_programs_are_assembled decimal lower show_digit stmts).
  - repeat apply Forall_cons_2; try apply Forall_nil_2; try exact I;
      repeat split; try reflexivity; done.
  - apply (BSSpec.matched_while _ [_] _ []); try reflexivity.
    + apply BSSpec.matched_plain; [|apply BSSpec.matched_nil].
      simpl. rewrite !elem_of_cons. tauto.
    + apply BSSpec.matched_nil.
  - repeat apply Forall_cons_2; try apply Forall_nil_2; simpl;
      rewrite ?elem_of_cons; unfold BSSpec.literal_addr, BSSpec.literal_count;
      eauto 10.
Defined.

Lemma parse_ends_witness :
  let toks := [mkToken tokId "INC"; mkToken tokLBracket "[";
               mkToken tokInt "3"; mkToken tokRBracket "]"] in
  let eol := mkToken tokEOL (String "010" "") in
  exists used, toks ++ [eol] = used ++ [eol] /\ used <> []
               /\ Forall on_line used.
Proof.
  intros toks eol.
  apply (proj2 (parse_ends decimal lower) (toks ++ [eol]) [eol]
           (StmtInstr (mkInstr "inc" (Some (exprAddr (exprInt 3))) None))).
  reflexivity.
Defined.

Lemma last_line_without_its_end_panics_witness :
  let eol := mkToken tokEOL (String "010" "") in
  let name := mkToken tokId "endwhile" in
  parseStmt decimal lower [name] = Panic NilDereference /\
  parse decimal lower [name] = Some (Panic NilDereference) /\
  forall pre : tokens,
    exists e, parse decimal lower (pre ++ [eol; name]) = Some (Panic e).
Proof.
  intros eol name.
  apply (last_line_without_its_end_panics decimal lower eol name).
  - reflexivity.
  - reflexivity.
Defined.

Lemma parse_reads_back_what_is_written_witness :
  let stmts := [StmtLabel "x";
                StmtInstr (mkInstr "const" (Some (exprInt 5)) None);
                StmtInstr (mkInstr "inc" (Some (exprAddr (exprId "x")))
                                   (Some (exprInt 2)));
                StmtInstr (mkInstr "endwhile" None None)] in
  parse decimal lower (concat (stmt_tokens show_digit <$> stmts))
  = Some (Ok stmts).
Proof.
  intros stmts.
  apply (parse_reads_back_what_is_written decimal lower show_digit stmts).
  repeat apply Forall_cons_2; try apply Forall_nil_2; try exact I;
    repeat split; try reflexivity; done.
Defined.

End ParserProofs.
